(** * Impression tracking (src/impression.js): a shallow embedding

    The module coordinates, through promises, a handshake between an AMP
    document and its viewer.  The embedding has three layers:

    - JavaScript values and the few operators the module applies to them;
    - a small promise runtime (promise cells, reactions, the microtask
      queue, [Promise.all], [then]) in which callbacks are defunctionalised;
    - the functions of the module, written in a state-and-exception monad,
      and the environment that delivers external signals (viewer answers,
      visibility, network, the timer). *)

From Stdlib Require Import ZArith Lia.
From stdpp Require Import base list strings gmap.

Set Warnings "-register-all,-clear-no-such-hyp".
Local Open Scope string_scope.

(** ** JavaScript values *)

Inductive JsVal : Type :=
| JUndefined
| JNull
| JBool (b : bool)
| JNum (n : Z)
| JStr (s : string)
| JArr (items : list JsVal)
| JObj (props : list (string * JsVal))
| JError (message : string)
| JResponse.

(** ToBoolean. *)
Definition truthy (v : JsVal) : bool :=
  match v with
  | JUndefined | JNull => false
  | JBool b => b
  | JNum n => negb (Z.eqb n 0)
  | JStr s => negb (String.eqb s "")
  | JArr _ | JObj _ | JError _ | JResponse => true
  end.

(** [typeof v == 'object'] *)
Definition typeof_object (v : JsVal) : bool :=
  match v with
  | JNull | JArr _ | JObj _ | JError _ | JResponse => true
  | JUndefined | JBool _ | JNum _ | JStr _ => false
  end.

(** [a || b] *)
Definition js_or (a b : JsVal) : JsVal := if truthy a then a else b.

Fixpoint assoc (key : string) (props : list (string * JsVal)) : JsVal :=
  match props with
  | [] => JUndefined
  | (k, v) :: rest => if String.eqb k key then v else assoc key rest
  end.

Inductive Result (A : Type) : Type :=
| Ok (a : A)
| Throw (e : JsVal).
Arguments Ok {A} a.
Arguments Throw {A} e.

(** [v[key]] for the property names the module reads; reading a property
    of [undefined] or [null] throws a TypeError. *)
Definition js_get (v : JsVal) (key : string) : Result JsVal :=
  match v with
  | JUndefined | JNull => Throw (JError "TypeError")
  | JObj props => Ok (assoc key props)
  | _ => Ok JUndefined
  end.

(** [v[i]] for an array index. *)
Definition js_index (v : JsVal) (i : nat) : Result JsVal :=
  match v with
  | JUndefined | JNull => Throw (JError "TypeError")
  | JArr items => Ok (nth i items JUndefined)
  | _ => Ok JUndefined
  end.

(** [hay.indexOf(needle)] *)
Definition indexOf (hay needle : string) : Z :=
  match String.index 0 needle hay with
  | Some i => Z.of_nat i
  | None => (-1)%Z
  end.

(** ** Promises *)

(** Every promise-creating expression of the module is evaluated at most
    once per tracking session, so a promise is named by the expression that
    creates it. *)
Inductive PromiseId : Type :=
| P_promise            (* line 56: new Promise(resolve => ...) *)
| P_timeout            (* line 60: timeoutPromise(TIMEOUT_VALUE, promise, ...) *)
| P_session            (* line 61: .catch(...), stored in trackImpressionPromise *)
| P_isTrustedViewer    (* line 66 *)
| P_isTrustedReferrer  (* line 67 *)
| P_trustAll           (* line 68: Promise.all([...]) *)
| P_trustThen          (* line 71: .then(results => ...) *)
| P_joinAll            (* line 84: Promise.all([replaceUrlPromise, clickUrlPromise]) *)
| P_joinThen           (* line 84: .then(..., ...) *)
| P_doNotTrack         (* line 94: Promise.resolve() *)
| P_replaceNoParam     (* line 115: Promise.resolve() *)
| P_replaceLegacy      (* line 122: Promise.resolve() *)
| P_getReplaceUrl      (* line 126: viewer.sendMessageAwaitResponse(...) *)
| P_replaceAsync       (* line 127: .then(response => ..., err => ...) *)
| P_clickNoParam       (* line 151: Promise.resolve() *)
| P_clickInvalid       (* line 158: Promise.resolve() *)
| P_firstVisible       (* line 169: viewer.whenFirstVisible() *)
| P_invoked            (* line 169: .then(() => invoke(...)) *)
| P_clickUrl           (* line 171: .then(response => applyResponse(...)) *)
| P_fetchJson          (* line 186: xhrFor(win).fetchJson(...) *)
| P_invoke             (* line 190: .then(res => res.json()) *)
| P_resJson.           (* line 190: res.json() *)

#[global] Instance PromiseId_eq_dec : EqDecision PromiseId.
Proof. solve_decision. Defined.

Definition all_promises : list PromiseId :=
  [ P_promise; P_timeout; P_session; P_isTrustedViewer; P_isTrustedReferrer;
    P_trustAll; P_trustThen; P_joinAll; P_joinThen; P_doNotTrack;
    P_replaceNoParam; P_replaceLegacy; P_getReplaceUrl; P_replaceAsync;
    P_clickNoParam; P_clickInvalid; P_firstVisible; P_invoked; P_clickUrl;
    P_fetchJson; P_invoke; P_resJson ].

Inductive Settled : Type :=
| Fulfilled (v : JsVal)
| Rejected (e : JsVal).

Definition settled_value (o : Settled) : JsVal :=
  match o with Fulfilled v => v | Rejected e => e end.

(** The callbacks of the module, and the resolving functions the runtime
    passes around, as first-order data. *)
Inductive Handler : Type :=
| H_undefined                                   (* no callback given *)
| H_catchWarn                                   (* lines 61-63 *)
| H_trustResults                                (* lines 71-87 *)
| H_joinResolve                                 (* lines 84-86, first callback *)
| H_joinSwallow                                 (* line 86: () => {} *)
| H_replaceResponse                             (* lines 127-133 *)
| H_replaceError                                (* lines 133-135 *)
| H_visibleInvoke (clickUrl : JsVal)            (* lines 169-171 *)
| H_applyResponse                               (* lines 171-173 *)
| H_resJson                                     (* line 190 *)
| H_resolveElement (all : PromiseId) (index : nat) (* Promise.all, per element *)
| H_resolve (p : PromiseId)                     (* the resolve function of p *)
| H_reject (p : PromiseId).                     (* the reject function of p *)

(** A reaction registered by [then]: the two callbacks and the promise
    [then] returns ([None] where the runtime discards it). *)
Record Reaction : Type := mkReaction {
  onFulfilled : Handler;
  onRejected : Handler;
  derived : option PromiseId
}.

Record Cell : Type := mkCell {
  result : option Settled;          (* None: pending *)
  reactions : list Reaction
}.

Inductive Job : Type :=
| JobReaction (r : Reaction) (o : Settled)
| JobResolveThenable (p : PromiseId) (thenable : PromiseId).

(** The bookkeeping of one [Promise.all]: the values collected so far, the
    per-element [alreadyCalled] flags and the count of elements still
    awaited. *)
Record AllRecord : Type := mkAll {
  all_values : list JsVal;
  all_called : list bool;
  all_remaining : nat
}.

(** ** The environment *)

Inductive ExtEvent : Type :=
| IsTrustedViewerSettles (o : Settled)
| IsTrustedReferrerSettles (o : Settled)
| GetReplaceUrlSettles (o : Settled)
| FirstVisible
| FetchJsonSettles (o : Settled)
| ResJsonSettles (o : Settled)
| TimerFires.

Inductive Event : Type :=
| EvDevWarn (tag : string) (args : list JsVal)
| EvUserWarn (tag : string) (args : list JsVal)
| EvViewerReplaceUrl (url : JsVal)
| EvSendMessageAwaitResponse (name : string) (data : JsVal)
| EvSetLocationHash (value : string)
| EvWhenFirstVisible
| EvFetchJson (url : string) (credentials : string)
              (requireAmpResponseSourceOrigin : bool)
| EvResJson
| EvImageSrc (url : JsVal)
| EvHistoryReplaceState (data : JsVal) (title : string) (url : string)
| EvExternal (e : ExtEvent).

Record ParsedUrl : Type := mkParsedUrl {
  url_origin : string;
  url_search : string
}.

(** What the module reads from its collaborators.  The functions of
    [./url] are not part of this file and are taken as parameters. *)
Record Env : Type := mkEnv {
  viewer_params : gmap string string;          (* viewer.getParam *)
  viewer_capabilities : gset string;           (* viewer.hasCapability *)
  experiments : gset string;                   (* isExperimentOn(win, id) *)
  mode_localDev : bool;                        (* getMode().localDev *)
  mode_test : bool;                            (* getMode().test *)
  history_replaceState : bool;                 (* win.history.replaceState is there *)
  isProxyOrigin : JsVal -> bool;
  parseUrl : JsVal -> ParsedUrl;
  parseQueryString : string -> list (string * string);
  addParamsToUrl : string -> list (string * string) -> string;
  initial_url : string;                        (* location without its fragment *)
  initial_hash : string                        (* win.location.hash *)
}.

Record State : Type := mkState {
  cells : PromiseId -> Cell;
  alls : PromiseId -> AllRecord;
  queue : list Job;
  trace : list Event;
  timer : option (Z * string);
  outstanding : list PromiseId;
  location_url : string;
  location_hash : string;
  history_current : string;
  history_older : list string;
  trackImpressionPromise : option PromiseId;   (* line 30: let ... = null *)
  replaceUrlPromise : option PromiseId;        (* line 81 *)
  clickUrlPromise : option PromiseId           (* line 82 *)
}.

Definition location_href (s : State) : string :=
  location_url s ++ location_hash s.

Definition history_length (s : State) : nat := S (length (history_older s)).

Definition state_of (s : State) (p : PromiseId) : option Settled :=
  result (cells s p).

Definition empty_cell : Cell := mkCell None [].

(** The state when the module has just been loaded. *)
Definition init (env : Env) : State :=
  {| cells := fun _ => empty_cell;
     alls := fun _ => mkAll [] [] 0;
     queue := [];
     trace := [];
     timer := None;
     outstanding := [];
     location_url := initial_url env;
     location_hash := initial_hash env;
     history_current := initial_url env ++ initial_hash env;
     history_older := [];
     trackImpressionPromise := None;
     replaceUrlPromise := None;
     clickUrlPromise := None |}.

(** ** State updates *)

Definition with_cells (f : PromiseId -> Cell) (s : State) : State :=
  mkState f (alls s) (queue s) (trace s) (timer s) (outstanding s)
          (location_url s) (location_hash s) (history_current s)
          (history_older s) (trackImpressionPromise s)
          (replaceUrlPromise s) (clickUrlPromise s).

Definition with_alls (f : PromiseId -> AllRecord) (s : State) : State :=
  mkState (cells s) f (queue s) (trace s) (timer s) (outstanding s)
          (location_url s) (location_hash s) (history_current s)
          (history_older s) (trackImpressionPromise s)
          (replaceUrlPromise s) (clickUrlPromise s).

Definition with_queue (q : list Job) (s : State) : State :=
  mkState (cells s) (alls s) q (trace s) (timer s) (outstanding s)
          (location_url s) (location_hash s) (history_current s)
          (history_older s) (trackImpressionPromise s)
          (replaceUrlPromise s) (clickUrlPromise s).

Definition with_trace (t : list Event) (s : State) : State :=
  mkState (cells s) (alls s) (queue s) t (timer s) (outstanding s)
          (location_url s) (location_hash s) (history_current s)
          (history_older s) (trackImpressionPromise s)
          (replaceUrlPromise s) (clickUrlPromise s).

Definition with_timer (t : option (Z * string)) (s : State) : State :=
  mkState (cells s) (alls s) (queue s) (trace s) t (outstanding s)
          (location_url s) (location_hash s) (history_current s)
          (history_older s) (trackImpressionPromise s)
          (replaceUrlPromise s) (clickUrlPromise s).

Definition with_outstanding (l : list PromiseId) (s : State) : State :=
  mkState (cells s) (alls s) (queue s) (trace s) (timer s) l
          (location_url s) (location_hash s) (history_current s)
          (history_older s) (trackImpressionPromise s)
          (replaceUrlPromise s) (clickUrlPromise s).

Definition with_location_hash (h : string) (s : State) : State :=
  mkState (cells s) (alls s) (queue s) (trace s) (timer s) (outstanding s)
          (location_url s) h (history_current s)
          (history_older s) (trackImpressionPromise s)
          (replaceUrlPromise s) (clickUrlPromise s).

Definition with_history_current (u : string) (s : State) : State :=
  mkState (cells s) (alls s) (queue s) (trace s) (timer s) (outstanding s)
          (location_url s) (location_hash s) u
          (history_older s) (trackImpressionPromise s)
          (replaceUrlPromise s) (clickUrlPromise s).

Definition with_trackImpressionPromise (p : option PromiseId) (s : State) : State :=
  mkState (cells s) (alls s) (queue s) (trace s) (timer s) (outstanding s)
          (location_url s) (location_hash s) (history_current s)
          (history_older s) p
          (replaceUrlPromise s) (clickUrlPromise s).

Definition with_replaceUrlPromise (p : option PromiseId) (s : State) : State :=
  mkState (cells s) (alls s) (queue s) (trace s) (timer s) (outstanding s)
          (location_url s) (location_hash s) (history_current s)
          (history_older s) (trackImpressionPromise s)
          p (clickUrlPromise s).

Definition with_clickUrlPromise (p : option PromiseId) (s : State) : State :=
  mkState (cells s) (alls s) (queue s) (trace s) (timer s) (outstanding s)
          (location_url s) (location_hash s) (history_current s)
          (history_older s) (trackImpressionPromise s)
          (replaceUrlPromise s) p.

Definition upd {A : Type} (f : PromiseId -> A) (p : PromiseId) (a : A)
  : PromiseId -> A :=
  fun q => if decide (q = p) then a else f q.

Definition log (e : Event) (s : State) : State :=
  with_trace (trace s ++ [e]) s.

Definition enqueue (jobs : list Job) (s : State) : State :=
  with_queue (queue s ++ jobs) s.

(** ** The promise runtime *)

(** Settling a pending promise records the outcome and schedules one
    microtask per registered reaction, in registration order; settling a
    settled promise does nothing. *)
Definition settle (p : PromiseId) (o : Settled) (s : State) : State :=
  match result (cells s p) with
  | Some _ => s
  | None =>
      enqueue (map (fun r => JobReaction r o) (reactions (cells s p)))
              (with_cells (upd (cells s) p (mkCell (Some o) [])) s)
  end.

(** [p.then(...)] with reaction [r]: registered while [p] is pending,
    scheduled at once when [p] is settled. *)
Definition subscribe (p : PromiseId) (r : Reaction) (s : State) : State :=
  match result (cells s p) with
  | Some o => enqueue [JobReaction r o] s
  | None =>
      with_cells (upd (cells s) p (mkCell None (reactions (cells s p) ++ [r]))) s
  end.

(** The per-element resolve function of [Promise.all]. *)
Definition resolveElement (a : PromiseId) (i : nat) (v : JsVal) (s : State)
  : State :=
  if nth i (all_called (alls s a)) true then s
  else
    let values := <[i := v]> (all_values (alls s a)) in
    let called := <[i := true]> (all_called (alls s a)) in
    let remaining := pred (all_remaining (alls s a)) in
    let s1 := with_alls (upd (alls s) a (mkAll values called remaining)) s in
    if Nat.eqb remaining 0 then settle a (Fulfilled (JArr values)) s1 else s1.

(** [Promise.all(elements)], creating promise [a]. *)
Fixpoint all_subscribe (a : PromiseId) (i : nat) (elements : list PromiseId)
         (s : State) : State :=
  match elements with
  | [] => s
  | e :: rest =>
      all_subscribe a (S i) rest
        (subscribe e (mkReaction (H_resolveElement a i) (H_reject a) None) s)
  end.

Definition promise_all (a : PromiseId) (elements : list PromiseId) (s : State)
  : State :=
  let n := length elements in
  let s1 := with_alls (upd (alls s) a
                         (mkAll (replicate n JUndefined) (replicate n false) n))
                      s in
  if Nat.eqb n 0 then settle a (Fulfilled (JArr [])) s1
  else all_subscribe a 0 elements s1.

(** ** The monad of the module's functions *)

Definition M (A : Type) : Type := State -> Result A * State.

Definition ret {A : Type} (a : A) : M A := fun s => (Ok a, s).

Definition bind {A B : Type} (m : M A) (k : A -> M B) : M B :=
  fun s =>
    match m s with
    | (Ok a, s') => k a s'
    | (Throw e, s') => (Throw e, s')
    end.

Definition lift {A : Type} (r : Result A) : M A := fun s => (r, s).

Definition effect (f : State -> State) : M unit := fun s => (Ok tt, f s).

Definition get {A : Type} (f : State -> A) : M A := fun s => (Ok (f s), s).

Declare Scope js_scope.
Delimit Scope js_scope with js.
Notation "'let*' x ':=' m 'in' k" := (bind m (fun x => k))
  (at level 10, x name, m at level 100, k at level 200) : js_scope.
Notation "m ;; k" := (bind m (fun _ => k))
  (at level 100, k at level 200, right associativity) : js_scope.
Local Open Scope js_scope.

(** What a callback hands back to the runtime. *)
Inductive JsRet : Type :=
| RVal (v : JsVal)
| RPromise (p : PromiseId).

Definition then_ (p : PromiseId) (onF onR : Handler) (d : PromiseId)
  : M PromiseId :=
  effect (subscribe p (mkReaction onF onR (Some d))) ;; ret d.

Definition Promise_resolve (p : PromiseId) (v : JsVal) : M PromiseId :=
  effect (settle p (Fulfilled v)) ;; ret p.

Definition Promise_all (a : PromiseId) (elements : list PromiseId)
  : M PromiseId :=
  effect (promise_all a elements) ;; ret a.

(** ** The module *)

Section Impression.

Context (env : Env).

Definition TIMEOUT_VALUE : Z := 8000.

(** *** Collaborators *)

Definition getParam (name : string) : JsVal :=       (* viewer.getParam *)
  match viewer_params env !! name with
  | Some v => JStr v
  | None => JUndefined
  end.

Definition hasCapability (name : string) : bool :=   (* viewer.hasCapability *)
  bool_decide (name ∈ viewer_capabilities env).

Definition isExperimentOn (id : string) : bool :=
  bool_decide (id ∈ experiments env).

Definition request (p : PromiseId) : M PromiseId :=
  effect (fun s => with_outstanding (p :: outstanding s) s) ;; ret p.

Definition dev_warn (tag : string) (args : list JsVal) : M unit :=
  effect (log (EvDevWarn tag args)).

Definition user_warn (tag : string) (args : list JsVal) : M unit :=
  effect (log (EvUserWarn tag args)).

(** [dev().assert(v)]: throws unless [v] is truthy, returns [v]. *)
Definition dev_assert (v : option PromiseId) : M PromiseId :=
  match v with
  | Some p => ret p
  | None => lift (Throw (JError "Assertion failed"))
  end.

(** [dev().assertString(v)] *)
Definition dev_assertString (v : JsVal) : M string :=
  match v with
  | JStr s => ret s
  | _ => lift (Throw (JError "String expected"))
  end.

(** [v.indexOf(needle)] where [v] comes from [getParam]. *)
Definition js_indexOf (v : JsVal) (needle : string) : M Z :=
  match v with
  | JStr s => ret (indexOf s needle)
  | _ => lift (Throw (JError "TypeError"))
  end.

Definition viewer_isTrustedViewer : M PromiseId := request P_isTrustedViewer.

Definition viewer_isTrustedReferrer : M PromiseId := request P_isTrustedReferrer.

Definition viewer_replaceUrl (url : JsVal) : M unit :=
  effect (log (EvViewerReplaceUrl url)).

Definition viewer_sendMessageAwaitResponse (name : string) (data : JsVal)
  : M PromiseId :=
  effect (log (EvSendMessageAwaitResponse name data)) ;;
  request P_getReplaceUrl.

Definition viewer_whenFirstVisible : M PromiseId :=
  effect (log EvWhenFirstVisible) ;; ret P_firstVisible.

Definition xhr_fetchJson (url : string) (credentials : string)
           (requireAmpResponseSourceOrigin : bool) : M PromiseId :=
  effect (log (EvFetchJson url credentials requireAmpResponseSourceOrigin)) ;;
  request P_fetchJson.

Definition res_json (res : JsVal) : M PromiseId :=
  effect (log EvResJson) ;; request P_resJson.

Definition set_location_hash (value : string) : M unit :=
  effect (fun s => log (EvSetLocationHash value) (with_location_hash value s)).

Definition history_replaceState_call (data : JsVal) (title url : string)
  : M unit :=
  effect (fun s => log (EvHistoryReplaceState data title url)
                       (with_history_current url s)).

Definition new_Image_src (url : JsVal) : M unit :=
  effect (log (EvImageSrc url)).

(** Modelled from the spec: the timer service's [timeoutPromise] is not part
    of this file.  It returns a promise that settles as [racePromise] does,
    unless the delay elapses first, in which case it rejects with the
    message. *)
Definition timeoutPromise (delay : Z) (racePromise : PromiseId)
           (message : string) : M PromiseId :=
  effect (with_timer (Some (delay, message))) ;;
  effect (subscribe racePromise
            (mkReaction (H_resolve P_timeout) (H_reject P_timeout) None)) ;;
  ret P_timeout.

(** *** Lines 30-46 *)

Definition getTrackImpressionPromise : M PromiseId :=
  let* p := get trackImpressionPromise in
  dev_assert p.

Definition resetTrackImpressionPromiseForTesting : M unit :=
  effect (with_trackImpressionPromise None).

(** *** Lines 93-95 *)

Definition doNotTrackImpression : M unit :=
  let* p := Promise_resolve P_doNotTrack JUndefined in
  effect (with_trackImpressionPromise (Some p)).

(** *** Lines 108-136 *)

Definition handleReplaceUrl : M PromiseId :=
  if negb (truthy (getParam "replaceUrl")) then
    Promise_resolve P_replaceNoParam JUndefined
  else if negb (hasCapability "replaceUrl") then
    viewer_replaceUrl (js_or (getParam "replaceUrl") JNull) ;;
    Promise_resolve P_replaceLegacy JUndefined
  else
    let* m := viewer_sendMessageAwaitResponse "getReplaceUrl" JUndefined in
    then_ m H_replaceResponse H_replaceError P_replaceAsync.

Definition replaceResponse (response : JsVal) : M JsRet :=
  if negb (truthy response) || negb (typeof_object response) then
    dev_warn "IMPRESSION" [JStr "get invalid replaceUrl response"] ;;
    ret (RVal JUndefined)
  else
    let* u := lift (js_get response "replaceUrl") in
    viewer_replaceUrl (js_or u JNull) ;;
    ret (RVal JUndefined).

Definition replaceError (err : JsVal) : M JsRet :=
  dev_warn "IMPRESSION" [JStr "Error request replaceUrl from viewer"; err] ;;
  ret (RVal JUndefined).

(** *** Lines 145-174 *)

Definition handleClickUrl : M PromiseId :=
  let clickUrl := getParam "click" in
  if negb (truthy clickUrl) then
    Promise_resolve P_clickNoParam JUndefined
  else
    let* i := js_indexOf clickUrl "https://" in
    if negb (Z.eqb i 0) then
      user_warn "IMPRESSION"
        [JStr "click fragment param should start with https://. Found ";
         clickUrl] ;;
      Promise_resolve P_clickInvalid JUndefined
    else
      let* hash := get location_hash in
      (if truthy (JStr hash) then set_location_hash "" else ret tt) ;;
      let* v := viewer_whenFirstVisible in
      let* p := then_ v (H_visibleInvoke clickUrl) H_undefined P_invoked in
      then_ p H_applyResponse H_undefined P_clickUrl.

(** *** Lines 182-191 *)

Definition invoke (clickUrl : string) : M PromiseId :=
  let clickUrl :=
    if mode_localDev env && negb (mode_test env)
    then "http://localhost:8000/impression-proxy?url=" ++ clickUrl
    else clickUrl in
  let* f := xhr_fetchJson clickUrl "include" false in
  then_ f H_resJson H_undefined P_invoke.

Definition visibleInvoke (clickUrl : JsVal) : M JsRet :=
  let* u := dev_assertString clickUrl in
  let* p := invoke u in
  ret (RPromise p).

Definition resJson (res : JsVal) : M JsRet :=
  let* p := res_json res in
  ret (RPromise p).

(** *** Lines 199-224 *)

Definition applyResponse (response : JsVal) : M unit :=
  let* adLocation := lift (js_get response "location") in
  let* adTracking := lift (js_get response "tracking_url") in
  let trackUrl := js_or adTracking adLocation in
  (if truthy trackUrl && negb (isProxyOrigin env trackUrl)
   then new_Image_src trackUrl
   else ret tt) ;;
  if truthy adLocation then
    if negb (history_replaceState env) then ret tt
    else
      let* currentHref := get location_href in
      let url := parseUrl env adLocation in
      let params := parseQueryString env (url_search url) in
      let newHref := addParamsToUrl env currentHref params in
      history_replaceState_call JNull "" newHref
  else ret tt.

(** *** Lines 53-88 *)

Definition resolveImpression (v : JsVal) : M unit :=
  effect (settle P_promise (Fulfilled v)).

Definition maybeTrackImpression : M unit :=
  let promise := P_promise in
  let* t := timeoutPromise TIMEOUT_VALUE promise
                           "TrackImpressionPromise timeout" in
  let* p := then_ t H_undefined H_catchWarn P_session in
  effect (with_trackImpressionPromise (Some p)) ;;
  let* isTrustedViewerPromise := viewer_isTrustedViewer in
  let* isTrustedReferrerPromise := viewer_isTrustedReferrer in
  let* a := Promise_all P_trustAll
              [isTrustedViewerPromise; isTrustedReferrerPromise] in
  then_ a H_trustResults H_undefined P_trustThen ;;
  ret tt.

Definition trustResults (results : JsVal) : M JsRet :=
  let* isTrustedViewer := lift (js_index results 0) in
  let* isTrustedReferrer := lift (js_index results 1) in
  if negb (truthy isTrustedViewer) && negb (truthy isTrustedReferrer)
     && negb (isExperimentOn "alp")
  then
    resolveImpression JUndefined ;;
    ret (RVal JUndefined)
  else
    let* replaceUrlPromise := handleReplaceUrl in
    effect (with_replaceUrlPromise (Some replaceUrlPromise)) ;;
    let* clickUrlPromise := handleClickUrl in
    effect (with_clickUrlPromise (Some clickUrlPromise)) ;;
    let* j := Promise_all P_joinAll [replaceUrlPromise; clickUrlPromise] in
    then_ j H_joinResolve H_joinSwallow P_joinThen ;;
    ret (RVal JUndefined).

Definition catchWarn (error : JsVal) : M JsRet :=
  dev_warn "IMPRESSION" [error] ;;
  ret (RVal JUndefined).

Definition joinResolve (_ : JsVal) : M JsRet :=
  resolveImpression JUndefined ;;
  ret (RVal JUndefined).

(** *** Running callbacks and microtasks *)

Definition call (h : Handler) (arg : JsVal) : M JsRet :=
  match h with
  | H_undefined => ret (RVal arg)
  | H_catchWarn => catchWarn arg
  | H_trustResults => trustResults arg
  | H_joinResolve => joinResolve arg
  | H_joinSwallow => ret (RVal JUndefined)
  | H_replaceResponse => replaceResponse arg
  | H_replaceError => replaceError arg
  | H_visibleInvoke clickUrl => visibleInvoke clickUrl
  | H_applyResponse => applyResponse arg ;; ret (RVal JUndefined)
  | H_resJson => resJson arg
  | H_resolveElement a i =>
      effect (resolveElement a i arg) ;; ret (RVal JUndefined)
  | H_resolve p => effect (settle p (Fulfilled arg)) ;; ret (RVal JUndefined)
  | H_reject p => effect (settle p (Rejected arg)) ;; ret (RVal JUndefined)
  end.

Definition settle_derived (d : option PromiseId) (o : Settled) (s : State)
  : State :=
  match d with
  | Some p => settle p o s
  | None => s
  end.

Definition selected (r : Reaction) (o : Settled) : Handler :=
  match o with
  | Fulfilled _ => onFulfilled r
  | Rejected _ => onRejected r
  end.

Definition run_job (j : Job) (s : State) : State :=
  match j with
  | JobReaction r o =>
      match selected r o with
      | H_undefined => settle_derived (derived r) o s
      | h =>
          match call h (settled_value o) s with
          | (Ok (RVal v), s') => settle_derived (derived r) (Fulfilled v) s'
          | (Ok (RPromise q), s') =>
              match derived r with
              | Some p => enqueue [JobResolveThenable p q] s'
              | None => s'
              end
          | (Throw e, s') => settle_derived (derived r) (Rejected e) s'
          end
      end
  | JobResolveThenable p q =>
      subscribe q (mkReaction (H_resolve p) (H_reject p) None) s
  end.

(** *** Counting reactions and jobs

    [census w t] adds up the weight [w] of every registered reaction and of
    every scheduled reaction job, and [t] for every scheduled
    thenable-resolution job. *)

Definition sum_weights {A : Type} (w : A -> nat) (l : list A) : nat :=
  foldr (fun a n => w a + n) 0 l.

Definition job_census (w : Reaction -> nat) (t : nat) (j : Job) : nat :=
  match j with
  | JobReaction r _ => w r
  | JobResolveThenable _ _ => t
  end.

Definition cell_census (w : Reaction -> nat) (c : Cell) : nat :=
  sum_weights w (reactions c).

Definition cells_census (w : Reaction -> nat) (f : PromiseId -> Cell) : nat :=
  sum_weights (fun p => cell_census w (f p)) all_promises.

Definition census (w : Reaction -> nat) (t : nat) (s : State) : nat :=
  sum_weights (job_census w t) (queue s) + cells_census w (cells s).

(** *** Termination measure of the microtask queue

    A callback is charged for the reactions and jobs it may add; a reaction
    or job weighs one more than what running it may add. *)

Definition handler_weight (h : Handler) : nat :=
  match h with
  | H_trustResults => 11
  | H_visibleInvoke _ => 5
  | H_resJson => 2
  | _ => 0
  end.

Definition reaction_weight (r : Reaction) : nat :=
  S (Nat.max (handler_weight (onFulfilled r)) (handler_weight (onRejected r))).

Definition measure (s : State) : nat := census reaction_weight 2 s.

Definition microstep (s : State) : State :=
  match queue s with
  | [] => s
  | j :: rest => run_job j (with_queue rest s)
  end.

Fixpoint drain (fuel : nat) (s : State) : State :=
  match fuel with
  | O => s
  | S n => drain n (microstep s)
  end.

(** The microtask queue is run until it is empty. *)
Definition run_microtasks (s : State) : State := drain (measure s) s.

(** *** External signals *)

Definition is_pending (s : State) (p : PromiseId) : bool :=
  match result (cells s p) with
  | None => true
  | Some _ => false
  end.

(** An answer is delivered to a promise the module has asked for and that
    is still pending; otherwise there is nothing to deliver. *)
Definition answer (e : ExtEvent) (p : PromiseId) (o : Settled) (s : State)
  : State :=
  if bool_decide (p ∈ outstanding s) && is_pending s p
  then settle p o (log (EvExternal e) s)
  else s.

Definition deliver (e : ExtEvent) (s : State) : State :=
  match e with
  | IsTrustedViewerSettles o => answer e P_isTrustedViewer o s
  | IsTrustedReferrerSettles o => answer e P_isTrustedReferrer o s
  | GetReplaceUrlSettles o => answer e P_getReplaceUrl o s
  | FetchJsonSettles o => answer e P_fetchJson o s
  | ResJsonSettles o => answer e P_resJson o s
  | FirstVisible =>
      if is_pending s P_firstVisible
      then settle P_firstVisible (Fulfilled JUndefined) (log (EvExternal e) s)
      else s
  | TimerFires =>
      match timer s with
      | Some (_, message) =>
          settle P_timeout (Rejected (JError message))
                 (log (EvExternal e) (with_timer None s))
      | None => s
      end
  end.

(** One turn of the event loop: a signal, then all microtasks. *)
Definition step (s : State) (e : ExtEvent) : State :=
  run_microtasks (deliver e s).

(** [maybeTrackImpression(win)] on a freshly loaded module: the state when
    the call returns, and the state once its microtasks have run. *)
Definition started : State := snd (maybeTrackImpression (init env)).

Definition boot : State := run_microtasks started.

Definition run (schedule : list ExtEvent) : State :=
  foldl step boot schedule.

End Impression.

(** * Specification vocabulary *)

Local Open Scope list_scope.

(** [s] begins with the literal prefix [p]. *)
Definition begins_with (p s : string) : Prop := exists rest, s = (p ++ rest)%string.

(** What the value a callback returns costs the termination measure: a
    returned promise schedules one more job. *)
Definition return_cost (r : Result JsRet) : nat :=
  match r with
  | Ok (RPromise _) => 2
  | _ => 0
  end.

(** The reactions the module registers. *)
Definition r_race : Reaction :=
  mkReaction (H_resolve P_timeout) (H_reject P_timeout) None.
Definition r_catch : Reaction :=
  mkReaction H_undefined H_catchWarn (Some P_session).
Definition r_element (a : PromiseId) (i : nat) : Reaction :=
  mkReaction (H_resolveElement a i) (H_reject a) None.
Definition r_trust : Reaction :=
  mkReaction H_trustResults H_undefined (Some P_trustThen).
Definition r_join : Reaction :=
  mkReaction H_joinResolve H_joinSwallow (Some P_joinThen).
Definition r_replace : Reaction :=
  mkReaction H_replaceResponse H_replaceError (Some P_replaceAsync).
Definition r_visible (clickUrl : JsVal) : Reaction :=
  mkReaction (H_visibleInvoke clickUrl) H_undefined (Some P_invoked).
Definition r_apply : Reaction :=
  mkReaction H_applyResponse H_undefined (Some P_clickUrl).
Definition r_resJson : Reaction :=
  mkReaction H_resJson H_undefined (Some P_invoke).
Definition r_adopt (p : PromiseId) : Reaction :=
  mkReaction (H_resolve p) (H_reject p) None.

Definition is_fulfilled (o : option Settled) : Prop :=
  exists v, o = Some (Fulfilled v).

Definition is_rejected (o : option Settled) : Prop :=
  exists e, o = Some (Rejected e).

(** A response the replace-URL callback accepts (line 128). *)
Definition well_formed_response (response : JsVal) : bool :=
  truthy response && typeof_object response.

(** [response[key]] for a response reading which does not throw. *)
Definition js_field (response : JsVal) (key : string) : JsVal :=
  match js_get response key with
  | Ok v => v
  | Throw _ => JUndefined
  end.

(** What the callbacks of line 127-135 log for an answer. *)
Definition replace_outcome_event (o : Settled) : Event :=
  match o with
  | Fulfilled response =>
      if well_formed_response response
      then EvViewerReplaceUrl (js_or (js_field response "replaceUrl") JNull)
      else EvDevWarn "IMPRESSION" [JStr "get invalid replaceUrl response"]
  | Rejected err =>
      EvDevWarn "IMPRESSION" [JStr "Error request replaceUrl from viewer"; err]
  end.

(** The warning of lines 155-157. *)
Definition click_warning (clickUrl : string) : Event :=
  EvUserWarn "IMPRESSION"
    [JStr "click fragment param should start with https://. Found ";
     JStr clickUrl].

(** Lines 205, 219-221: the tracked URL and the rewritten location. *)
Definition trackUrl_of (response : JsVal) : JsVal :=
  js_or (js_field response "tracking_url") (js_field response "location").

Definition newHref_of (env : Env) (s : State) (response : JsVal) : string :=
  addParamsToUrl env (location_href s)
    (parseQueryString env
       (url_search (parseUrl env (js_field response "location")))).

Definition beacon_events (env : Env) (response : JsVal) : list Event :=
  if truthy (trackUrl_of response)
     && negb (isProxyOrigin env (trackUrl_of response))
  then [EvImageSrc (trackUrl_of response)]
  else [].

Definition rewrites_history (env : Env) (response : JsVal) : bool :=
  truthy (js_field response "location") && history_replaceState env.

(** Environments used as concrete inputs. *)
Definition no_url_functions (params : gmap string string)
           (capabilities : gset string) : Env :=
  mkEnv params capabilities ∅ false false true
        (fun _ => false) (fun _ => mkParsedUrl "" "")
        (fun _ => []) (fun u _ => u) "https://doc.example/a" "".

Definition env_empty_click : Env := no_url_functions {[ "click" := "" ]} ∅.

Definition env_legacy : Env :=
  no_url_functions {[ "replaceUrl" := "http://x" ]} ∅.

Definition env_async : Env :=
  no_url_functions {[ "replaceUrl" := "http://x" ]} {[ "replaceUrl" ]}.

Definition env_ftp_click : Env :=
  no_url_functions {[ "click" := "ftp://evil" ]} ∅.

Definition env_no_history : Env :=
  mkEnv ∅ ∅ ∅ false false false
        (fun _ => false) (fun _ => mkParsedUrl "https://x" "?a=1")
        (fun _ => [("a", "1")]) (fun u _ => (u ++ "?a=1")%string)
        "https://doc.example/a" "".

Definition sample_response : JsVal :=
  JObj [("location", JStr "https://x/?a=1");
        ("tracking_url", JStr "https://track.example")].

(** ** Monotonicity of the runtime

    [extends s s']: what has happened in [s] has happened in [s'].  Settled
    promises stay as they are, a registered reaction stays registered until
    its promise settles and is then scheduled, and the queue, the trace and
    the outstanding requests only grow. *)
Record extends (s s' : State) : Prop := mkExtends {
  ext_result : forall q o,
    result (cells s q) = Some o -> result (cells s' q) = Some o;
  ext_reactions : forall q r,
    result (cells s q) = None -> r ∈ reactions (cells s q) ->
    (result (cells s' q) = None /\ r ∈ reactions (cells s' q))
    \/ (exists o, result (cells s' q) = Some o /\ JobReaction r o ∈ queue s');
  ext_queue : exists added, queue s' = queue s ++ added;
  ext_trace : exists added, trace s' = trace s ++ added;
  ext_outstanding : forall p, p ∈ outstanding s -> p ∈ outstanding s'
}.

(** ** The shape of reachable states *)

(** Which promise [handleReplaceUrl] and [handleClickUrl] return is decided
    by the viewer's parameters and capabilities alone. *)
Definition replace_promise (env : Env) : PromiseId :=
  if negb (truthy (getParam env "replaceUrl")) then P_replaceNoParam
  else if negb (hasCapability env "replaceUrl") then P_replaceLegacy
  else P_replaceAsync.

Definition click_index (env : Env) : Z :=
  match getParam env "click" with
  | JStr c => indexOf c "https://"
  | _ => (-1)%Z
  end.

Definition click_promise (env : Env) : PromiseId :=
  if negb (truthy (getParam env "click")) then P_clickNoParam
  else if negb (Z.eqb (click_index env) 0) then P_clickInvalid
  else P_clickUrl.

(** The reactions the module may register, each with the promise it is
    registered on. *)
Inductive edge (env : Env) : PromiseId -> Reaction -> Prop :=
| edge_race : edge env P_promise r_race
| edge_catch : edge env P_timeout r_catch
| edge_trust0 : edge env P_isTrustedViewer (r_element P_trustAll 0)
| edge_trust1 : edge env P_isTrustedReferrer (r_element P_trustAll 1)
| edge_trust : edge env P_trustAll r_trust
| edge_join0 : edge env (replace_promise env) (r_element P_joinAll 0)
| edge_join1 : edge env (click_promise env) (r_element P_joinAll 1)
| edge_join : edge env P_joinAll r_join
| edge_replace :
    replace_promise env = P_replaceAsync ->
    edge env P_getReplaceUrl r_replace
| edge_visible :
    click_promise env = P_clickUrl ->
    edge env P_firstVisible (r_visible (getParam env "click"))
| edge_apply :
    click_promise env = P_clickUrl -> edge env P_invoked r_apply
| edge_resJson :
    click_promise env = P_clickUrl -> edge env P_fetchJson r_resJson
| edge_adopt_invoked :
    click_promise env = P_clickUrl -> edge env P_invoke (r_adopt P_invoked)
| edge_adopt_invoke :
    click_promise env = P_clickUrl -> edge env P_resJson (r_adopt P_invoke).

Definition job_ok (env : Env) (s : State) (j : Job) : Prop :=
  match j with
  | JobReaction r o => exists p, edge env p r /\ result (cells s p) = Some o
  | JobResolveThenable p q =>
      click_promise env = P_clickUrl
      /\ ((p = P_invoked /\ q = P_invoke) \/ (p = P_invoke /\ q = P_resJson))
  end.

(** Every registered reaction is one of the module's, on a pending promise;
    every scheduled job carries the outcome of the promise it reacts to. *)
Record WF (env : Env) (s : State) : Prop := mkWF {
  wf_reactions : forall p r,
    r ∈ reactions (cells s p) -> edge env p r /\ result (cells s p) = None;
  wf_queue : forall j, j ∈ queue s -> job_ok env s j
}.

(** ** Who may settle what *)

(** The promises a callback may settle while it runs. *)
Definition settles_of (h : Handler) : list PromiseId :=
  match h with
  | H_trustResults =>
      [P_promise; P_replaceNoParam; P_replaceLegacy; P_clickNoParam;
       P_clickInvalid]
  | H_joinResolve => [P_promise]
  | H_resolveElement a _ => [a]
  | H_resolve p => [p]
  | H_reject p => [p]
  | _ => []
  end.

(** The promises running a job may settle. *)
Definition job_settles (j : Job) : list PromiseId :=
  match j with
  | JobReaction r o =>
      match derived r with
      | Some d => d :: settles_of (selected r o)
      | None => settles_of (selected r o)
      end
  | JobResolveThenable _ _ => []
  end.

(** The promises a signal may settle. *)
Definition signal_settles (e : ExtEvent) : PromiseId :=
  match e with
  | IsTrustedViewerSettles _ => P_isTrustedViewer
  | IsTrustedReferrerSettles _ => P_isTrustedReferrer
  | GetReplaceUrlSettles _ => P_getReplaceUrl
  | FirstVisible => P_firstVisible
  | FetchJsonSettles _ => P_fetchJson
  | ResJsonSettles _ => P_resJson
  | TimerFires => P_timeout
  end.

(** ** Progress of a registered reaction

    Reaction [r] on promise [p]: while [p] is pending the reaction is
    registered; once [p] is settled its job is scheduled, or has run and
    left [Done]. *)
Definition progress (p : PromiseId) (r : Reaction)
           (Done : Settled -> State -> Prop) (s : State) : Prop :=
  match result (cells s p) with
  | None => r ∈ reactions (cells s p)
  | Some o => JobReaction r o ∈ queue s \/ Done o s
  end.

(** ** Relational reasoning on the monad

    [mrel R m]: running [m] takes every state to an [R]-related one,
    whatever it returns. *)
Definition mrel {A : Type} (R : State -> State -> Prop) (m : M A) : Prop :=
  forall s, R s (snd (m s)).

(** The relations used as frames. *)
Definition same_result (q : PromiseId) (s s' : State) : Prop :=
  result (cells s' q) = result (cells s q).

Definition same_timer (s s' : State) : Prop := timer s' = timer s.

Definition same_handle (s s' : State) : Prop :=
  trackImpressionPromise s' = trackImpressionPromise s.

(** ** The session promise *)

Definition session_settled (_ : Settled) (s : State) : Prop :=
  result (cells s P_session) <> None.

(** What holds of the session promise in every reachable state: the module
    variable holds it, it is pending or fulfilled, the timer is armed while
    the timeout promise is pending, and the [catch] reaction follows the
    timeout promise. *)
Record SessionInv (env : Env) (s : State) : Prop := mkSessionInv {
  si_wf : WF env s;
  si_handle : trackImpressionPromise s = Some P_session;
  si_timer : result (cells s P_timeout) = None -> timer s <> None;
  si_fulfilled : forall o,
    result (cells s P_session) = Some o -> exists v, o = Fulfilled v;
  si_catch : progress P_timeout r_catch session_settled s
}.

(** More frames: the bookkeeping of one [Promise.all], the variables of the
    trust callback and the location, the census of some reactions, and what
    is added to the trace. *)
Definition same_alls (a : PromiseId) (s s' : State) : Prop :=
  alls s' a = alls s a.

Definition same_locals (s s' : State) : Prop :=
  replaceUrlPromise s' = replaceUrlPromise s
  /\ clickUrlPromise s' = clickUrlPromise s
  /\ location_hash s' = location_hash s.

Definition census_le (w : Reaction -> nat) (s s' : State) : Prop :=
  census w 0 s' <= census w 0 s.

Definition trace_adds (P : Event -> bool) (s s' : State) : Prop :=
  exists added, trace s' = trace s ++ added /\ forallb P added = true.

(** The [Promise.all] records a callback may write. *)
Definition alls_of (h : Handler) : list PromiseId :=
  match h with
  | H_resolveElement a _ => [a]
  | H_trustResults => [P_joinAll]
  | _ => []
  end.

(** The reactions a callback may register. *)
Definition spawns (env : Env) (h : Handler) : list Reaction :=
  match h with
  | H_trustResults =>
      [r_replace; r_visible (getParam env "click"); r_apply;
       r_element P_joinAll 0; r_element P_joinAll 1; r_join]
  | H_visibleInvoke _ => [r_resJson]
  | _ => []
  end.

Definition is_fetch (e : Event) : bool :=
  match e with EvFetchJson _ _ _ => true | _ => false end.

Definition is_click_setup (e : Event) : bool :=
  match e with
  | EvSetLocationHash _ | EvWhenFirstVisible => true
  | _ => false
  end.

(** The events of the replace-URL and click-tracking steps. *)
Definition is_step_event (e : Event) : bool :=
  match e with
  | EvDevWarn _ _ | EvExternal _ => false
  | _ => true
  end.

(** ** The trust callback (lines 71-87) *)

(** [mret P m]: whatever [m] returns satisfies [P]. *)
Definition mret {A : Type} (P : A -> Prop) (m : M A) : Prop :=
  forall s, match fst (m s) with Ok a => P a | Throw _ => True end.

(** What the callback does with the value of [Promise.all]. *)
Inductive Decision : Type :=
| Throws (e : JsVal)      (* [results[0]] cannot be read *)
| Skips                   (* untrusted and no experiment: lines 77-78 *)
| Starts.                 (* lines 81-86 *)

Definition decision (env : Env) (results : JsVal) : Decision :=
  match js_index results 0 with
  | Throw e => Throws e
  | Ok isTrustedViewer =>
      match js_index results 1 with
      | Throw e => Throws e
      | Ok isTrustedReferrer =>
          if negb (truthy isTrustedViewer) && negb (truthy isTrustedReferrer)
             && negb (isExperimentOn env "alp")
          then Skips
          else Starts
      end
  end.

(** The states in which [handleReplaceUrl] and [handleClickUrl] leave [s]. *)
Definition replace_step (env : Env) (s : State) : State :=
  match replace_promise env with
  | P_replaceNoParam => settle P_replaceNoParam (Fulfilled JUndefined) s
  | P_replaceLegacy =>
      settle P_replaceLegacy (Fulfilled JUndefined)
        (log (EvViewerReplaceUrl (js_or (getParam env "replaceUrl") JNull)) s)
  | _ =>
      subscribe P_getReplaceUrl r_replace
        (with_outstanding (P_getReplaceUrl :: outstanding s)
           (log (EvSendMessageAwaitResponse "getReplaceUrl" JUndefined) s))
  end.

Definition clear_hash (s : State) : State :=
  if truthy (JStr (location_hash s))
  then log (EvSetLocationHash "") (with_location_hash "" s)
  else s.

Definition click_step (env : Env) (s : State) : State :=
  match click_promise env with
  | P_clickNoParam => settle P_clickNoParam (Fulfilled JUndefined) s
  | P_clickInvalid =>
      settle P_clickInvalid (Fulfilled JUndefined)
        (log (EvUserWarn "IMPRESSION"
                [JStr "click fragment param should start with https://. Found ";
                 getParam env "click"]) s)
  | _ =>
      subscribe P_invoked r_apply
        (subscribe P_firstVisible (r_visible (getParam env "click"))
           (log EvWhenFirstVisible (clear_hash s)))
  end.

(** The state in which lines 81-86 leave [s]. *)
Definition start_steps (env : Env) (s : State) : State :=
  subscribe P_joinAll r_join
    (promise_all P_joinAll [replace_promise env; click_promise env]
       (with_clickUrlPromise (Some (click_promise env))
          (click_step env
             (with_replaceUrlPromise (Some (replace_promise env))
                (replace_step env s))))).

(** ** The trust callback runs once *)

Definition w_trust (r : Reaction) : nat :=
  match onFulfilled r with
  | H_trustResults => 1
  | _ => 0
  end.

Definition settled_count (o : option Settled) : nat :=
  match o with
  | Some _ => 1
  | None => 0
  end.

(** The trust reaction is registered or scheduled at most once, and not at
    all once the promise of line 71 is settled. *)
Definition TrustOnce (s : State) : Prop :=
  census w_trust 0 s + settled_count (result (cells s P_trustThen)) <= 1.

(** ** Before the steps are started *)

(** The promises of the two steps and of their join. *)
Definition step_cells : list PromiseId :=
  [P_joinAll; P_joinThen; P_replaceNoParam; P_replaceLegacy; P_getReplaceUrl;
   P_replaceAsync; P_clickNoParam; P_clickInvalid; P_invoked; P_clickUrl;
   P_fetchJson; P_invoke; P_resJson].

(** The promises created by lines 56-71. *)
Definition trust_cells : list PromiseId :=
  [P_promise; P_timeout; P_session; P_isTrustedViewer; P_isTrustedReferrer;
   P_trustAll; P_trustThen; P_firstVisible].

Definition pre_trust_reaction (r : Reaction) : Prop :=
  r = r_race \/ r = r_catch \/ r = r_element P_trustAll 0
  \/ r = r_element P_trustAll 1 \/ r = r_trust.

Definition pre_trust_job (j : Job) : Prop :=
  exists r o, j = JobReaction r o /\ pre_trust_reaction r.

(** As long as lines 81-86 have not run, nothing of the two steps exists:
    their promises are untouched, nothing of theirs is registered,
    scheduled, requested or logged, and the location is as it was. *)
Record NoSteps (env : Env) (s : State) : Prop := mkNoSteps {
  ns_cells : forall q, q ∈ step_cells -> cells s q = empty_cell;
  ns_visible : reactions (cells s P_firstVisible) = [];
  ns_alls : alls s P_joinAll = mkAll [] [] 0;
  ns_click : clickUrlPromise s = None;
  ns_hash : location_hash s = initial_hash env;
  ns_trace : forallb (fun e => negb (is_step_event e)) (trace s) = true;
  ns_queue : forall j, j ∈ queue s -> pre_trust_job j;
  ns_outstanding : forall q,
    q ∈ outstanding s -> q = P_isTrustedViewer \/ q = P_isTrustedReferrer
}.

Definition Pre (env : Env) (s : State) : Prop :=
  replaceUrlPromise s = None -> NoSteps env s.

(** ** [Promise.all] of two promises *)

Definition b2n (b : bool) : nat := if b then 1 else 0.

(** The record of [Promise.all([e0, e1])], creating [a]: an element is
    marked as called only once it is fulfilled, with its value stored; [a]
    is fulfilled exactly when both are marked, with the stored values; and
    [a] is rejected only with the rejection of an element. *)
Definition AllInv (a e0 e1 : PromiseId) (s : State) : Prop :=
  exists c0 c1 v0 v1,
    alls s a = mkAll [v0; v1] [c0; c1] (b2n (negb c0) + b2n (negb c1))
    /\ (c0 = true -> result (cells s e0) = Some (Fulfilled v0))
    /\ (c1 = true -> result (cells s e1) = Some (Fulfilled v1))
    /\ (forall x, result (cells s a) = Some (Fulfilled x) ->
                  x = JArr [v0; v1] /\ c0 = true /\ c1 = true)
    /\ (c0 = true -> c1 = true -> result (cells s a) <> None)
    /\ (forall e, result (cells s a) = Some (Rejected e) ->
                  result (cells s e0) = Some (Rejected e)
                  \/ result (cells s e1) = Some (Rejected e)).

(** What the job of element [i] leaves: the element marked as called, or,
    for a rejected element, [a] settled. *)
Definition element_done (a : PromiseId) (i : nat) (o : Settled) (s : State)
  : Prop :=
  match o with
  | Fulfilled _ => nth i (all_called (alls s a)) false = true
  | Rejected _ => result (cells s a) <> None
  end.

Definition called_mono (a : PromiseId) (s s' : State) : Prop :=
  forall i, nth i (all_called (alls s a)) false = true ->
            nth i (all_called (alls s' a)) false = true.

Definition trust_done (_ : Settled) (s : State) : Prop :=
  result (cells s P_trustThen) <> None.

Definition timeout_settled (_ : Settled) (s : State) : Prop :=
  result (cells s P_timeout) <> None.

(** The trust phase: the bookkeeping of line 68, the progress of its
    reactions, and what the callback of line 71 has decided once the
    promise it returns is settled. *)
Record TrustInv (env : Env) (s : State) : Prop := mkTrustInv {
  ti_once : TrustOnce s;
  ti_pre : Pre env s;
  ti_all : AllInv P_trustAll P_isTrustedViewer P_isTrustedReferrer s;
  ti_elem0 : progress P_isTrustedViewer (r_element P_trustAll 0)
                      (element_done P_trustAll 0) s;
  ti_elem1 : progress P_isTrustedReferrer (r_element P_trustAll 1)
                      (element_done P_trustAll 1) s;
  ti_trust : progress P_trustAll r_trust trust_done s;
  ti_race : progress P_promise r_race timeout_settled s;
  ti_before : result (cells s P_trustThen) = None ->
              replaceUrlPromise s = None /\ result (cells s P_promise) = None;
  ti_after : result (cells s P_trustThen) <> None ->
             result (cells s P_trustAll) <> None;
  ti_decided : forall x,
    result (cells s P_trustAll) = Some (Fulfilled x) ->
    result (cells s P_trustThen) <> None ->
    match decision env x with
    | Skips => result (cells s P_promise) <> None /\ replaceUrlPromise s = None
    | Starts => replaceUrlPromise s = Some (replace_promise env)
    | Throws _ => True
    end
}.

(** ** The join of the two steps (lines 83-86) *)

Definition join_done (o : Settled) (s : State) : Prop :=
  result (cells s P_joinThen) <> None
  /\ match o with
     | Fulfilled _ => result (cells s P_promise) <> None
     | Rejected _ => True
     end.

(** Once lines 81-86 have run: both variables hold the promises of the
    steps, and the reactions on them and on their join make progress. *)
Record Steps (env : Env) (s : State) : Prop := mkSteps {
  st_replace : replaceUrlPromise s = Some (replace_promise env);
  st_click : clickUrlPromise s = Some (click_promise env);
  st_all : AllInv P_joinAll (replace_promise env) (click_promise env) s;
  st_elem0 : progress (replace_promise env) (r_element P_joinAll 0)
                      (element_done P_joinAll 0) s;
  st_elem1 : progress (click_promise env) (r_element P_joinAll 1)
                      (element_done P_joinAll 1) s;
  st_join : progress P_joinAll r_join join_done s
}.

(** Who has settled what: the race promise is resolved by the trust
    callback before the steps or by the fulfilled join; the promise of line
    86 is fulfilled with [undefined]; the session follows the timeout
    promise, which follows the race promise or the timer. *)
Record JoinInv (env : Env) (s : State) : Prop := mkJoinInv {
  ji_steps : replaceUrlPromise s <> None -> Steps env s;
  ji_promise :
    result (cells s P_promise) <> None ->
    replaceUrlPromise s = None \/ is_fulfilled (result (cells s P_joinAll));
  ji_joinThen : forall o,
    result (cells s P_joinThen) = Some o -> o = Fulfilled JUndefined;
  ji_session :
    result (cells s P_session) <> None -> result (cells s P_timeout) <> None;
  ji_timeout :
    result (cells s P_timeout) <> None ->
    result (cells s P_promise) <> None \/ timer s = None
}.

(** Everything that holds of a reachable state. *)
Record Reachable (env : Env) (s : State) : Prop := mkReachable {
  re_session : SessionInv env s;
  re_trust : TrustInv env s;
  re_join : JoinInv env s
}.

Definition not_timer (e : ExtEvent) : Prop := e <> TimerFires.

(** ** The order of the click-tracking step *)

(** The visibility wait has been asked for, after the fragment was cleared
    if there was one. *)
Definition clicked (env : Env) (l : list Event) : Prop :=
  exists k1 k2,
    l = k1 ++ EvWhenFirstVisible :: k2
    /\ (initial_hash env <> "" -> EvSetLocationHash "" ∈ k1).

(** What has happened before a fetch. *)
Definition visible_after_click (env : Env) (l : list Event) : Prop :=
  EvExternal FirstVisible ∈ l /\ clicked env l.

Definition fetch_ordered (env : Env) (l : list Event) : Prop :=
  forall l1 f l2,
    l = l1 ++ f :: l2 -> is_fetch f = true -> visible_after_click env l1.

Record TraceInv (env : Env) (s : State) : Prop := mkTraceInv {
  tr_visible :
    result (cells s P_firstVisible) <> None ->
    EvExternal FirstVisible ∈ trace s;
  tr_clicked :
    replaceUrlPromise s <> None -> click_promise env = P_clickUrl ->
    clicked env (trace s);
  tr_ordered : fetch_ordered env (trace s)
}.

(** Sample environments for the two steps. *)
Definition env_click : Env :=
  mkEnv {[ "click" := "https://ad.example/track" ]} ∅ ∅ false false false
        (fun _ => false) (fun _ => mkParsedUrl "https://x" "?a=1")
        (fun _ => [("a", "1")]) (fun u _ => (u ++ "?a=1")%string)
        "https://doc.example/a" "#click=x".

Definition trusted_visible : list ExtEvent :=
  [IsTrustedViewerSettles (Fulfilled (JBool true));
   IsTrustedReferrerSettles (Fulfilled (JBool false));
   FirstVisible].

Definition untrusted : list ExtEvent :=
  [IsTrustedViewerSettles (Fulfilled (JBool false));
   IsTrustedReferrerSettles (Fulfilled (JBool false))].

Definition fetch_fails : list ExtEvent :=
  trusted_visible ++ [FetchJsonSettles (Rejected (JError "network"))].

(** ** Further vocabulary: values, requests and what never happens *)

(** The URL [invoke] asks for (lines 183-185). *)
Definition fetch_url (env : Env) (clickUrl : string) : string :=
  if mode_localDev env && negb (mode_test env)
  then ("http://localhost:8000/impression-proxy?url=" ++ clickUrl)%string
  else clickUrl.

(** The one request the module may make: the [click] parameter, when it
    begins with [https://], with credentials and without the source-origin
    requirement. *)
Definition expected_fetch (env : Env) (e : Event) : Prop :=
  exists c, viewer_params env !! "click" = Some c
            /\ begins_with "https://" c
            /\ e = EvFetchJson (fetch_url env c) "include" false.

Definition count_fetch (l : list Event) : nat :=
  sum_weights (fun e => if is_fetch e then 1 else 0) l.

(** The reactions that lead to a fetch: the trust reaction, which registers
    the visibility reaction, which issues the fetch. *)
Definition w_fetch (r : Reaction) : nat :=
  match onFulfilled r with
  | H_trustResults | H_visibleInvoke _ => 1
  | _ => 0
  end.

Definition TIMEOUT_MESSAGE : string := "TrackImpressionPromise timeout".

(** The promises the module itself fulfils with [undefined]. *)
Definition resolved_steps : list PromiseId :=
  [P_replaceNoParam; P_replaceLegacy; P_replaceAsync; P_clickNoParam;
   P_clickInvalid].

(** The values promises are settled with. *)
Record ValuesInv (s : State) : Prop := mkValuesInv {
  vi_steps : forall q o,
    q ∈ resolved_steps -> result (cells s q) = Some o -> o = Fulfilled JUndefined;
  vi_promise : forall o,
    result (cells s P_promise) = Some o -> o = Fulfilled JUndefined;
  vi_timeout : forall o,
    result (cells s P_timeout) = Some o ->
    o = Fulfilled JUndefined \/ o = Rejected (JError TIMEOUT_MESSAGE);
  vi_session : forall o,
    result (cells s P_session) = Some o -> o = Fulfilled JUndefined;
  vi_timer : forall d m,
    timer s = Some (d, m) -> d = TIMEOUT_VALUE /\ m = TIMEOUT_MESSAGE
}.

(** A rejected trust question: the callback of line 71 is not run. *)
Definition TrustRejected (s : State) : Prop :=
  is_rejected (result (cells s P_trustAll)) ->
  replaceUrlPromise s = None /\ result (cells s P_promise) = None.

(** The fragment after [handleClickUrl]. *)
Definition hash_after (env : Env) : string :=
  match click_promise env with
  | P_clickUrl => ""
  | _ => initial_hash env
  end.

Definition HashInv (env : Env) (s : State) : Prop :=
  location_hash s
  = match replaceUrlPromise s with
    | Some _ => hash_after env
    | None => initial_hash env
    end.

(** At most one fetch, and only the expected one. *)
Record FetchInv (env : Env) (s : State) : Prop := mkFetchInv {
  fi_once : count_fetch (trace s) + census w_fetch 0 s <= 1;
  fi_expected : forall e, e ∈ trace s -> is_fetch e = true -> expected_fetch env e
}.

(** The events of the click-tracking step beyond the warning, and those of
    the replace-URL step. *)
Definition is_click_event (e : Event) : bool :=
  match e with
  | EvSetLocationHash _ | EvWhenFirstVisible | EvFetchJson _ _ _ | EvResJson
  | EvImageSrc _ | EvHistoryReplaceState _ _ _ => true
  | _ => false
  end.

Definition is_replace_event (e : Event) : bool :=
  match e with
  | EvViewerReplaceUrl _ | EvSendMessageAwaitResponse _ _ => true
  | _ => false
  end.

Definition click_handler (h : Handler) : bool :=
  match h with
  | H_trustResults | H_visibleInvoke _ | H_applyResponse | H_resJson => true
  | _ => false
  end.

Definition replace_handler (h : Handler) : bool :=
  match h with
  | H_trustResults | H_replaceResponse => true
  | _ => false
  end.

Record QuietInv (env : Env) (s : State) : Prop := mkQuietInv {
  qi_click :
    click_promise env <> P_clickUrl ->
    forallb (fun e => negb (is_click_event e)) (trace s) = true;
  qi_replace :
    replace_promise env = P_replaceNoParam ->
    forallb (fun e => negb (is_replace_event e)) (trace s) = true
}.

(** More sample environments and schedules. *)
Definition env_empty_replace : Env :=
  no_url_functions {[ "replaceUrl" := "" ]} {[ "replaceUrl" ]}.

Definition env_click_test : Env :=
  mkEnv {[ "click" := "https://ad.example/track" ]} ∅ ∅ true true false
        (fun _ => false) (fun _ => mkParsedUrl "https://x" "?a=1")
        (fun _ => [("a", "1")]) (fun u _ => (u ++ "?a=1")%string)
        "https://doc.example/a" "".

Definition env_alp : Env :=
  mkEnv {[ "click" := "https://ad.example/track" ]} ∅ {[ "alp" ]}
        false false false
        (fun _ => false) (fun _ => mkParsedUrl "https://x" "?a=1")
        (fun _ => [("a", "1")]) (fun u _ => (u ++ "?a=1")%string)
        "https://doc.example/a" "".

Definition viewer_fails : list ExtEvent :=
  [IsTrustedViewerSettles (Rejected (JError "no viewer"));
   IsTrustedReferrerSettles (Fulfilled (JBool true))].

Definition replace_fails : list ExtEvent :=
  [IsTrustedViewerSettles (Fulfilled (JBool true));
   IsTrustedReferrerSettles (Fulfilled (JBool true));
   GetReplaceUrlSettles (Rejected (JError "no answer"))].

(** * Properties *)

(** ** Projections through the state updates *)

Lemma all_promises_complete (p : PromiseId) : p ∈ all_promises.
Proof. destruct p; unfold all_promises; set_solver. Qed.

Lemma all_promises_NoDup : NoDup all_promises.
Proof. apply (bool_decide_unpack _). vm_compute. reflexivity. Qed.

Lemma upd_eq {A : Type} (f : PromiseId -> A) p a : upd f p a p = a.
Proof. unfold upd. case_decide; congruence. Qed.

Lemma upd_ne {A : Type} (f : PromiseId -> A) p q a :
  q <> p -> upd f p a q = f q.
Proof. unfold upd. case_decide; congruence. Qed.

Lemma sum_weights_app {A : Type} (w : A -> nat) (l1 l2 : list A) :
  sum_weights w (l1 ++ l2) = sum_weights w l1 + sum_weights w l2.
Proof. induction l1 as [|a l1 IH]; simpl; [done | rewrite IH; lia]. Qed.

Lemma sum_weights_map {A B : Type} (w : B -> nat) (f : A -> B) (l : list A) :
  sum_weights w (map f l) = sum_weights (fun a => w (f a)) l.
Proof. induction l as [|a l IH]; simpl; [done | by rewrite IH]. Qed.

Lemma sum_weights_ext {A : Type} (w1 w2 : A -> nat) (l : list A) :
  (forall a, a ∈ l -> w1 a = w2 a) -> sum_weights w1 l = sum_weights w2 l.
Proof.
  induction l as [|a l IH]; simpl; intros H; [done |].
  rewrite (H a), IH; [done | | by left].
  intros b Hb. apply H. by right.
Qed.

Lemma sum_weights_upd (w : Cell -> nat) (f : PromiseId -> Cell) p c l :
  NoDup l -> p ∈ l ->
  sum_weights (fun q => w (upd f p c q)) l + w (f p)
  = sum_weights (fun q => w (f q)) l + w c.
Proof.
  induction l as [|a l IH]; intros Hnd Hin; [by apply elem_of_nil in Hin |].
  apply NoDup_cons in Hnd as [Hna Hnd]. simpl.
  destruct (decide (a = p)) as [->|Hne].
  - rewrite upd_eq.
    rewrite (sum_weights_ext (fun q => w (upd f p c q)) (fun q => w (f q)) l).
    + lia.
    + intros b Hb. rewrite upd_ne; [done | by intros ->].
  - rewrite upd_ne by done.
    assert (p ∈ l) as Hl by (apply elem_of_cons in Hin as [->|]; done).
    specialize (IH Hnd Hl). lia.
Qed.

Lemma cells_census_upd w (f : PromiseId -> Cell) p c :
  cells_census w (upd f p c) + cell_census w (f p)
  = cells_census w f + cell_census w c.
Proof.
  apply (sum_weights_upd (cell_census w));
    [apply all_promises_NoDup | apply all_promises_complete].
Qed.

(** ** Census of reactions and jobs through the primitives *)

Section Census.

Context (w : Reaction -> nat) (t : nat).

Lemma census_settle p o s : census w t (settle p o s) = census w t s.
Proof.
  unfold settle. destruct (result (cells s p)) eqn:E; [done |].
  unfold census, enqueue, with_queue, with_cells.
  cbn [queue cells].
  rewrite sum_weights_app, sum_weights_map.
  pose proof (cells_census_upd w (cells s) p (mkCell (Some o) [])) as H.
  unfold cell_census in H. cbn [reactions] in H.
  unfold sum_weights at 2 in H. cbn [foldr] in H.
  change (sum_weights (fun a => job_census w t (JobReaction a o)))
    with (sum_weights w).
  lia.
Qed.

Lemma census_subscribe p r s :
  census w t (subscribe p r s) = census w t s + w r.
Proof.
  unfold subscribe. destruct (result (cells s p)) eqn:E.
  - unfold census, enqueue, with_queue. cbn [queue cells].
    rewrite sum_weights_app. unfold sum_weights at 2.
    cbn [foldr job_census]. lia.
  - unfold census, with_cells. cbn [queue cells].
    pose proof (cells_census_upd w (cells s) p
                  (mkCell None (reactions (cells s p) ++ [r]))) as H.
    unfold cell_census in H. cbn [reactions] in H.
    rewrite sum_weights_app in H. unfold sum_weights at 3 in H.
    cbn [foldr] in H. lia.
Qed.

Lemma census_log e s : census w t (log e s) = census w t s.
Proof. reflexivity. Qed.

Lemma census_with_alls f s : census w t (with_alls f s) = census w t s.
Proof. reflexivity. Qed.

Lemma census_with_timer x s : census w t (with_timer x s) = census w t s.
Proof. reflexivity. Qed.

Lemma census_with_outstanding l s :
  census w t (with_outstanding l s) = census w t s.
Proof. reflexivity. Qed.

Lemma census_with_location_hash h s :
  census w t (with_location_hash h s) = census w t s.
Proof. reflexivity. Qed.

Lemma census_with_history_current u s :
  census w t (with_history_current u s) = census w t s.
Proof. reflexivity. Qed.

Lemma census_with_trackImpressionPromise p s :
  census w t (with_trackImpressionPromise p s) = census w t s.
Proof. reflexivity. Qed.

Lemma census_with_replaceUrlPromise p s :
  census w t (with_replaceUrlPromise p s) = census w t s.
Proof. reflexivity. Qed.

Lemma census_with_clickUrlPromise p s :
  census w t (with_clickUrlPromise p s) = census w t s.
Proof. reflexivity. Qed.

Lemma census_enqueue jobs s :
  census w t (enqueue jobs s)
  = census w t s + sum_weights (job_census w t) jobs.
Proof.
  unfold census, enqueue, with_queue. cbn [queue cells].
  rewrite sum_weights_app. lia.
Qed.

Lemma census_resolveElement a i v s :
  census w t (resolveElement a i v s) = census w t s.
Proof.
  unfold resolveElement. cbv zeta.
  repeat case_match; rewrite ?census_settle; reflexivity.
Qed.

Lemma census_all_subscribe a i elements s :
  census w t (all_subscribe a i elements s)
  = census w t s
    + sum_weights (fun k => w (mkReaction (H_resolveElement a k) (H_reject a) None))
                  (seq i (length elements)).
Proof.
  revert i s.
  induction elements as [|e rest IH]; intros i s;
    cbn [all_subscribe length seq]; unfold sum_weights; cbn [foldr]; [lia |].
  fold (sum_weights
          (fun k => w (mkReaction (H_resolveElement a k) (H_reject a) None))
          (seq (S i) (length rest))).
  rewrite IH, census_subscribe. lia.
Qed.

Lemma census_promise_all a elements s :
  census w t (promise_all a elements s)
  = census w t s
    + sum_weights (fun k => w (mkReaction (H_resolveElement a k) (H_reject a) None))
                  (seq 0 (length elements)).
Proof.
  unfold promise_all. cbv zeta.
  destruct (Nat.eqb_spec (length elements) 0) as [E|E].
  - rewrite census_settle, census_with_alls, E. cbn. lia.
  - rewrite census_all_subscribe, census_with_alls. lia.
Qed.

Lemma census_dequeue j rest s :
  queue s = j :: rest ->
  census w t (with_queue rest s) + job_census w t j = census w t s.
Proof.
  intros E. unfold census, with_queue. cbn [queue cells]. rewrite E.
  unfold sum_weights. cbn [foldr]. lia.
Qed.

End Census.

Create Rewrite HintDb census.
#[local] Hint Rewrite census_settle census_subscribe census_log
  census_with_alls census_with_timer census_with_outstanding
  census_with_location_hash census_with_history_current
  census_with_trackImpressionPromise census_with_replaceUrlPromise
  census_with_clickUrlPromise census_enqueue census_resolveElement
  census_promise_all : census.

(** Unfolding of the monadic code down to the runtime primitives. *)
Ltac unfold_module :=
  cbv beta iota zeta delta
    [ bind ret lift effect get then_ Promise_resolve Promise_all request
      dev_warn user_warn dev_assert dev_assertString js_indexOf
      viewer_isTrustedViewer viewer_isTrustedReferrer viewer_replaceUrl
      viewer_sendMessageAwaitResponse viewer_whenFirstVisible xhr_fetchJson
      res_json set_location_hash history_replaceState_call new_Image_src
      timeoutPromise getTrackImpressionPromise
      resetTrackImpressionPromiseForTesting doNotTrackImpression
      handleReplaceUrl replaceResponse replaceError handleClickUrl invoke
      visibleInvoke resJson applyResponse resolveImpression
      maybeTrackImpression trustResults catchWarn joinResolve call
      settle_derived selected run_job fst snd ].

Section Termination.

Context (env : Env).

Lemma call_measure h v s res s' :
  call env h v s = (res, s') ->
  measure s' + return_cost res <= measure s + handler_weight h.
Proof.
  unfold measure.
  destruct h; unfold_module; intros H; repeat case_match; simplify_eq;
    cbn [return_cost handler_weight];
    autorewrite with census; unfold reaction_weight, sum_weights;
    cbn [length seq foldr job_census handler_weight onFulfilled
         onRejected Nat.max]; lia.
Qed.

Lemma finish_measure (d : option PromiseId) (res : Result JsRet) s :
  measure
    (match res with
     | Ok (RVal v) => settle_derived d (Fulfilled v) s
     | Ok (RPromise q) =>
         match d with
         | Some p => enqueue [JobResolveThenable p q] s
         | None => s
         end
     | Throw e => settle_derived d (Rejected e) s
     end) <= measure s + return_cost res.
Proof.
  unfold measure.
  destruct res as [[v|q]|e]; cbn [return_cost]; unfold settle_derived;
    repeat case_match; autorewrite with census; unfold sum_weights;
    cbn [foldr job_census]; lia.
Qed.

Lemma run_job_measure j s :
  measure (run_job env j s) + 1
  <= measure s + job_census reaction_weight 2 j.
Proof.
  destruct j as [r o|p q].
  - cbn [run_job job_census]. unfold reaction_weight.
    assert (handler_weight (selected r o)
            <= Nat.max (handler_weight (onFulfilled r))
                       (handler_weight (onRejected r))) as Hsel
      by (destruct o; cbn [selected]; lia).
    destruct (selected r o) eqn:Es;
      [ unfold settle_derived, measure; case_match; rewrite ?census_settle; lia
      | .. ];
      match goal with
      | |- context [call env ?h ?v s] =>
          destruct (call env h v s) as [res s'] eqn:E;
          apply call_measure in E;
          pose proof (finish_measure (derived r) res s')
      end; lia.
  - cbn [run_job job_census]. unfold measure. rewrite census_subscribe.
    unfold reaction_weight.
    cbn [onFulfilled onRejected handler_weight Nat.max]. lia.
Qed.

Lemma microstep_measure s :
  queue s <> [] -> measure (microstep env s) < measure s.
Proof.
  intros Hne. unfold microstep. destruct (queue s) as [|j rest] eqn:E; [done |].
  pose proof (run_job_measure j (with_queue rest s)).
  pose proof (census_dequeue reaction_weight 2 j rest s E).
  unfold measure in *. lia.
Qed.

Lemma measure_queue_length s : length (queue s) <= measure s.
Proof.
  unfold measure, census. generalize (queue s) as q.
  unfold sum_weights.
  induction q as [|j q IH]; cbn [length foldr]; [lia |].
  assert (1 <= job_census reaction_weight 2 j)
    by (destruct j; cbn [job_census]; unfold reaction_weight; lia).
  lia.
Qed.

Lemma microstep_idle s : queue s = [] -> microstep env s = s.
Proof. intros E. unfold microstep. by rewrite E. Qed.

Lemma drain_idle n s : queue s = [] -> drain env n s = s.
Proof.
  intros E. induction n as [|n IH]; cbn [drain]; [done |].
  by rewrite microstep_idle.
Qed.

Lemma drain_quiescent n s : measure s <= n -> queue (drain env n s) = [].
Proof.
  revert s. induction n as [|n IH]; intros s Hn; cbn [drain].
  - pose proof (measure_queue_length s) as Hl.
    destruct (queue s); [done | cbn [length] in Hl; lia].
  - destruct (queue s) as [|j rest] eqn:E.
    + rewrite microstep_idle, drain_idle; done.
    + apply IH. pose proof (microstep_measure s) as Hm. rewrite E in Hm.
      specialize (Hm ltac:(done)). lia.
Qed.

(** Running the microtasks leaves the queue empty: the run terminates. *)
Lemma run_microtasks_quiescent s : queue (run_microtasks env s) = [].
Proof. apply drain_quiescent. lia. Qed.

End Termination.

(** ** Strings *)

Lemma prefix_begins_with p s : String.prefix p s = true <-> begins_with p s.
Proof.
  unfold begins_with. revert s. induction p as [|a p IH]; intros s.
  - split; [intros _; by exists s | by destruct s].
  - destruct s as [|b s]; cbn [String.prefix].
    + split; [done | intros [rest H]; discriminate].
    + destruct (Ascii.ascii_dec a b) as [->|Hne].
      * rewrite IH. split; intros [rest H]; exists rest.
        -- simpl. by rewrite H.
        -- simpl in H. by injection H.
      * split; [done | intros [rest H]; simpl in H; injection H as E1 E2; congruence].
Qed.

Lemma index_zero p s : String.index 0 p s = Some 0 <-> String.prefix p s = true.
Proof.
  destruct s as [|b s].
  - destruct p; simpl; split; congruence.
  - change (String.index 0 p (String b s))
      with (if String.prefix p (String b s) then Some 0
            else match String.index 0 p s with
                 | Some n => Some (S n)
                 | None => None
                 end).
    destruct (String.prefix p (String b s)); [done |].
    destruct (String.index 0 p s); split; congruence.
Qed.

Lemma indexOf_zero s p : indexOf s p = 0%Z <-> begins_with p s.
Proof.
  rewrite <- prefix_begins_with, <- index_zero. unfold indexOf.
  destruct (String.index 0 p s) as [i|]; split; intros H; try lia; try congruence.
  - f_equal. lia.
  - injection H as ->. done.
Qed.

(** ** Projections through [settle] and [subscribe] *)

Lemma cells_settle_ne p o s q : q <> p -> cells (settle p o s) q = cells s q.
Proof.
  intros H. unfold settle. case_match; [done |].
  cbn [enqueue with_queue with_cells cells]. by rewrite upd_ne.
Qed.

Lemma cells_settle_eq p o s :
  cells (settle p o s) p
  = match result (cells s p) with
    | Some _ => cells s p
    | None => mkCell (Some o) []
    end.
Proof.
  unfold settle. case_match; [done |].
  cbn [enqueue with_queue with_cells cells]. by rewrite upd_eq.
Qed.

Lemma queue_settle p o s :
  queue (settle p o s)
  = queue s ++ match result (cells s p) with
               | Some _ => []
               | None => map (fun r => JobReaction r o) (reactions (cells s p))
               end.
Proof. unfold settle. case_match; [by rewrite app_nil_r | done]. Qed.

Lemma alls_settle p o s : alls (settle p o s) = alls s.
Proof. unfold settle. by case_match. Qed.
Lemma trace_settle p o s : trace (settle p o s) = trace s.
Proof. unfold settle. by case_match. Qed.
Lemma timer_settle p o s : timer (settle p o s) = timer s.
Proof. unfold settle. by case_match. Qed.
Lemma outstanding_settle p o s : outstanding (settle p o s) = outstanding s.
Proof. unfold settle. by case_match. Qed.
Lemma location_url_settle p o s : location_url (settle p o s) = location_url s.
Proof. unfold settle. by case_match. Qed.
Lemma location_hash_settle p o s :
  location_hash (settle p o s) = location_hash s.
Proof. unfold settle. by case_match. Qed.
Lemma history_current_settle p o s :
  history_current (settle p o s) = history_current s.
Proof. unfold settle. by case_match. Qed.
Lemma history_older_settle p o s :
  history_older (settle p o s) = history_older s.
Proof. unfold settle. by case_match. Qed.
Lemma trackImpressionPromise_settle p o s :
  trackImpressionPromise (settle p o s) = trackImpressionPromise s.
Proof. unfold settle. by case_match. Qed.
Lemma replaceUrlPromise_settle p o s :
  replaceUrlPromise (settle p o s) = replaceUrlPromise s.
Proof. unfold settle. by case_match. Qed.
Lemma clickUrlPromise_settle p o s :
  clickUrlPromise (settle p o s) = clickUrlPromise s.
Proof. unfold settle. by case_match. Qed.

Lemma cells_subscribe_ne p r s q : q <> p -> cells (subscribe p r s) q = cells s q.
Proof.
  intros H. unfold subscribe. case_match; [done |].
  cbn [with_cells cells]. by rewrite upd_ne.
Qed.

Lemma cells_subscribe_eq p r s :
  cells (subscribe p r s) p
  = match result (cells s p) with
    | Some _ => cells s p
    | None => mkCell None (reactions (cells s p) ++ [r])
    end.
Proof.
  unfold subscribe. case_match; [done |].
  cbn [with_cells cells]. by rewrite upd_eq.
Qed.

Lemma result_subscribe p r s q :
  result (cells (subscribe p r s) q) = result (cells s q).
Proof.
  destruct (decide (q = p)) as [->|H].
  - rewrite cells_subscribe_eq. by case_match.
  - by rewrite cells_subscribe_ne.
Qed.

Lemma queue_subscribe p r s :
  queue (subscribe p r s)
  = queue s ++ match result (cells s p) with
               | Some o => [JobReaction r o]
               | None => []
               end.
Proof. unfold subscribe. case_match; [done | by rewrite app_nil_r]. Qed.

Lemma alls_subscribe p r s : alls (subscribe p r s) = alls s.
Proof. unfold subscribe. by case_match. Qed.
Lemma trace_subscribe p r s : trace (subscribe p r s) = trace s.
Proof. unfold subscribe. by case_match. Qed.
Lemma timer_subscribe p r s : timer (subscribe p r s) = timer s.
Proof. unfold subscribe. by case_match. Qed.
Lemma outstanding_subscribe p r s :
  outstanding (subscribe p r s) = outstanding s.
Proof. unfold subscribe. by case_match. Qed.
Lemma location_url_subscribe p r s :
  location_url (subscribe p r s) = location_url s.
Proof. unfold subscribe. by case_match. Qed.
Lemma location_hash_subscribe p r s :
  location_hash (subscribe p r s) = location_hash s.
Proof. unfold subscribe. by case_match. Qed.
Lemma history_current_subscribe p r s :
  history_current (subscribe p r s) = history_current s.
Proof. unfold subscribe. by case_match. Qed.
Lemma history_older_subscribe p r s :
  history_older (subscribe p r s) = history_older s.
Proof. unfold subscribe. by case_match. Qed.
Lemma trackImpressionPromise_subscribe p r s :
  trackImpressionPromise (subscribe p r s) = trackImpressionPromise s.
Proof. unfold subscribe. by case_match. Qed.
Lemma replaceUrlPromise_subscribe p r s :
  replaceUrlPromise (subscribe p r s) = replaceUrlPromise s.
Proof. unfold subscribe. by case_match. Qed.
Lemma clickUrlPromise_subscribe p r s :
  clickUrlPromise (subscribe p r s) = clickUrlPromise s.
Proof. unfold subscribe. by case_match. Qed.

Lemma promise_all2 a e0 e1 s :
  promise_all a [e0; e1] s
  = subscribe e1 (r_element a 1)
      (subscribe e0 (r_element a 0)
         (with_alls (upd (alls s) a
                       (mkAll [JUndefined; JUndefined] [false; false] 2)) s)).
Proof. reflexivity. Qed.

Create Rewrite HintDb proj.
#[local] Hint Rewrite cells_settle_eq queue_settle alls_settle trace_settle
  timer_settle outstanding_settle location_url_settle location_hash_settle
  history_current_settle history_older_settle trackImpressionPromise_settle
  replaceUrlPromise_settle clickUrlPromise_settle
  cells_subscribe_eq result_subscribe queue_subscribe alls_subscribe
  trace_subscribe timer_subscribe outstanding_subscribe
  location_url_subscribe location_hash_subscribe history_current_subscribe
  history_older_subscribe trackImpressionPromise_subscribe
  replaceUrlPromise_subscribe clickUrlPromise_subscribe
  promise_all2 @upd_eq : proj.
#[local] Hint Rewrite cells_settle_ne cells_subscribe_ne @upd_ne
  using (first [discriminate | congruence]) : proj.

(** ** Symbolic execution of the runtime primitives *)

Ltac simp_proj :=
  cbn [cells alls queue trace timer outstanding location_url location_hash
       history_current history_older trackImpressionPromise
       replaceUrlPromise clickUrlPromise result reactions
       all_values all_called all_remaining
       with_cells with_alls with_queue with_trace with_timer
       with_outstanding with_location_hash with_history_current
       with_trackImpressionPromise with_replaceUrlPromise
       with_clickUrlPromise log enqueue
       onFulfilled onRejected derived settled_value
       app map andb orb negb fst snd] in *.

(** [simp_state tac]: push the projections through the updates, using
    [tac] to rewrite what is known of the initial state. *)
Ltac simp_state tac :=
  unfold state_of, is_pending in *;
  repeat (progress (simp_proj; autorewrite with proj in *; try tac)).

(** ** Monotonicity *)

Lemma extends_refl s : extends s s.
Proof.
  split; intros; eauto; try (exists []; by rewrite app_nil_r).
Qed.

Lemma extends_trans s1 s2 s3 : extends s1 s2 -> extends s2 s3 -> extends s1 s3.
Proof.
  intros [R1 A1 [q1 Q1] [t1 T1] O1] [R2 A2 [q2 Q2] [t2 T2] O2]. split.
  - eauto.
  - intros q r Hn Hr. destruct (A1 q r Hn Hr) as [[Hn' Hr']|[o [Ho Hj]]].
    + eauto.
    + right. exists o. split; [eauto |]. rewrite Q2.
      apply elem_of_app. by left.
  - exists (q1 ++ q2). by rewrite Q2, Q1, app_assoc.
  - exists (t1 ++ t2). by rewrite T2, T1, app_assoc.
  - eauto.
Qed.

Lemma extends_settle p o s : extends s (settle p o s).
Proof.
  unfold settle. destruct (result (cells s p)) eqn:E; [apply extends_refl |].
  split; unfold enqueue, with_queue, with_cells; cbn [cells queue trace outstanding].
  - intros q x Hq. rewrite upd_ne; [done | congruence].
  - intros q r Hn Hr. destruct (decide (q = p)) as [->|Hne].
    + right. exists o. rewrite upd_eq. split; [done |].
      apply elem_of_app. right.
      apply list_elem_of_In, (in_map (fun x => JobReaction x o)).
      by apply list_elem_of_In.
    + left. by rewrite upd_ne.
  - eauto.
  - exists []. by rewrite app_nil_r.
  - done.
Qed.

Lemma extends_subscribe p r s : extends s (subscribe p r s).
Proof.
  unfold subscribe. destruct (result (cells s p)) eqn:E;
    split; unfold enqueue, with_queue, with_cells;
    cbn [cells queue trace outstanding]; eauto;
    try (exists []; by rewrite app_nil_r).
  - intros q x Hq. destruct (decide (q = p)) as [->|Hne];
      [congruence | by rewrite upd_ne].
  - intros q x Hn Hx. left. destruct (decide (q = p)) as [->|Hne].
    + rewrite upd_eq. split; [done |]. apply elem_of_app. by left.
    + by rewrite upd_ne.
Qed.

Lemma extends_log e s : extends s (log e s).
Proof.
  split; unfold log, with_trace; cbn [cells queue trace outstanding]; eauto.
  exists []. by rewrite app_nil_r.
Qed.

Lemma extends_enqueue jobs s : extends s (enqueue jobs s).
Proof.
  split; unfold enqueue, with_queue; cbn [cells queue trace outstanding]; eauto.
  exists []. by rewrite app_nil_r.
Qed.

Lemma extends_fields s s' :
  cells s' = cells s -> queue s' = queue s -> trace s' = trace s ->
  (forall p, p ∈ outstanding s -> p ∈ outstanding s') ->
  extends s s'.
Proof.
  intros Hc Hq Ht Ho. split; rewrite ?Hc, ?Hq, ?Ht; eauto;
    exists []; by rewrite app_nil_r.
Qed.

Lemma extends_with_alls f s : extends s (with_alls f s).
Proof. by apply extends_fields. Qed.

Lemma extends_with_timer t s : extends s (with_timer t s).
Proof. by apply extends_fields. Qed.

Lemma extends_request p s :
  extends s (with_outstanding (p :: outstanding s) s).
Proof. apply extends_fields; try done. intros q Hq. by right. Qed.

Lemma extends_with_location_hash h s : extends s (with_location_hash h s).
Proof. by apply extends_fields. Qed.

Lemma extends_with_history_current u s :
  extends s (with_history_current u s).
Proof. by apply extends_fields. Qed.

Lemma extends_with_trackImpressionPromise p s :
  extends s (with_trackImpressionPromise p s).
Proof. by apply extends_fields. Qed.

Lemma extends_with_replaceUrlPromise p s :
  extends s (with_replaceUrlPromise p s).
Proof. by apply extends_fields. Qed.

Lemma extends_with_clickUrlPromise p s :
  extends s (with_clickUrlPromise p s).
Proof. by apply extends_fields. Qed.

Lemma extends_resolveElement a i v s : extends s (resolveElement a i v s).
Proof.
  unfold resolveElement. cbv zeta. repeat case_match;
    eauto using extends_refl, extends_trans, extends_settle, extends_with_alls.
Qed.

Lemma extends_all_subscribe a i elements s :
  extends s (all_subscribe a i elements s).
Proof.
  revert i s. induction elements as [|e rest IH]; intros i s;
    cbn [all_subscribe]; [apply extends_refl |].
  eapply extends_trans; [apply extends_subscribe | apply IH].
Qed.

Lemma extends_promise_all a elements s : extends s (promise_all a elements s).
Proof.
  unfold promise_all. cbv zeta. case_match;
    (eapply extends_trans; [apply extends_with_alls |]);
    [apply extends_settle | apply extends_all_subscribe].
Qed.

(** Decomposes a goal [extends s (f1 (f2 (... s)))] primitive by primitive. *)
Ltac extends_steps :=
  repeat first
    [ apply extends_refl
    | eapply extends_trans;
      [ | first [ apply extends_settle | apply extends_subscribe
                | apply extends_log | apply extends_enqueue
                | apply extends_with_alls | apply extends_with_timer
                | apply extends_request | apply extends_with_location_hash
                | apply extends_with_history_current
                | apply extends_with_trackImpressionPromise
                | apply extends_with_replaceUrlPromise
                | apply extends_with_clickUrlPromise
                | apply extends_resolveElement | apply extends_promise_all ] ] ].

Section Monotone.

Context (env : Env).

Lemma call_extends h v s res s' : call env h v s = (res, s') -> extends s s'.
Proof.
  destruct h; unfold_module; intros H; repeat case_match; simplify_eq;
    extends_steps.
Qed.

Lemma run_job_extends j s : extends s (run_job env j s).
Proof.
  destruct j as [r o|p q]; cbn [run_job]; [| apply extends_subscribe].
  destruct (selected r o) eqn:Es;
    [ unfold settle_derived; case_match; extends_steps | .. ];
    match goal with
    | |- context [call env ?h ?v s] =>
        destruct (call env h v s) as [res s'] eqn:E;
        apply call_extends in E
    end;
    (eapply extends_trans; [exact E |]);
    unfold settle_derived; repeat case_match; extends_steps.
Qed.

Lemma deliver_extends e s : extends s (deliver e s).
Proof.
  destruct e; unfold deliver, answer; repeat case_match; extends_steps.
Qed.

(** One microtask: the head of the queue is consumed, and the rest is as
    in [extends]. *)
Lemma microstep_cons s j rest :
  queue s = j :: rest -> microstep env s = run_job env j (with_queue rest s).
Proof. unfold microstep. by intros ->. Qed.

Lemma microstep_results s q o :
  result (cells s q) = Some o -> result (cells (microstep env s) q) = Some o.
Proof.
  unfold microstep. destruct (queue s) as [|j rest]; [done |].
  intros H. by apply (ext_result _ _ (run_job_extends j (with_queue rest s))).
Qed.

Lemma microstep_reactions s q r :
  result (cells s q) = None -> r ∈ reactions (cells s q) ->
  (result (cells (microstep env s) q) = None
   /\ r ∈ reactions (cells (microstep env s) q))
  \/ (exists o, result (cells (microstep env s) q) = Some o
                /\ JobReaction r o ∈ queue (microstep env s)).
Proof.
  unfold microstep. destruct (queue s) as [|j rest]; [by left |].
  intros Hn Hr.
  by apply (ext_reactions _ _ (run_job_extends j (with_queue rest s))).
Qed.

Lemma microstep_queue s j rest :
  queue s = j :: rest ->
  exists added, queue (microstep env s) = rest ++ added.
Proof.
  unfold microstep. intros ->.
  apply (ext_queue _ _ (run_job_extends j (with_queue rest s))).
Qed.

Lemma microstep_trace s : exists added, trace (microstep env s) = trace s ++ added.
Proof.
  unfold microstep. destruct (queue s) as [|j rest];
    [exists []; by rewrite app_nil_r |].
  apply (ext_trace _ _ (run_job_extends j (with_queue rest s))).
Qed.

End Monotone.

(** ** Well-formed states *)

Section WellFormed.

Context (env : Env).

Lemma job_ok_extends s s' j : extends s s' -> job_ok env s j -> job_ok env s' j.
Proof.
  intros Hx. destruct j as [r o|p q]; cbn [job_ok]; [| done].
  intros [p [He Hp]]. exists p. split; [done |]. by apply (ext_result _ _ Hx).
Qed.

Lemma WF_settle p o s : WF env s -> WF env (settle p o s).
Proof.
  intros [Hr Hq]. pose proof (extends_settle p o s) as Hx.
  unfold settle in *. destruct (result (cells s p)) eqn:E; [by split |].
  split; unfold enqueue, with_queue, with_cells in *; cbn [cells queue] in *.
  - intros q r. destruct (decide (q = p)) as [->|Hne].
    + rewrite upd_eq. cbn. by intros ?%elem_of_nil.
    + rewrite upd_ne by done. apply Hr.
  - intros j [Hj|Hj]%elem_of_app.
    + eapply job_ok_extends; [exact Hx | by apply Hq].
    + apply list_elem_of_In, in_map_iff in Hj as [r [<- Hj%list_elem_of_In]].
      cbn [job_ok]. exists p. split; [by apply Hr |].
      cbn. by rewrite upd_eq.
Qed.

Lemma WF_subscribe p r s : edge env p r -> WF env s -> WF env (subscribe p r s).
Proof.
  intros He [Hr Hq]. pose proof (extends_subscribe p r s) as Hx.
  unfold subscribe in *. destruct (result (cells s p)) eqn:E;
    split; unfold enqueue, with_queue, with_cells in *; cbn [cells queue] in *.
  - done.
  - intros j [Hj|Hj%list_elem_of_singleton]%elem_of_app; [by apply Hq |].
    subst j. cbn [job_ok]. eauto.
  - intros q x. destruct (decide (q = p)) as [->|Hne].
    + rewrite upd_eq. cbn.
      intros [Hx'|Hx'%list_elem_of_singleton]%elem_of_app; [| by subst].
      split; [by apply Hr | done].
    + rewrite upd_ne by done. apply Hr.
  - intros j Hj. eapply job_ok_extends; [exact Hx | by apply Hq].
Qed.

Lemma WF_fields s s' :
  cells s' = cells s -> queue s' = queue s -> WF env s -> WF env s'.
Proof.
  intros Hc Hq [Hr Hj]. split; rewrite ?Hc, ?Hq; [done |].
  intros j H. specialize (Hj j H). destruct j; cbn [job_ok] in *; [| done].
  by rewrite Hc.
Qed.

Lemma WF_log e s : WF env s -> WF env (log e s).
Proof. by apply WF_fields. Qed.

Lemma WF_with_alls f s : WF env s -> WF env (with_alls f s).
Proof. by apply WF_fields. Qed.

Lemma WF_with_timer t s : WF env s -> WF env (with_timer t s).
Proof. by apply WF_fields. Qed.

Lemma WF_with_outstanding l s : WF env s -> WF env (with_outstanding l s).
Proof. by apply WF_fields. Qed.

Lemma WF_with_location_hash h s : WF env s -> WF env (with_location_hash h s).
Proof. by apply WF_fields. Qed.

Lemma WF_with_history_current u s :
  WF env s -> WF env (with_history_current u s).
Proof. by apply WF_fields. Qed.

Lemma WF_with_trackImpressionPromise p s :
  WF env s -> WF env (with_trackImpressionPromise p s).
Proof. by apply WF_fields. Qed.

Lemma WF_with_replaceUrlPromise p s :
  WF env s -> WF env (with_replaceUrlPromise p s).
Proof. by apply WF_fields. Qed.

Lemma WF_with_clickUrlPromise p s :
  WF env s -> WF env (with_clickUrlPromise p s).
Proof. by apply WF_fields. Qed.

Lemma WF_resolveElement a i v s : WF env s -> WF env (resolveElement a i v s).
Proof.
  intros H. unfold resolveElement. cbv zeta.
  repeat case_match; try apply WF_settle; try apply WF_with_alls; done.
Qed.

Lemma WF_promise_all2 a e0 e1 s :
  edge env e0 (r_element a 0) -> edge env e1 (r_element a 1) ->
  WF env s -> WF env (promise_all a [e0; e1] s).
Proof.
  intros H0 H1 H. unfold promise_all. cbn.
  apply WF_subscribe; [done |]. apply WF_subscribe; [done |].
  by apply WF_with_alls.
Qed.

Lemma WF_enqueue_thenable p q s :
  job_ok env s (JobResolveThenable p q) ->
  WF env s -> WF env (enqueue [JobResolveThenable p q] s).
Proof.
  intros Hj [Hr Hq]. split; unfold enqueue, with_queue; cbn [cells queue];
    [done |].
  intros j [H|H%list_elem_of_singleton]%elem_of_app; [| by subst].
  specialize (Hq j H). by destruct j.
Qed.

Lemma WF_dequeue j rest s :
  queue s = j :: rest -> WF env s -> WF env (with_queue rest s).
Proof.
  intros E [Hr Hq]. split; unfold with_queue; cbn [cells queue]; [done |].
  intros k Hk. assert (k ∈ queue s) as Hk' by (rewrite E; by right).
  specialize (Hq k Hk'). by destruct k.
Qed.

Lemma edge_eq p r p' r' : edge env p r -> p = p' -> r = r' -> edge env p' r'.
Proof. by intros H <- <-. Qed.

End WellFormed.

(** Side conditions on the environment left by a branch of the code. *)
Ltac solve_env :=
  unfold replace_promise, click_promise, click_index,
    r_race, r_catch, r_element, r_trust, r_join, r_replace, r_visible,
    r_apply, r_resJson, r_adopt in *;
  repeat case_match; simplify_eq; congruence.

Ltac solve_edge :=
  (eapply edge_eq; [econstructor | | ]); solve_env.

Ltac wf_steps :=
  repeat first
    [ assumption
    | apply WF_settle
    | apply WF_subscribe; [solve_edge |]
    | apply WF_log
    | apply WF_with_alls
    | apply WF_with_timer
    | apply WF_with_outstanding
    | apply WF_with_location_hash
    | apply WF_with_history_current
    | apply WF_with_trackImpressionPromise
    | apply WF_with_replaceUrlPromise
    | apply WF_with_clickUrlPromise
    | apply WF_resolveElement
    | apply WF_promise_all2; [solve_edge | solve_edge |]
    | apply WF_enqueue_thenable; [cbn [job_ok]; split; [solve_env | tauto] |] ].

Section WellFormedSteps.

Context (env : Env).

Lemma WF_run_job j s : job_ok env s j -> WF env s -> WF env (run_job env j s).
Proof.
  intros Hj Hwf. destruct j as [r o|p q]; cbn [job_ok] in Hj.
  - destruct Hj as [p [He Hp]].
    inversion He; subst; destruct o; cbn [run_job selected];
      unfold r_race, r_catch, r_element, r_trust, r_join, r_replace,
        r_visible, r_apply, r_resJson, r_adopt;
      cbn [onFulfilled onRejected derived]; unfold_module;
      repeat case_match; simplify_eq; wf_steps.
  - cbn [run_job]. destruct Hj as [Hc [[-> ->]|[-> ->]]];
      (apply WF_subscribe; [solve_edge | done]).
Qed.

End WellFormedSteps.

(** ** Invariants of a run *)

Section Runs.

Context (env : Env).

Lemma WF_microstep s : WF env s -> WF env (microstep env s).
Proof.
  intros Hwf. unfold microstep. destruct (queue s) as [|j rest] eqn:E; [done |].
  apply WF_run_job; [| by eapply WF_dequeue].
  assert (j ∈ queue s) as Hj by (rewrite E; by left).
  apply (wf_queue _ _ Hwf) in Hj. by destruct j.
Qed.

Lemma WF_deliver e s : WF env s -> WF env (deliver e s).
Proof.
  intros Hwf. destruct e; unfold deliver, answer; repeat case_match; wf_steps.
Qed.

Lemma WF_init : WF env (init env).
Proof.
  split; cbn; [intros p r H | intros j H]; by apply elem_of_nil in H.
Qed.

Lemma WF_start : WF env (started env).
Proof.
  pose proof WF_init as H. unfold started. unfold_module. wf_steps.
Qed.

Lemma drain_invariant (I : State -> Prop) :
  (forall s, I s -> I (microstep env s)) ->
  forall n s, I s -> I (drain env n s).
Proof.
  intros Hstep n. induction n as [|n IH]; intros s Hs; cbn [drain]; auto.
Qed.

(** An invariant established by [maybeTrackImpression] and kept by every
    microtask and by every signal delivered to an idle queue holds after
    every schedule. *)
Lemma run_invariant (I : State -> Prop) :
  I (started env) ->
  (forall s, I s -> I (microstep env s)) ->
  (forall e s, I s -> queue s = [] -> I (deliver e s)) ->
  forall schedule, I (run env schedule) /\ queue (run env schedule) = [].
Proof.
  intros Hstart Hmicro Hdeliver schedule.
  induction schedule as [|e schedule IH] using rev_ind.
  - unfold run, boot. cbn [foldl].
    split; [| apply run_microtasks_quiescent].
    unfold run_microtasks. apply (drain_invariant I Hmicro). exact Hstart.
  - unfold run in *. rewrite foldl_app. cbn [foldl]. destruct IH as [IH Hq].
    unfold step at 1.
    split; [| apply run_microtasks_quiescent].
    unfold run_microtasks. apply (drain_invariant I Hmicro).
    by apply Hdeliver.
Qed.

Lemma run_WF schedule : WF env (run env schedule).
Proof.
  refine (proj1 (run_invariant (WF env) _ _ _ schedule)).
  - exact WF_start.
  - exact WF_microstep.
  - intros e s H _. by apply WF_deliver.
Qed.

Lemma run_quiescent schedule : queue (run env schedule) = [].
Proof.
  refine (proj2 (run_invariant (fun _ => True) _ _ _ schedule)); done.
Qed.

Lemma run_snoc schedule e :
  run env (schedule ++ [e]) = step env (run env schedule) e.
Proof. unfold run. by rewrite foldl_app. Qed.

End Runs.

(** ** Frames: what a microtask or a signal leaves alone *)

Lemma cells_resolveElement_ne a i v s q :
  q <> a -> cells (resolveElement a i v s) q = cells s q.
Proof.
  intros H. unfold resolveElement. cbv zeta.
  repeat case_match; rewrite ?cells_settle_ne by done; reflexivity.
Qed.

Lemma timer_resolveElement a i v s : timer (resolveElement a i v s) = timer s.
Proof.
  unfold resolveElement. cbv zeta.
  repeat case_match; rewrite ?timer_settle; reflexivity.
Qed.

Lemma trackImpressionPromise_resolveElement a i v s :
  trackImpressionPromise (resolveElement a i v s) = trackImpressionPromise s.
Proof.
  unfold resolveElement. cbv zeta.
  repeat case_match; rewrite ?trackImpressionPromise_settle; reflexivity.
Qed.

#[local] Hint Rewrite timer_resolveElement
  trackImpressionPromise_resolveElement : proj.
#[local] Hint Rewrite cells_resolveElement_ne
  using (first [discriminate | congruence]) : proj.

(** Turns [q ∉ [p1; ...; pn]] into the inequalities [q <> pi]. *)
Ltac split_not_elem :=
  repeat match goal with
         | H : _ ∉ _ :: _ |- _ => apply not_elem_of_cons in H as [? H]
         | H : _ ∉ [] |- _ => clear H
         end.

(** *** Rules for [mrel] *)

Section MRel.

Context (R : State -> State -> Prop).
Context (R_refl : forall s, R s s).
Context (R_trans : forall s1 s2 s3, R s1 s2 -> R s2 s3 -> R s1 s3).

Lemma mrel_ret {A : Type} (a : A) : mrel R (ret a).
Proof. intros s. apply R_refl. Qed.

Lemma mrel_lift {A : Type} (r : Result A) : mrel R (lift r).
Proof. intros s. apply R_refl. Qed.

Lemma mrel_get {A : Type} (f : State -> A) : mrel R (get f).
Proof. intros s. apply R_refl. Qed.

Lemma mrel_effect (f : State -> State) :
  (forall s, R s (f s)) -> mrel R (effect f).
Proof. intros H s. apply H. Qed.

Lemma mrel_bind {A B : Type} (m : M A) (k : A -> M B) :
  mrel R m -> (forall a, mrel R (k a)) -> mrel R (bind m k).
Proof.
  intros Hm Hk s. unfold bind. specialize (Hm s).
  destruct (m s) as [[a|e] s1]; cbn [snd] in *; [| done].
  eapply R_trans; [exact Hm | apply Hk].
Qed.

End MRel.

(** Decomposes [mrel R m] along the structure of [m]; [tac] proves the
    goals [R s (f s)] left by the primitives. *)
Ltac mrel_steps Hrefl Htrans tac :=
  repeat first
    [ apply (mrel_ret _ Hrefl)
    | apply (mrel_lift _ Hrefl)
    | apply (mrel_get _ Hrefl)
    | apply (mrel_bind _ Htrans); [| intros ?]
    | apply mrel_effect; intros ?; tac
    | match goal with
      | |- mrel _ (if ?c then _ else _) => destruct c eqn:?
      | |- mrel _ (match ?x with _ => _ end) => destruct x eqn:?
      end ].

Ltac unfold_code :=
  unfold call, catchWarn, joinResolve, trustResults, handleReplaceUrl,
    handleClickUrl, replaceResponse, replaceError, visibleInvoke, invoke,
    resJson, applyResponse, resolveImpression, then_, Promise_resolve,
    Promise_all, request, dev_warn, user_warn, dev_assertString, js_indexOf,
    viewer_replaceUrl, viewer_sendMessageAwaitResponse,
    viewer_whenFirstVisible, xhr_fetchJson, res_json, set_location_hash,
    history_replaceState_call, new_Image_src.

Section Frames.

Context (env : Env).

Lemma same_result_refl q s : same_result q s s.
Proof. done. Qed.

Lemma same_result_trans q s1 s2 s3 :
  same_result q s1 s2 -> same_result q s2 s3 -> same_result q s1 s3.
Proof. unfold same_result. congruence. Qed.

Lemma same_result_settle q p o s : q <> p -> same_result q s (settle p o s).
Proof. intros H. unfold same_result. by rewrite cells_settle_ne. Qed.

Lemma same_result_subscribe q p r s : same_result q s (subscribe p r s).
Proof. apply result_subscribe. Qed.

Lemma same_result_resolveElement q a i v s :
  q <> a -> same_result q s (resolveElement a i v s).
Proof. intros H. unfold same_result. by rewrite cells_resolveElement_ne. Qed.

Lemma same_result_promise_all2 q a e0 e1 s :
  same_result q s (promise_all a [e0; e1] s).
Proof. unfold same_result. rewrite promise_all2. by rewrite !result_subscribe. Qed.

Lemma same_result_cells q s s' : cells s' = cells s -> same_result q s s'.
Proof. unfold same_result. by intros ->. Qed.

Ltac same_result_prim :=
  first [ apply same_result_settle; congruence
        | apply same_result_subscribe
        | apply same_result_resolveElement; congruence
        | apply same_result_promise_all2
        | apply same_result_cells; reflexivity ].

Lemma call_result_frame h v q :
  q ∉ settles_of h -> mrel (same_result q) (call env h v).
Proof.
  intros Hq.
  destruct h; cbn [settles_of] in Hq; split_not_elem; unfold_code;
    mrel_steps (same_result_refl q) (same_result_trans q) same_result_prim.
Qed.

Lemma settle_derived_result_frame d o s q :
  d <> Some q ->
  result (cells (settle_derived d o s) q) = result (cells s q).
Proof.
  intros H. destruct d as [p|]; cbn [settle_derived]; [| done].
  rewrite cells_settle_ne; [done | congruence].
Qed.

Lemma run_job_result_frame j s q :
  q ∉ job_settles j ->
  result (cells (run_job env j s) q) = result (cells s q).
Proof.
  destruct j as [r o|p t]; cbn [job_settles run_job];
    [| intros _; apply result_subscribe].
  intros Hq.
  assert (derived r <> Some q /\ q ∉ settles_of (selected r o)) as [Hd Hs].
  { destruct (derived r); [apply not_elem_of_cons in Hq as [? ?] |];
      split; congruence. }
  pose proof (call_result_frame (selected r o) (settled_value o) q Hs s) as E.
  unfold same_result in E.
  destruct (selected r o) eqn:Es;
    [ by apply settle_derived_result_frame | .. ];
    destruct (call env _ (settled_value o) s) as [[[x|x]|x] s'];
    cbn [snd] in E; rewrite <- E;
    rewrite ?settle_derived_result_frame by done; try reflexivity;
    destruct (derived r); reflexivity.
Qed.

Lemma microstep_result_frame s j rest q :
  queue s = j :: rest -> q ∉ job_settles j ->
  result (cells (microstep env s) q) = result (cells s q).
Proof.
  intros E Hq. rewrite (microstep_cons _ _ _ _ E).
  by rewrite run_job_result_frame.
Qed.

Lemma deliver_result_frame e s q :
  q <> signal_settles e ->
  result (cells (deliver e s) q) = result (cells s q).
Proof.
  intros Hq. destruct e; cbn [signal_settles] in Hq;
    unfold deliver, answer; repeat case_match;
    rewrite ?cells_settle_ne by done; reflexivity.
Qed.

(** The timer and the session handle are not touched by microtasks. *)

Lemma same_timer_trans s1 s2 s3 :
  same_timer s1 s2 -> same_timer s2 s3 -> same_timer s1 s3.
Proof. unfold same_timer. congruence. Qed.

Lemma same_handle_trans s1 s2 s3 :
  same_handle s1 s2 -> same_handle s2 s3 -> same_handle s1 s3.
Proof. unfold same_handle. congruence. Qed.

Ltac same_field_prim :=
  first [ apply timer_settle | apply timer_subscribe
        | apply timer_resolveElement
        | apply trackImpressionPromise_settle
        | apply trackImpressionPromise_subscribe
        | apply trackImpressionPromise_resolveElement
        | (unfold same_timer, same_handle; rewrite promise_all2;
           autorewrite with proj; reflexivity)
        | reflexivity ].

Lemma call_timer h v : mrel same_timer (call env h v).
Proof.
  destruct h; unfold_code;
    mrel_steps (fun s => eq_refl (timer s)) same_timer_trans same_field_prim.
Qed.

Lemma call_handle h v : mrel same_handle (call env h v).
Proof.
  destruct h; unfold_code;
    mrel_steps (fun s => eq_refl (trackImpressionPromise s))
               same_handle_trans same_field_prim.
Qed.

Lemma run_job_timer j s : timer (run_job env j s) = timer s.
Proof.
  destruct j as [r o|p t]; cbn [run_job]; [| apply timer_subscribe].
  pose proof (call_timer (selected r o) (settled_value o) s) as E.
  unfold same_timer in E.
  destruct (selected r o) eqn:Es;
    [ unfold settle_derived; case_match; by rewrite ?timer_settle | .. ];
    destruct (call env _ (settled_value o) s) as [[[x|x]|x] s'];
    cbn [snd] in E; rewrite <- E; unfold settle_derived;
    destruct (derived r); by rewrite ?timer_settle.
Qed.

Lemma run_job_handle j s :
  trackImpressionPromise (run_job env j s) = trackImpressionPromise s.
Proof.
  destruct j as [r o|p t]; cbn [run_job];
    [| apply trackImpressionPromise_subscribe].
  pose proof (call_handle (selected r o) (settled_value o) s) as E.
  unfold same_handle in E.
  destruct (selected r o) eqn:Es;
    [ unfold settle_derived; case_match;
      by rewrite ?trackImpressionPromise_settle | .. ];
    destruct (call env _ (settled_value o) s) as [[[x|x]|x] s'];
    cbn [snd] in E; rewrite <- E; unfold settle_derived;
    destruct (derived r); by rewrite ?trackImpressionPromise_settle.
Qed.

Lemma microstep_timer s : timer (microstep env s) = timer s.
Proof.
  unfold microstep. destruct (queue s) as [|j rest]; [done |].
  by rewrite run_job_timer.
Qed.

Lemma microstep_handle s :
  trackImpressionPromise (microstep env s) = trackImpressionPromise s.
Proof.
  unfold microstep. destruct (queue s) as [|j rest]; [done |].
  by rewrite run_job_handle.
Qed.

Lemma deliver_handle e s :
  trackImpressionPromise (deliver e s) = trackImpressionPromise s.
Proof.
  destruct e; unfold deliver, answer; repeat case_match;
    by rewrite ?trackImpressionPromise_settle.
Qed.

(** *** Progress is kept by every step *)

Lemma progress_extends p r (Done : Settled -> State -> Prop) s s' :
  extends s s' ->
  (forall o, Done o s -> Done o s') ->
  progress p r Done s -> progress p r Done s'.
Proof.
  intros Hx Hd. unfold progress.
  destruct (result (cells s p)) as [o|] eqn:E.
  - rewrite (ext_result _ _ Hx _ _ E). intros [Hj|H]; [left | right; auto].
    destruct (ext_queue _ _ Hx) as [added ->]. apply elem_of_app. by left.
  - intros Hr. destruct (ext_reactions _ _ Hx _ _ E Hr) as [[-> ?]|[o [-> ?]]];
      [done | by left].
Qed.

Lemma progress_microstep p r (Done : Settled -> State -> Prop) s :
  (forall o rest, queue s = JobReaction r o :: rest ->
                  result (cells s p) = Some o -> Done o (microstep env s)) ->
  (forall o, Done o s -> Done o (microstep env s)) ->
  progress p r Done s -> progress p r Done (microstep env s).
Proof.
  intros Hrun Hd. unfold progress.
  destruct (result (cells s p)) as [o|] eqn:E.
  - rewrite (microstep_results _ _ _ _ E). intros [Hj|H]; [| right; auto].
    destruct (queue s) as [|j rest] eqn:Eq; [by apply elem_of_nil in Hj |].
    apply elem_of_cons in Hj as [<-|Hj]; [right; eauto |].
    left. destruct (microstep_queue env s _ _ Eq) as [added ->].
    apply elem_of_app. by left.
  - intros Hr.
    destruct (microstep_reactions env s _ _ E Hr) as [[-> ?]|[o [-> ?]]];
      [done | by left].
Qed.

End Frames.

(** ** The session promise never rejects *)

Section Session.

Context (env : Env).

Lemma started_handle : trackImpressionPromise (started env) = Some P_session.
Proof. unfold started. unfold_module. by simp_state idtac. Qed.

Lemma started_timer : timer (started env) <> None.
Proof. unfold started. unfold_module. by simp_state idtac. Qed.

Lemma started_session : cells (started env) P_session = empty_cell.
Proof. unfold started. unfold_module. by simp_state idtac. Qed.

Lemma started_timeout : cells (started env) P_timeout = mkCell None [r_catch].
Proof. unfold started. unfold_module. by simp_state idtac. Qed.

Lemma result_settle_same p o s : result (cells (settle p o s) p) <> None.
Proof. rewrite cells_settle_eq. destruct (result (cells s p)) eqn:E; by rewrite ?E. Qed.

Lemma catch_job_effect s o rest :
  queue s = JobReaction r_catch o :: rest ->
  match result (cells s P_session) with
  | Some x => result (cells (microstep env s) P_session) = Some x
  | None => exists v, result (cells (microstep env s) P_session)
                      = Some (Fulfilled v)
  end.
Proof.
  intros Eq. rewrite (microstep_cons _ _ _ _ Eq).
  destruct o as [v|e]; cbn [run_job selected r_catch onFulfilled onRejected
                             derived settled_value settle_derived];
    unfold_module; rewrite cells_settle_eq; simp_proj;
    destruct (result (cells s P_session)) eqn:E; rewrite ?E; eauto.
Qed.

Lemma session_fulfilled_microstep s :
  WF env s ->
  (forall o, result (cells s P_session) = Some o -> exists v, o = Fulfilled v) ->
  forall o, result (cells (microstep env s) P_session) = Some o ->
            exists v, o = Fulfilled v.
Proof.
  intros Hwf IH o Ho. destruct (result (cells s P_session)) as [x|] eqn:E.
  { rewrite (microstep_results _ _ _ _ E) in Ho. apply IH. congruence. }
  destruct (queue s) as [|j rest] eqn:Eq.
  { rewrite microstep_idle in Ho by done. congruence. }
  destruct (decide (P_session ∈ job_settles j)) as [Hin|Hout].
  - assert (j ∈ queue s) as Hj by (rewrite Eq; by left).
    apply (wf_queue _ _ Hwf) in Hj.
    destruct j as [r o0|p t]; cbn [job_ok job_settles] in *;
      [| by apply elem_of_nil in Hin].
    destruct Hj as [p [He Hp]].
    assert (r = r_catch) as ->.
    { inversion He; subst; try reflexivity; exfalso; destruct o0;
        cbn in Hin;
        repeat (apply elem_of_cons in Hin as [Hin|Hin]; [discriminate |]);
        by apply elem_of_nil in Hin. }
    pose proof (catch_job_effect s o0 rest Eq) as Hc. rewrite E in Hc.
    destruct Hc as [v Hv]. exists v. congruence.
  - rewrite (microstep_result_frame _ _ _ _ _ Eq Hout) in Ho. congruence.
Qed.

Lemma session_settled_stable o s :
  session_settled o s -> session_settled o (microstep env s).
Proof.
  unfold session_settled. destruct (result (cells s P_session)) eqn:E; [| done].
  intros _. by rewrite (microstep_results _ _ _ _ E).
Qed.

Lemma SessionInv_started : SessionInv env (started env).
Proof.
  split.
  - apply WF_start.
  - apply started_handle.
  - intros _. apply started_timer.
  - rewrite started_session. discriminate.
  - unfold progress. rewrite started_timeout. cbn. by left.
Qed.

Lemma SessionInv_microstep s : SessionInv env s -> SessionInv env (microstep env s).
Proof.
  intros [Hwf Hh Ht Hf Hc]. split.
  - by apply WF_microstep.
  - by rewrite microstep_handle.
  - rewrite microstep_timer. intros Hn. apply Ht.
    destruct (result (cells s P_timeout)) eqn:E; [| done].
    by rewrite (microstep_results _ _ _ _ E) in Hn.
  - by apply session_fulfilled_microstep.
  - apply progress_microstep;
      [| intros o; apply session_settled_stable | done].
    intros o rest Eq _. unfold session_settled.
    pose proof (catch_job_effect s o rest Eq) as H.
    destruct (result (cells s P_session)); [congruence |].
    destruct H as [v ->]. done.
Qed.

Lemma SessionInv_deliver e s : SessionInv env s -> SessionInv env (deliver e s).
Proof.
  intros [Hwf Hh Ht Hf Hc]. split.
  - by apply WF_deliver.
  - by rewrite deliver_handle.
  - assert (e = TimerFires \/ e <> TimerFires) as [->|Hne]
      by (destruct e; auto).
    + unfold deliver. destruct (timer s) as [[d m]|] eqn:E.
      * intros Hn. by apply result_settle_same in Hn.
      * intros Hn. specialize (Ht Hn). congruence.
    + assert (timer (deliver e s) = timer s) as ->.
      { destruct e; try done; unfold deliver, answer; repeat case_match;
          by rewrite ?timer_settle. }
      rewrite deliver_result_frame; [done |].
      destruct e; cbn [signal_settles]; congruence.
  - rewrite deliver_result_frame by (by destruct e). done.
  - eapply progress_extends; [apply deliver_extends | | done].
    intros o. unfold session_settled.
    rewrite deliver_result_frame by (by destruct e). done.
Qed.

Lemma run_SessionInv schedule : SessionInv env (run env schedule).
Proof.
  refine (proj1 (run_invariant env (SessionInv env) _ _ _ schedule)).
  - exact SessionInv_started.
  - exact SessionInv_microstep.
  - intros e s H _. by apply SessionInv_deliver.
Qed.

(** Settled promises stay settled along a run. *)
Lemma drain_results n s q o :
  result (cells s q) = Some o -> result (cells (drain env n s) q) = Some o.
Proof.
  revert s. induction n as [|n IH]; intros s H; cbn [drain]; [done |].
  by apply IH, microstep_results.
Qed.

Lemma step_results s e q o :
  result (cells s q) = Some o -> result (cells (step env s e) q) = Some o.
Proof.
  intros H. unfold step, run_microtasks. apply drain_results.
  by apply (ext_result _ _ (deliver_extends e s)).
Qed.

Lemma foldl_step_results schedule s q o :
  result (cells s q) = Some o ->
  result (cells (foldl (step env) s schedule) q) = Some o.
Proof.
  revert s. induction schedule as [|e schedule IH]; intros s H; cbn [foldl];
    [done |].
  by apply IH, step_results.
Qed.

Lemma run_app schedule more :
  run env (schedule ++ more) = foldl (step env) (run env schedule) more.
Proof. unfold run. by rewrite foldl_app. Qed.

(** Once the timer has fired, the timeout promise is settled. *)
Lemma timer_fired_timeout s :
  SessionInv env s -> result (cells (deliver TimerFires s) P_timeout) <> None.
Proof.
  intros [_ _ Ht _ _]. unfold deliver.
  destruct (timer s) as [[d m]|] eqn:E.
  - apply result_settle_same.
  - intros Hn. by apply Ht.
Qed.

Lemma session_after_timer schedule :
  is_fulfilled (state_of (run env (schedule ++ [TimerFires])) P_session).
Proof.
  rewrite run_snoc.
  pose proof (run_SessionInv schedule) as Hinv.
  pose proof (timer_fired_timeout _ Hinv) as Hto.
  destruct (result (cells (deliver TimerFires (run env schedule)) P_timeout))
    as [o|] eqn:E; [| done].
  pose proof (step_results (run env schedule) TimerFires) as Hmono.
  pose proof (run_SessionInv (schedule ++ [TimerFires])) as Hinv'.
  pose proof (run_quiescent env (schedule ++ [TimerFires])) as Hq.
  rewrite run_snoc in Hinv', Hq.
  assert (result (cells (step env (run env schedule) TimerFires) P_timeout)
          = Some o) as Ho.
  { unfold step, run_microtasks. by apply drain_results. }
  destruct Hinv' as [_ _ _ Hf Hc]. unfold progress in Hc.
  rewrite Ho, Hq in Hc. destruct Hc as [Hc|Hc]; [by apply elem_of_nil in Hc |].
  unfold session_settled in Hc. unfold is_fulfilled, state_of.
  destruct (result (cells (step env (run env schedule) TimerFires) P_session))
    as [x|] eqn:Ex; [| done].
  destruct (Hf x eq_refl) as [v ->]. by exists v.
Qed.

End Session.

(** ** Frames of whole jobs *)

Section JobRel.

Context (env : Env) (R : State -> State -> Prop).
Context (R_refl : forall s, R s s).
Context (R_trans : forall s1 s2 s3, R s1 s2 -> R s2 s3 -> R s1 s3).
Context (quiet : Handler -> Prop).
Context (R_call : forall h v, quiet h -> mrel R (call env h v)).
Context (R_settle : forall p o s, R s (settle p o s)).
Context (R_thenable : forall p q s, R s (enqueue [JobResolveThenable p q] s)).

Lemma settle_derived_rel d o s : R s (settle_derived d o s).
Proof. destruct d; cbn [settle_derived]; auto. Qed.

Lemma run_job_rel r o s :
  selected r o = H_undefined \/ quiet (selected r o) ->
  R s (run_job env (JobReaction r o) s).
Proof.
  intros Hq. cbn [run_job].
  destruct (selected r o) eqn:Es; [apply settle_derived_rel | ..];
    (destruct Hq as [Hq|Hq]; [discriminate |]);
    pose proof (R_call _ (settled_value o) Hq s) as E;
    destruct (call env _ (settled_value o) s) as [[[x|x]|x] s'];
    cbn [snd] in E; (eapply R_trans; [exact E |]);
    try apply settle_derived_rel; destruct (derived r); auto.
Qed.

End JobRel.

Lemma alls_resolveElement_ne a i v s b :
  b <> a -> alls (resolveElement a i v s) b = alls s b.
Proof.
  intros H. unfold resolveElement. cbv zeta.
  repeat case_match; rewrite ?alls_settle; cbn [alls with_alls];
    rewrite ?upd_ne by done; reflexivity.
Qed.

Lemma locals_resolveElement a i v s :
  same_locals s (resolveElement a i v s).
Proof.
  unfold same_locals, resolveElement. cbv zeta.
  repeat case_match;
    rewrite ?replaceUrlPromise_settle, ?clickUrlPromise_settle,
      ?location_hash_settle; done.
Qed.

Lemma trace_resolveElement a i v s : trace (resolveElement a i v s) = trace s.
Proof.
  unfold resolveElement. cbv zeta.
  repeat case_match; rewrite ?trace_settle; done.
Qed.

Section JobFrames.

Context (env : Env).

(** *** The record of a [Promise.all] *)

Lemma same_alls_trans a s1 s2 s3 :
  same_alls a s1 s2 -> same_alls a s2 s3 -> same_alls a s1 s3.
Proof. unfold same_alls. congruence. Qed.

Ltac same_alls_prim :=
  first [ (rewrite alls_settle; reflexivity)
        | (rewrite alls_subscribe; reflexivity)
        | (apply alls_resolveElement_ne; congruence)
        | (unfold same_alls; rewrite promise_all2, !alls_subscribe;
           cbn [alls with_alls]; rewrite upd_ne by congruence; reflexivity)
        | reflexivity ].

Lemma call_same_alls a h v :
  a ∉ alls_of h -> mrel (same_alls a) (call env h v).
Proof.
  intros Ha.
  destruct h; cbn [alls_of] in Ha; split_not_elem; unfold_code;
    mrel_steps (fun s => eq_refl (alls s a)) (same_alls_trans a)
               ltac:(unfold same_alls; same_alls_prim).
Qed.

Lemma run_job_same_alls a r o s :
  a ∉ alls_of (selected r o) ->
  alls (run_job env (JobReaction r o) s) a = alls s a.
Proof.
  intros Ha.
  apply (run_job_rel env (same_alls a) (fun s => eq_refl (alls s a))
           (same_alls_trans a) (fun h => a ∉ alls_of h)).
  - intros h v Hh. by apply call_same_alls.
  - intros p x s0. unfold same_alls. by rewrite alls_settle.
  - done.
  - destruct (selected r o); auto.
Qed.

(** *** The variables of the trust callback, and the location *)

Lemma same_locals_refl s : same_locals s s.
Proof. done. Qed.

Lemma same_locals_trans s1 s2 s3 :
  same_locals s1 s2 -> same_locals s2 s3 -> same_locals s1 s3.
Proof. unfold same_locals. intros (-> & -> & ->) (-> & -> & ->). done. Qed.

Lemma same_locals_settle p o s : same_locals s (settle p o s).
Proof.
  unfold same_locals.
  by rewrite replaceUrlPromise_settle, clickUrlPromise_settle,
    location_hash_settle.
Qed.

Lemma same_locals_subscribe p r s : same_locals s (subscribe p r s).
Proof.
  unfold same_locals.
  by rewrite replaceUrlPromise_subscribe, clickUrlPromise_subscribe,
    location_hash_subscribe.
Qed.

Ltac same_locals_prim :=
  first [ apply same_locals_settle | apply same_locals_subscribe
        | apply locals_resolveElement | (split; [| split]; reflexivity) ].

Lemma call_same_locals h v :
  h <> H_trustResults -> mrel same_locals (call env h v).
Proof.
  intros Hh. destruct h; try done; unfold_code;
    mrel_steps same_locals_refl same_locals_trans same_locals_prim.
Qed.

Lemma run_job_same_locals r o s :
  selected r o <> H_trustResults ->
  same_locals s (run_job env (JobReaction r o) s).
Proof.
  intros Hh.
  apply (run_job_rel env same_locals same_locals_refl same_locals_trans
           (fun h => h <> H_trustResults)).
  - intros h v H. by apply call_same_locals.
  - apply same_locals_settle.
  - done.
  - by right.
Qed.

(** *** Census *)

Section CensusLe.

Context (w : Reaction -> nat).

Lemma census_le_refl s : census_le w s s.
Proof. unfold census_le. lia. Qed.

Lemma census_le_trans s1 s2 s3 :
  census_le w s1 s2 -> census_le w s2 s3 -> census_le w s1 s3.
Proof. unfold census_le. lia. Qed.

Lemma census_le_fields s s' :
  cells s' = cells s -> queue s' = queue s -> census_le w s s'.
Proof. intros Hc Hq. unfold census_le, census. rewrite Hc, Hq. lia. Qed.

Lemma census_le_settle p o s : census_le w s (settle p o s).
Proof. unfold census_le. rewrite census_settle. lia. Qed.

Lemma census_le_subscribe p r s : w r = 0 -> census_le w s (subscribe p r s).
Proof. intros H. unfold census_le. rewrite census_subscribe. lia. Qed.

Lemma census_le_resolveElement a i v s :
  census_le w s (resolveElement a i v s).
Proof. unfold census_le. rewrite census_resolveElement. lia. Qed.

Lemma census_le_promise_all2 a e0 e1 s :
  w (r_element a 0) = 0 -> w (r_element a 1) = 0 ->
  census_le w s (promise_all a [e0; e1] s).
Proof.
  intros H0 H1. unfold census_le. rewrite promise_all2, !census_subscribe.
  rewrite census_with_alls. lia.
Qed.

Lemma census_le_thenable p q s :
  census_le w s (enqueue [JobResolveThenable p q] s).
Proof. unfold census_le. rewrite census_enqueue. cbn. lia. Qed.

Lemma call_census_le h v :
  (forall r, r ∈ spawns env h -> w r = 0) -> mrel (census_le w) (call env h v).
Proof.
  intros Hw.
  destruct h; cbn [spawns] in Hw;
    unfold r_replace, r_visible, r_apply, r_resJson, r_join, r_element in Hw;
    unfold_code;
    mrel_steps census_le_refl census_le_trans
      ltac:(first [ apply census_le_settle
                  | apply census_le_resolveElement
                  | (apply census_le_subscribe; apply Hw;
                     solve [repeat constructor])
                  | (apply census_le_promise_all2; apply Hw;
                     solve [repeat constructor])
                  | (apply census_le_fields; reflexivity) ]).
Qed.

Lemma run_job_census_le r o s :
  (forall x, x ∈ spawns env (selected r o) -> w x = 0) ->
  census w 0 (run_job env (JobReaction r o) s) <= census w 0 s.
Proof.
  intros Hw.
  apply (run_job_rel env (census_le w) census_le_refl census_le_trans
           (fun h => forall x, x ∈ spawns env h -> w x = 0)).
  - intros h v H. by apply call_census_le.
  - apply census_le_settle.
  - apply census_le_thenable.
  - by right.
Qed.

End CensusLe.

(** *** Additions to the trace *)

Section TraceAdds.

Context (P : Event -> bool).

Lemma trace_adds_refl s : trace_adds P s s.
Proof. exists []. by rewrite app_nil_r. Qed.

Lemma trace_adds_trans s1 s2 s3 :
  trace_adds P s1 s2 -> trace_adds P s2 s3 -> trace_adds P s1 s3.
Proof.
  intros [a1 [E1 F1]] [a2 [E2 F2]]. exists (a1 ++ a2). split.
  - by rewrite E2, E1, app_assoc.
  - by rewrite forallb_app, F1, F2.
Qed.

Lemma trace_adds_same s s' : trace s' = trace s -> trace_adds P s s'.
Proof. intros H. exists []. by rewrite H, app_nil_r. Qed.

Lemma trace_adds_log e s : P e = true -> trace_adds P s (log e s).
Proof. intros H. exists [e]. split; [done |]. cbn. by rewrite H. Qed.

Lemma trace_adds_log_with e s f :
  P e = true -> trace (f s) = trace s -> trace_adds P s (log e (f s)).
Proof. intros H Hf. exists [e]. cbn. by rewrite Hf, H. Qed.

End TraceAdds.

Ltac trace_adds_prim :=
  first [ (apply trace_adds_log; reflexivity)
        | (apply trace_adds_log_with; reflexivity)
        | (apply trace_adds_same;
           first [ apply trace_settle | apply trace_subscribe
                 | apply trace_resolveElement
                 | (rewrite promise_all2, !trace_subscribe; reflexivity)
                 | reflexivity ]) ].

Lemma call_no_fetch h v :
  (forall c, h <> H_visibleInvoke c) ->
  mrel (trace_adds (fun e => negb (is_fetch e))) (call env h v).
Proof.
  intros Hh. destruct h; try (by destruct (Hh clickUrl)); unfold_code;
    mrel_steps (trace_adds_refl (fun e => negb (is_fetch e)))
               (trace_adds_trans (fun e => negb (is_fetch e)))
               trace_adds_prim.
Qed.

Lemma call_no_click_setup h v :
  h <> H_trustResults ->
  mrel (trace_adds (fun e => negb (is_click_setup e))) (call env h v).
Proof.
  intros Hh. destruct h; try done; unfold_code;
    mrel_steps (trace_adds_refl (fun e => negb (is_click_setup e)))
               (trace_adds_trans (fun e => negb (is_click_setup e)))
               trace_adds_prim.
Qed.

End JobFrames.

(** ** What each job does *)

Lemma cells_clear_hash s : cells (clear_hash s) = cells s.
Proof. unfold clear_hash. by case_match. Qed.
Lemma alls_clear_hash s : alls (clear_hash s) = alls s.
Proof. unfold clear_hash. by case_match. Qed.
Lemma queue_clear_hash s : queue (clear_hash s) = queue s.
Proof. unfold clear_hash. by case_match. Qed.
Lemma timer_clear_hash s : timer (clear_hash s) = timer s.
Proof. unfold clear_hash. by case_match. Qed.
Lemma outstanding_clear_hash s : outstanding (clear_hash s) = outstanding s.
Proof. unfold clear_hash. by case_match. Qed.
Lemma trackImpressionPromise_clear_hash s :
  trackImpressionPromise (clear_hash s) = trackImpressionPromise s.
Proof. unfold clear_hash. by case_match. Qed.
Lemma replaceUrlPromise_clear_hash s :
  replaceUrlPromise (clear_hash s) = replaceUrlPromise s.
Proof. unfold clear_hash. by case_match. Qed.
Lemma clickUrlPromise_clear_hash s :
  clickUrlPromise (clear_hash s) = clickUrlPromise s.
Proof. unfold clear_hash. by case_match. Qed.
Lemma location_hash_clear_hash s : location_hash (clear_hash s) = "".
Proof.
  unfold clear_hash. cbn [truthy].
  destruct (String.eqb_spec (location_hash s) ""); cbn [negb]; done.
Qed.
Lemma trace_clear_hash s :
  trace (clear_hash s)
  = trace s ++ (if truthy (JStr (location_hash s))
                then [EvSetLocationHash ""] else []).
Proof. unfold clear_hash. case_match; [done | by rewrite app_nil_r]. Qed.

#[local] Hint Rewrite cells_clear_hash alls_clear_hash queue_clear_hash
  timer_clear_hash outstanding_clear_hash trackImpressionPromise_clear_hash
  replaceUrlPromise_clear_hash clickUrlPromise_clear_hash
  location_hash_clear_hash trace_clear_hash : proj.

Section Effects.

Context (env : Env).

Lemma eff_race o s : run_job env (JobReaction r_race o) s = settle P_timeout o s.
Proof. by destruct o. Qed.

Lemma eff_catch o s :
  run_job env (JobReaction r_catch o) s
  = match o with
    | Fulfilled v => settle P_session (Fulfilled v) s
    | Rejected e =>
        settle P_session (Fulfilled JUndefined)
               (log (EvDevWarn "IMPRESSION" [e]) s)
    end.
Proof. by destruct o. Qed.

Lemma eff_element a i o s :
  run_job env (JobReaction (r_element a i) o) s
  = match o with
    | Fulfilled v => resolveElement a i v s
    | Rejected e => settle a (Rejected e) s
    end.
Proof. by destruct o. Qed.

Lemma eff_join o s :
  run_job env (JobReaction r_join o) s
  = match o with
    | Fulfilled _ =>
        settle P_joinThen (Fulfilled JUndefined)
               (settle P_promise (Fulfilled JUndefined) s)
    | Rejected _ => settle P_joinThen (Fulfilled JUndefined) s
    end.
Proof. by destruct o. Qed.

Lemma eff_adopt p o s : run_job env (JobReaction (r_adopt p) o) s = settle p o s.
Proof. by destruct o. Qed.

Lemma eff_thenable p q s :
  run_job env (JobResolveThenable p q) s = subscribe q (r_adopt p) s.
Proof. reflexivity. Qed.

Lemma eff_replace o s :
  run_job env (JobReaction r_replace o) s
  = settle P_replaceAsync (Fulfilled JUndefined)
           (log (replace_outcome_event o) s).
Proof.
  destruct o as [response|err]; [| reflexivity].
  cbn [run_job selected r_replace onFulfilled derived settled_value call].
  unfold replaceResponse, replace_outcome_event, well_formed_response, js_field.
  destruct (truthy response) eqn:E1; destruct (typeof_object response) eqn:E2;
    cbn [negb orb andb]; try reflexivity.
  destruct response; try discriminate; reflexivity.
Qed.

(** *** The steps *)

Lemma getParam_truthy name :
  truthy (getParam env name) = true ->
  exists c, getParam env name = JStr c.
Proof. unfold getParam. destruct (viewer_params env !! name); [eauto | done]. Qed.

Lemma handleReplaceUrl_eq s :
  handleReplaceUrl env s = (Ok (replace_promise env), replace_step env s).
Proof.
  unfold handleReplaceUrl, replace_step, replace_promise.
  destruct (truthy (getParam env "replaceUrl")); cbn [negb]; [| reflexivity].
  destruct (hasCapability env "replaceUrl"); reflexivity.
Qed.

Lemma handleClickUrl_eq s :
  handleClickUrl env s = (Ok (click_promise env), click_step env s).
Proof.
  unfold handleClickUrl, click_step, click_promise, click_index, clear_hash.
  destruct (truthy (getParam env "click")) eqn:Et; cbn [negb]; [| reflexivity].
  destruct (getParam_truthy _ Et) as [c ->].
  unfold_module.
  destruct (Z.eqb (indexOf c "https://") 0); cbn [negb]; [| reflexivity].
  destruct (truthy (JStr (location_hash s))); reflexivity.
Qed.

Lemma trust_call results s :
  call env H_trustResults results s
  = match decision env results with
    | Throws e => (Throw e, s)
    | Skips => (Ok (RVal JUndefined), settle P_promise (Fulfilled JUndefined) s)
    | Starts => (Ok (RVal JUndefined), start_steps env s)
    end.
Proof.
  cbn [call]. unfold trustResults, decision.
  unfold bind at 1. unfold lift at 1.
  destruct (js_index results 0) as [a|e]; [| reflexivity].
  unfold bind at 1. unfold lift at 1.
  destruct (js_index results 1) as [b|e]; [| reflexivity].
  destruct (negb (truthy a) && negb (truthy b)
            && negb (isExperimentOn env "alp")); [reflexivity |].
  unfold bind at 1. rewrite handleReplaceUrl_eq.
  unfold bind at 1. unfold effect at 1.
  unfold bind at 1. rewrite handleClickUrl_eq.
  reflexivity.
Qed.

Lemma eff_trust o s :
  run_job env (JobReaction r_trust o) s
  = match o with
    | Rejected e => settle P_trustThen (Rejected e) s
    | Fulfilled results =>
        match decision env results with
        | Throws e => settle P_trustThen (Rejected e) s
        | Skips =>
            settle P_trustThen (Fulfilled JUndefined)
                   (settle P_promise (Fulfilled JUndefined) s)
        | Starts =>
            settle P_trustThen (Fulfilled JUndefined) (start_steps env s)
        end
    end.
Proof.
  destruct o as [results|e]; [| reflexivity].
  cbn [run_job selected r_trust onFulfilled derived settled_value].
  rewrite trust_call. by destruct (decision env results).
Qed.

End Effects.

(** ** The trust callback runs once *)

Lemma sum_weights_elem {A : Type} (w : A -> nat) (l : list A) (a : A) :
  a ∈ l -> w a <= sum_weights w l.
Proof.
  induction l as [|b l IH]; [by intros ?%elem_of_nil |].
  unfold sum_weights in *. cbn [foldr].
  intros [->|H]%elem_of_cons; [lia |]. specialize (IH H). lia.
Qed.

Lemma census_ge_job w t s j : j ∈ queue s -> job_census w t j <= census w t s.
Proof.
  intros H. unfold census.
  pose proof (sum_weights_elem (job_census w t) _ _ H). lia.
Qed.

(** Classification of the job at the head of the queue of a well-formed
    state. *)
Lemma wf_head env s j rest : WF env s -> queue s = j :: rest -> job_ok env s j.
Proof. intros Hwf E. apply (wf_queue _ _ Hwf). rewrite E. by left. Qed.

Ltac head_job Hwf Eq :=
  let Hj := fresh "Hj" in
  let He := fresh "He" in
  pose proof (wf_head _ _ _ _ Hwf Eq) as Hj;
  match type of Eq with
  | queue _ = ?j :: _ =>
      destruct j as [?r ?o|?p ?t]; cbn [job_ok] in Hj;
      [ destruct Hj as [?src [He ?Hsrc]]; inversion He; subst
      | destruct Hj as [?Hc [[-> ->]|[-> ->]]] ]
  end.

Section TrustOnce.

Context (env : Env).

Lemma spawns_no_trust h r : r ∈ spawns env h -> w_trust r = 0.
Proof.
  destruct h; cbn [spawns]; intros H;
    repeat (apply elem_of_cons in H as [->|H]; [reflexivity |]);
    by apply elem_of_nil in H.
Qed.

Lemma trustThen_settled_by j :
  P_trustThen ∈ job_settles j ->
  forall s, job_ok env s j -> exists o, j = JobReaction r_trust o.
Proof.
  intros Hin s Hj. destruct j as [r o|p t]; cbn [job_ok job_settles] in *;
    [| by apply elem_of_nil in Hin].
  destruct Hj as [p [He Hp]]. exists o. f_equal.
  inversion He; subst; try reflexivity; exfalso; destruct o; cbn in Hin;
    repeat (apply elem_of_cons in Hin as [Hin|Hin]; [discriminate |]);
    by apply elem_of_nil in Hin.
Qed.

Lemma trust_job_settles_then o s :
  result (cells (run_job env (JobReaction r_trust o) s) P_trustThen) <> None.
Proof.
  rewrite eff_trust. destruct o as [x|e]; [destruct (decision env x) |];
    apply result_settle_same.
Qed.

Lemma TrustOnce_started : TrustOnce (started env).
Proof.
  unfold TrustOnce, started. unfold_module.
  rewrite cells_subscribe_ne by discriminate. rewrite promise_all2.
  autorewrite with census proj. simp_proj.
  autorewrite with census proj. simp_proj. cbn. lia.
Qed.

Lemma TrustOnce_microstep s :
  WF env s -> TrustOnce s -> TrustOnce (microstep env s).
Proof.
  intros Hwf Hu. unfold TrustOnce in *.
  destruct (queue s) as [|j rest] eqn:Eq; [by rewrite microstep_idle |].
  rewrite (microstep_cons _ _ _ _ Eq).
  pose proof (census_dequeue w_trust 0 j rest s Eq) as Hd.
  pose proof (wf_head _ _ _ _ Hwf Eq) as Hj.
  assert (census w_trust 0 (run_job env j (with_queue rest s))
          <= census w_trust 0 (with_queue rest s)) as Hc.
  { destruct j as [r o|p t].
    - apply run_job_census_le. intros x. apply spawns_no_trust.
    - rewrite eff_thenable, census_subscribe. cbn. lia. }
  destruct (decide (P_trustThen ∈ job_settles j)) as [Hin|Hout].
  - destruct (trustThen_settled_by _ Hin _ Hj) as [o ->].
    cbn [job_census w_trust r_trust onFulfilled] in Hd.
    destruct (result (cells (run_job env (JobReaction r_trust o)
                               (with_queue rest s)) P_trustThen));
      cbn [settled_count]; lia.
  - rewrite run_job_result_frame by done. cbn [with_queue cells]. lia.
Qed.

Lemma TrustOnce_deliver e s : TrustOnce s -> TrustOnce (deliver e s).
Proof.
  unfold TrustOnce. intros Hu.
  rewrite deliver_result_frame by (by destruct e).
  assert (census w_trust 0 (deliver e s) = census w_trust 0 s) as ->; [| done].
  destruct e; unfold deliver, answer; repeat case_match;
    by rewrite ?census_settle.
Qed.

(** While the promise of line 71 is settled, no job is the trust job. *)
Lemma no_trust_job s o rest :
  TrustOnce s -> queue s = JobReaction r_trust o :: rest ->
  result (cells s P_trustThen) = None.
Proof.
  unfold TrustOnce. intros Hu Eq.
  pose proof (census_ge_job w_trust 0 s (JobReaction r_trust o)) as H.
  rewrite Eq in H. specialize (H ltac:(by left)). cbn in H.
  destruct (result (cells s P_trustThen)); [cbn in Hu; lia | done].
Qed.

End TrustOnce.

(** ** Before the steps are started *)

Section BeforeSteps.

Context (env : Env).

Lemma replace_promise_cases :
  replace_promise env = P_replaceNoParam \/ replace_promise env = P_replaceLegacy
  \/ replace_promise env = P_replaceAsync.
Proof. unfold replace_promise. repeat case_match; auto. Qed.

Lemma click_promise_cases :
  click_promise env = P_clickNoParam \/ click_promise env = P_clickInvalid
  \/ click_promise env = P_clickUrl.
Proof. unfold click_promise. repeat case_match; auto. Qed.

(** On the promises of lines 56-71 only the reactions of those lines are
    registered. *)
Lemma trust_cell_reactions s p r :
  WF env s -> p ∈ trust_cells -> p <> P_firstVisible ->
  r ∈ reactions (cells s p) -> pre_trust_reaction r.
Proof.
  intros Hwf Hp Hv Hr. destruct (wf_reactions _ _ Hwf _ _ Hr) as [He _].
  unfold pre_trust_reaction.
  pose proof replace_promise_cases as Hrp.
  pose proof click_promise_cases as Hcp.
  inversion He; subst; auto; exfalso;
    repeat (apply elem_of_cons in Hp as [Hp|Hp];
            [first [discriminate | congruence | (destruct Hrp as [?|[?|?]]; congruence)
                   | (destruct Hcp as [?|[?|?]]; congruence)] |]);
    by apply elem_of_nil in Hp.
Qed.

Lemma NoSteps_settle p o s :
  WF env s -> p ∈ trust_cells -> NoSteps env s -> NoSteps env (settle p o s).
Proof.
  intros Hwf Hp [Hc Hv Ha Hk Hh Ht Hq Ho]. split.
  - intros q Hq'. rewrite cells_settle_ne; [by apply Hc |].
    intros ->. clear -Hp Hq'. unfold trust_cells, step_cells in *.
    repeat (apply elem_of_cons in Hp as [->|Hp];
            [ repeat (apply elem_of_cons in Hq' as [Hq'|Hq']; [discriminate |]);
              by apply elem_of_nil in Hq' |]).
    by apply elem_of_nil in Hp.
  - destruct (decide (p = P_firstVisible)) as [->|Hne].
    + rewrite cells_settle_eq. by destruct (result (cells s P_firstVisible)).
    + by rewrite cells_settle_ne.
  - by rewrite alls_settle.
  - by rewrite clickUrlPromise_settle.
  - by rewrite location_hash_settle.
  - by rewrite trace_settle.
  - rewrite queue_settle. intros j [Hj|Hj]%elem_of_app; [by apply Hq |].
    destruct (result (cells s p)) eqn:E; [by apply elem_of_nil in Hj |].
    apply list_elem_of_In, in_map_iff in Hj as [r [<- Hr%list_elem_of_In]].
    exists r, o. split; [done |].
    destruct (decide (p = P_firstVisible)) as [->|Hne];
      [rewrite Hv in Hr; by apply elem_of_nil in Hr |].
    by eapply trust_cell_reactions.
  - by rewrite outstanding_settle.
Qed.

Lemma NoSteps_fields s s' :
  cells s' = cells s -> alls s' P_joinAll = alls s P_joinAll ->
  clickUrlPromise s' = clickUrlPromise s ->
  location_hash s' = location_hash s ->
  (exists e, negb (is_step_event e) = true /\ trace s' = trace s ++ [e])
  \/ trace s' = trace s ->
  queue s' = queue s -> outstanding s' = outstanding s ->
  NoSteps env s -> NoSteps env s'.
Proof.
  intros Ec Ea Ek Eh Et Eq Eo [Hc Hv Ha Hk Hh Ht Hq Ho].
  split; rewrite ?Ec, ?Ea, ?Ek, ?Eh, ?Eq, ?Eo; try done.
  destruct Et as [[e [He ->]]| ->]; [| done].
  rewrite forallb_app, Ht. cbn. by rewrite He.
Qed.

Lemma NoSteps_log e s :
  is_step_event e = false -> NoSteps env s -> NoSteps env (log e s).
Proof.
  intros He. apply NoSteps_fields; try done. left. exists e. by rewrite He.
Qed.

Lemma NoSteps_dequeue j rest s :
  queue s = j :: rest -> NoSteps env s -> NoSteps env (with_queue rest s).
Proof.
  intros Eq [Hc Hv Ha Hk Hh Ht Hq Ho]. split; try done.
  cbn [with_queue queue]. intros k Hk'. apply Hq. rewrite Eq. by right.
Qed.

Lemma NoSteps_resolveElement i v s :
  WF env s -> NoSteps env s -> NoSteps env (resolveElement P_trustAll i v s).
Proof.
  intros Hwf Hn. unfold resolveElement. cbv zeta.
  assert (forall f, f P_joinAll = alls s P_joinAll ->
                    NoSteps env (with_alls f s)) as Hw.
  { intros f Hf. revert Hn. apply NoSteps_fields; try done. by right. }
  repeat case_match; try done.
  - apply NoSteps_settle.
    + by apply WF_with_alls.
    + unfold trust_cells. set_solver.
    + apply Hw. by rewrite upd_ne.
  - apply Hw. by rewrite upd_ne.
Qed.

Lemma replaceUrlPromise_start_steps s :
  replaceUrlPromise (start_steps env s) = Some (replace_promise env).
Proof.
  unfold start_steps. rewrite promise_all2. simp_state idtac.
  unfold click_step.
  destruct (click_promise env); simp_state idtac; reflexivity.
Qed.

Lemma run_job_replaceUrlPromise j s :
  replaceUrlPromise (run_job env j s) = replaceUrlPromise s
  \/ replaceUrlPromise (run_job env j s) = Some (replace_promise env).
Proof.
  destruct j as [r o|p t];
    [| left; rewrite eff_thenable; by rewrite replaceUrlPromise_subscribe].
  assert (selected r o = H_trustResults \/ selected r o <> H_trustResults)
    as [Es|Es] by (destruct (selected r o); auto).
  2: { left. by apply (run_job_same_locals env r o s). }
  cbn [run_job]. rewrite Es, trust_call.
  destruct (decision env (settled_value o)); destruct (derived r);
    cbn [settle_derived];
    rewrite ?replaceUrlPromise_settle, ?replaceUrlPromise_start_steps; auto.
Qed.

Lemma microstep_replaceUrlPromise s :
  replaceUrlPromise (microstep env s) = replaceUrlPromise s
  \/ replaceUrlPromise (microstep env s) = Some (replace_promise env).
Proof.
  unfold microstep. destruct (queue s) as [|j rest]; [by left |].
  apply (run_job_replaceUrlPromise j (with_queue rest s)).
Qed.

Lemma Pre_started : Pre env (started env).
Proof.
  intros _. unfold started. unfold_module. rewrite promise_all2. split.
  - intros q Hq.
    repeat (apply elem_of_cons in Hq as [->|Hq];
            [by autorewrite with proj; simp_proj |]).
    by apply elem_of_nil in Hq.
  - by autorewrite with proj; simp_proj.
  - autorewrite with proj. simp_proj. by rewrite upd_ne.
  - by autorewrite with proj; simp_proj.
  - by autorewrite with proj; simp_proj.
  - by autorewrite with proj; simp_proj.
  - autorewrite with proj. simp_proj. autorewrite with proj. simp_proj.
    intros j Hj. by apply elem_of_nil in Hj.
  - autorewrite with proj. simp_proj. intros q Hq.
    repeat (apply elem_of_cons in Hq as [->|Hq]; [auto |]).
    by apply elem_of_nil in Hq.
Qed.

Lemma Pre_microstep s : WF env s -> Pre env s -> Pre env (microstep env s).
Proof.
  intros Hwf Hpre Hnone.
  assert (replaceUrlPromise s = None) as Hnone0.
  { destruct (microstep_replaceUrlPromise s) as [E|E]; congruence. }
  specialize (Hpre Hnone0).
  destruct (queue s) as [|j rest] eqn:Eq; [by rewrite microstep_idle |].
  rewrite (microstep_cons _ _ _ _ Eq) in *.
  pose proof (NoSteps_dequeue _ _ _ Eq Hpre) as Hn.
  pose proof (WF_dequeue _ _ _ _ Eq Hwf) as Hwf0.
  destruct (ns_queue _ _ Hpre j) as [r [o [-> Hr]]]; [rewrite Eq; by left |].
  destruct Hr as [-> | [-> | [-> | [-> | ->]]]].
  - rewrite eff_race. apply NoSteps_settle; [done | | done].
    unfold trust_cells. set_solver.
  - rewrite eff_catch. destruct o; apply NoSteps_settle;
      try (by apply WF_log); try (unfold trust_cells; set_solver); try done.
    by apply NoSteps_log.
  - rewrite eff_element. destruct o; [by apply NoSteps_resolveElement |].
    apply NoSteps_settle; [done | | done]. unfold trust_cells. set_solver.
  - rewrite eff_element. destruct o; [by apply NoSteps_resolveElement |].
    apply NoSteps_settle; [done | | done]. unfold trust_cells. set_solver.
  - rewrite eff_trust in *.
    destruct o as [x|e]; [destruct (decision env x) |].
    + apply NoSteps_settle; [done | | done]. unfold trust_cells. set_solver.
    + apply NoSteps_settle; [by apply WF_settle | unfold trust_cells; set_solver |].
      apply NoSteps_settle; [done | | done]. unfold trust_cells. set_solver.
    + rewrite replaceUrlPromise_settle, replaceUrlPromise_start_steps in Hnone.
      discriminate.
    + apply NoSteps_settle; [done | | done]. unfold trust_cells. set_solver.
Qed.

Lemma replaceUrlPromise_deliver e s :
  replaceUrlPromise (deliver e s) = replaceUrlPromise s.
Proof.
  destruct e; unfold deliver, answer; repeat case_match;
    by rewrite ?replaceUrlPromise_settle.
Qed.

Lemma Pre_deliver e s : WF env s -> Pre env s -> Pre env (deliver e s).
Proof.
  intros Hwf Hpre Hnone. rewrite replaceUrlPromise_deliver in Hnone.
  specialize (Hpre Hnone).
  assert (forall p o, p ∈ trust_cells ->
            NoSteps env (settle p o (log (EvExternal e) s))) as Hs.
  { intros p o Hp. apply NoSteps_settle; [by apply WF_log | done |].
    by apply NoSteps_log. }
  assert (forall p, p ∈ [P_getReplaceUrl; P_fetchJson; P_resJson] ->
            bool_decide (p ∈ outstanding s) = false) as Hout.
  { intros p Hp. apply bool_decide_eq_false. intros Ho.
    destruct (ns_outstanding _ _ Hpre _ Ho) as [-> | ->];
      repeat (apply elem_of_cons in Hp as [Hp|Hp]; [discriminate |]);
      by apply elem_of_nil in Hp. }
  destruct e; unfold deliver, answer.
  - case_match; [apply Hs; unfold trust_cells; set_solver | done].
  - case_match; [apply Hs; unfold trust_cells; set_solver | done].
  - rewrite Hout by set_solver. done.
  - case_match; [apply Hs; unfold trust_cells; set_solver | done].
  - rewrite Hout by set_solver. done.
  - rewrite Hout by set_solver. done.
  - destruct (timer s) as [[d m]|]; [| done].
    apply NoSteps_settle.
    + by apply WF_log, WF_with_timer.
    + unfold trust_cells. set_solver.
    + apply NoSteps_log; [done |]. revert Hpre.
      apply NoSteps_fields; try done. by right.
Qed.

End BeforeSteps.
(** ** [Promise.all] of two promises *)

Lemma nth_insert_true (l : list bool) i k :
  nth i l false = true -> nth i (<[k := true]> l) false = true.
Proof.
  revert i k. induction l as [|b l IH]; intros [|i] [|k]; cbn; auto.
Qed.

Lemma called_mono_refl a s : called_mono a s s.
Proof. by intros i. Qed.

Lemma called_mono_trans a s1 s2 s3 :
  called_mono a s1 s2 -> called_mono a s2 s3 -> called_mono a s1 s3.
Proof. intros H1 H2 i H. by apply H2, H1. Qed.

Lemma called_mono_same a s s' : alls s' a = alls s a -> called_mono a s s'.
Proof. intros E i. by rewrite E. Qed.

Lemma called_mono_resolveElement a b k v s :
  called_mono a s (resolveElement b k v s).
Proof.
  intros i H. unfold resolveElement. cbv zeta.
  destruct (nth k (all_called (alls s b)) true); [done |].
  assert (nth i (all_called
                   (upd (alls s) b
                        (mkAll (<[k:=v]> (all_values (alls s b)))
                               (<[k:=true]> (all_called (alls s b)))
                               (pred (all_remaining (alls s b)))) a)) false
          = true) as Hn.
  { destruct (decide (a = b)) as [->|Hne].
    - rewrite upd_eq. cbn [all_called]. by apply nth_insert_true.
    - by rewrite upd_ne. }
  case_match; by rewrite ?alls_settle.
Qed.

Lemma AllInv_frame a e0 e1 s s' :
  alls s' a = alls s a ->
  result (cells s' a) = result (cells s a) ->
  (forall q o, result (cells s q) = Some o -> result (cells s' q) = Some o) ->
  AllInv a e0 e1 s -> AllInv a e0 e1 s'.
Proof.
  intros Ea Er Hm (c0 & c1 & v0 & v1 & H1 & H2 & H3 & H4 & H5 & H6).
  exists c0, c1, v0, v1. rewrite Ea, Er. split_and!; auto.
  intros e He. destruct (H6 e He); [left | right]; auto.
Qed.

Lemma result_settle p o s q :
  result (cells (settle p o s) q)
  = if decide (q = p)
    then match result (cells s p) with Some x => Some x | None => Some o end
    else result (cells s q).
Proof.
  destruct (decide (q = p)) as [->|Hne].
  - rewrite cells_settle_eq. destruct (result (cells s p)) eqn:E; by rewrite ?E.
  - by rewrite cells_settle_ne.
Qed.

(** The job of a fulfilled element. *)
Lemma AllInv_fulfilled a e0 e1 i v s :
  a <> e0 -> a <> e1 ->
  (i = 0 /\ result (cells s e0) = Some (Fulfilled v))
  \/ (i = 1 /\ result (cells s e1) = Some (Fulfilled v)) ->
  AllInv a e0 e1 s -> AllInv a e0 e1 (resolveElement a i v s).
Proof.
  intros Hn0 Hn1 Hi (c0 & c1 & v0 & v1 & H1 & H2 & H3 & H4 & H5 & H6).
  assert (AllInv a e0 e1 s) as Hsame by (exists c0, c1, v0, v1; split_and!; auto).
  unfold resolveElement. cbv zeta. rewrite H1.
  cbn [all_called all_values all_remaining].
  destruct Hi as [[-> Hv]|[-> Hv]].
  - destruct c0; [done |]. cbn [nth]. cbn.
    set (s1 := with_alls _ s).
    destruct c1; cbn.
    + exists true, true, v, v1. subst s1. rewrite alls_settle.
      cbn [with_alls alls]. rewrite upd_eq.
      rewrite !result_settle. cbn [with_alls cells].
      rewrite !decide_False by done. rewrite decide_True by done.
      destruct (result (cells s a)) as [[x'|e]|] eqn:E; naive_solver.
    + exists true, false, v, v1. subst s1.
      cbn [with_alls alls cells]. rewrite upd_eq. naive_solver.
  - destruct c1; [done |]. cbn [nth]. cbn.
    set (s1 := with_alls _ s).
    destruct c0; cbn.
    + exists true, true, v0, v. subst s1. rewrite alls_settle.
      cbn [with_alls alls]. rewrite upd_eq.
      rewrite !result_settle. cbn [with_alls cells].
      rewrite !decide_False by done. rewrite decide_True by done.
      destruct (result (cells s a)) as [[x'|e]|] eqn:E; naive_solver.
    + exists false, true, v0, v. subst s1.
      cbn [with_alls alls cells]. rewrite upd_eq. naive_solver.
Qed.

(** The job of a rejected element. *)
Lemma AllInv_rejected a e0 e1 e s :
  a <> e0 -> a <> e1 ->
  result (cells s e0) = Some (Rejected e)
  \/ result (cells s e1) = Some (Rejected e) ->
  AllInv a e0 e1 s -> AllInv a e0 e1 (settle a (Rejected e) s).
Proof.
  intros Hn0 Hn1 Hi (c0 & c1 & v0 & v1 & H1 & H2 & H3 & H4 & H5 & H6).
  exists c0, c1, v0, v1. rewrite alls_settle, !result_settle.
  rewrite !decide_False by done. rewrite decide_True by done.
  destruct (result (cells s a)) as [[x'|e']|] eqn:E; naive_solver.
Qed.

Lemma element_done_fulfilled a e0 e1 i v s :
  i < 2 -> AllInv a e0 e1 s ->
  nth i (all_called (alls (resolveElement a i v s) a)) false = true.
Proof.
  intros Hi (c0 & c1 & v0 & v1 & H1 & _).
  unfold resolveElement. cbv zeta. rewrite H1.
  cbn [all_called all_values all_remaining].
  destruct i as [|[|i]]; [| | lia]; destruct c0, c1; cbn;
    rewrite ?alls_settle, ?H1; cbn [with_alls alls]; rewrite ?upd_eq; done.
Qed.

(** ** The trust phase *)

Lemma pending_or_settled {A : Type} (o : option A) : o = None \/ o <> None.
Proof. destruct o; [by right | by left]. Qed.

Ltac solve_notin :=
  cbn; repeat (apply not_elem_of_cons; split; [discriminate |]);
  apply not_elem_of_nil.

Section Trust.

Context (env : Env).

Lemma started_promise : cells (started env) P_promise = mkCell None [r_race].
Proof. unfold started. unfold_module. by simp_state idtac. Qed.

Lemma started_viewer :
  cells (started env) P_isTrustedViewer
  = mkCell None [r_element P_trustAll 0].
Proof.
  unfold started. unfold_module. rewrite promise_all2. by simp_state idtac.
Qed.

Lemma started_referrer :
  cells (started env) P_isTrustedReferrer
  = mkCell None [r_element P_trustAll 1].
Proof.
  unfold started. unfold_module. rewrite promise_all2. by simp_state idtac.
Qed.

Lemma started_trustAll : cells (started env) P_trustAll = mkCell None [r_trust].
Proof.
  unfold started. unfold_module. rewrite promise_all2. by simp_state idtac.
Qed.

Lemma started_trustThen : cells (started env) P_trustThen = empty_cell.
Proof.
  unfold started. unfold_module. rewrite promise_all2. by simp_state idtac.
Qed.

Lemma started_alls :
  alls (started env) P_trustAll
  = mkAll [JUndefined; JUndefined] [false; false] 2.
Proof.
  unfold started. unfold_module. rewrite promise_all2. simp_state idtac.
  by rewrite ?upd_eq.
Qed.

Lemma started_replaceUrlPromise : replaceUrlPromise (started env) = None.
Proof.
  unfold started. unfold_module. rewrite promise_all2. by simp_state idtac.
Qed.

(** The job at the head of the queue is the job of an element of the trust
    [Promise.all], or leaves its record alone. *)
Lemma head_cases_trust s j rest :
  WF env s -> queue s = j :: rest ->
  (exists o, j = JobReaction (r_element P_trustAll 0) o
             /\ result (cells s P_isTrustedViewer) = Some o)
  \/ (exists o, j = JobReaction (r_element P_trustAll 1) o
                /\ result (cells s P_isTrustedReferrer) = Some o)
  \/ ((forall s0, alls (run_job env j s0) P_trustAll = alls s0 P_trustAll)
      /\ P_trustAll ∉ job_settles j).
Proof.
  intros Hwf Eq. head_job Hwf Eq;
    try (left; by eexists);
    try (right; left; by eexists);
    right; right;
    (split; [intros s0; first [ apply run_job_same_alls; destruct o; solve_notin
                              | by rewrite eff_thenable, alls_subscribe ]
            | try destruct o; solve_notin ]).
Qed.

Lemma AllInv_trust_microstep s :
  WF env s ->
  AllInv P_trustAll P_isTrustedViewer P_isTrustedReferrer s ->
  AllInv P_trustAll P_isTrustedViewer P_isTrustedReferrer (microstep env s).
Proof.
  intros Hwf Ha.
  destruct (queue s) as [|j rest] eqn:Eq; [by rewrite microstep_idle |].
  rewrite (microstep_cons _ _ _ _ Eq).
  assert (AllInv P_trustAll P_isTrustedViewer P_isTrustedReferrer
                 (with_queue rest s)) as Ha0 by exact Ha.
  destruct (head_cases_trust _ _ _ Hwf Eq)
    as [[o [-> Ho]]|[[o [-> Ho]]|[Hal Hres]]].
  - rewrite eff_element. destruct o.
    + apply AllInv_fulfilled; [done | done | by left | done].
    + apply AllInv_rejected; [done | done | by left | done].
  - rewrite eff_element. destruct o.
    + apply AllInv_fulfilled; [done | done | by right | done].
    + apply AllInv_rejected; [done | done | by right | done].
  - revert Ha0. apply AllInv_frame.
    + apply Hal.
    + by apply run_job_result_frame.
    + intros q x. apply (ext_result _ _ (run_job_extends env _ _)).
Qed.

Lemma called_trust_microstep s :
  WF env s -> called_mono P_trustAll s (microstep env s).
Proof.
  intros Hwf.
  destruct (queue s) as [|j rest] eqn:Eq;
    [rewrite microstep_idle by done; apply called_mono_refl |].
  rewrite (microstep_cons _ _ _ _ Eq).
  destruct (head_cases_trust _ _ _ Hwf Eq)
    as [[o [-> Ho]]|[[o [-> Ho]]|[Hal Hres]]].
  - rewrite eff_element. destruct o.
    + apply (called_mono_resolveElement _ _ _ _ (with_queue rest s)).
    + apply called_mono_same. by rewrite alls_settle.
  - rewrite eff_element. destruct o.
    + apply (called_mono_resolveElement _ _ _ _ (with_queue rest s)).
    + apply called_mono_same. by rewrite alls_settle.
  - apply called_mono_same. by rewrite Hal.
Qed.

Lemma element_done_trust_stable i o s :
  WF env s -> element_done P_trustAll i o s ->
  element_done P_trustAll i o (microstep env s).
Proof.
  intros Hwf. destruct o as [v|e]; cbn [element_done].
  - apply called_trust_microstep, Hwf.
  - intros H. destruct (result (cells s P_trustAll)) eqn:E; [| done].
    by rewrite (microstep_results _ _ _ _ E).
Qed.

Lemma element_done_trust_run i o rest s :
  i < 2 ->
  AllInv P_trustAll P_isTrustedViewer P_isTrustedReferrer s ->
  queue s = JobReaction (r_element P_trustAll i) o :: rest ->
  element_done P_trustAll i o (microstep env s).
Proof.
  intros Hi Ha Eq. rewrite (microstep_cons _ _ _ _ Eq), eff_element.
  destruct o as [v|e]; cbn [element_done].
  - by apply (element_done_fulfilled _ P_isTrustedViewer P_isTrustedReferrer).
  - apply result_settle_same.
Qed.

(** The promise of line 71 is settled by the trust job only. *)
Lemma trustThen_step s :
  WF env s -> result (cells s P_trustThen) = None ->
  result (cells (microstep env s) P_trustThen) <> None ->
  exists o rest, queue s = JobReaction r_trust o :: rest
                 /\ result (cells s P_trustAll) = Some o.
Proof.
  intros Hwf Hn Hs.
  destruct (queue s) as [|j rest] eqn:Eq;
    [by rewrite microstep_idle in Hs |].
  destruct (decide (P_trustThen ∈ job_settles j)) as [Hin|Hout].
  - pose proof (wf_head _ _ _ _ Hwf Eq) as Hj.
    destruct (trustThen_settled_by env _ Hin _ Hj) as [o ->].
    exists o, rest. split; [done |].
    destruct Hj as [p [He Hp]]. by inversion He; subst.
  - by rewrite (microstep_result_frame _ _ _ _ _ Eq Hout) in Hs.
Qed.

Lemma TrustInv_started : TrustInv env (started env).
Proof.
  split.
  - apply TrustOnce_started.
  - apply Pre_started.
  - exists false, false, JUndefined, JUndefined.
    rewrite started_alls, started_trustAll. cbn. split_and!; done.
  - unfold progress. rewrite started_viewer. cbn. by left.
  - unfold progress. rewrite started_referrer. cbn. by left.
  - unfold progress. rewrite started_trustAll. cbn. by left.
  - unfold progress. rewrite started_promise. cbn. by left.
  - intros _. by rewrite started_replaceUrlPromise, started_promise.
  - by rewrite started_trustThen.
  - by rewrite started_trustThen.
Qed.

Lemma pre_trust_frames s r o rest :
  queue s = JobReaction r o :: rest -> pre_trust_reaction r -> r <> r_trust ->
  replaceUrlPromise (microstep env s) = replaceUrlPromise s
  /\ result (cells (microstep env s) P_promise) = result (cells s P_promise).
Proof.
  intros Eq Hr Hne. rewrite (microstep_cons _ _ _ _ Eq).
  destruct Hr as [-> | [-> | [-> | [-> | ->]]]]; [| | | | done];
    (split; [apply (run_job_same_locals env _ _ (with_queue rest s));
             by destruct o
            | apply (run_job_result_frame env _ (with_queue rest s));
              destruct o; solve_notin ]).
Qed.

Lemma same_locals_after_trust s :
  WF env s -> TrustOnce s -> result (cells s P_trustThen) <> None ->
  same_locals s (microstep env s).
Proof.
  intros Hwf Hu Hs.
  destruct (queue s) as [|j rest] eqn:Eq;
    [rewrite microstep_idle by done; apply same_locals_refl |].
  rewrite (microstep_cons _ _ _ _ Eq).
  destruct j as [r o|p t];
    [| rewrite eff_thenable;
       apply (same_locals_subscribe _ _ (with_queue rest s))].
  apply (run_job_same_locals env r o (with_queue rest s)).
  intros Es. pose proof (wf_head _ _ _ _ Hwf Eq) as [p [He Hp]].
  assert (r = r_trust) as ->
      by (inversion He; subst; try done; destruct o; discriminate).
  by apply Hs, (no_trust_job _ _ _ Hu Eq).
Qed.

Lemma TrustInv_microstep s :
  WF env s -> TrustInv env s -> TrustInv env (microstep env s).
Proof.
  intros Hwf [Hu Hpre Ha H0 H1 Ht Hr Hb Haf Hd].
  assert (forall q, result (cells s q) <> None ->
                    result (cells (microstep env s) q) <> None) as Hstable.
  { intros q H. destruct (result (cells s q)) eqn:E; [| done].
    by rewrite (microstep_results _ _ _ _ E). }
  split.
  - by apply TrustOnce_microstep.
  - by apply Pre_microstep.
  - by apply AllInv_trust_microstep.
  - apply progress_microstep; [| intros o; by apply element_done_trust_stable
                               | done].
    intros o rest Eq _. apply (element_done_trust_run 0 o rest); [lia | done..].
  - apply progress_microstep; [| intros o; by apply element_done_trust_stable
                               | done].
    intros o rest Eq _. apply (element_done_trust_run 1 o rest); [lia | done..].
  - apply progress_microstep; [| intros o; apply Hstable | done].
    intros o rest Eq _. rewrite (microstep_cons _ _ _ _ Eq).
    apply trust_job_settles_then.
  - apply progress_microstep; [| intros o; apply Hstable | done].
    intros o rest Eq _. rewrite (microstep_cons _ _ _ _ Eq), eff_race.
    apply result_settle_same.
  - intros Hn.
    assert (result (cells s P_trustThen) = None) as Hn0.
    { destruct (result (cells s P_trustThen)) eqn:E; [| done].
      by rewrite (microstep_results _ _ _ _ E) in Hn. }
    destruct (Hb Hn0) as [Hrp Hp].
    destruct (queue s) as [|j rest] eqn:Eq; [by rewrite microstep_idle |].
    destruct (ns_queue _ _ (Hpre Hrp) j) as [r [o [-> Hpr]]];
      [rewrite Eq; by left |].
    destruct (pre_trust_frames s r o rest Eq Hpr) as [-> ->]; [| done].
    intros ->. revert Hn. rewrite (microstep_cons _ _ _ _ Eq).
    apply trust_job_settles_then.
  - intros Hs.
    destruct (pending_or_settled (result (cells s P_trustThen))) as [E|Hs0].
    + destruct (trustThen_step s Hwf E Hs) as (o & rest & Eq & Ho).
      by rewrite (microstep_results _ _ _ _ Ho).
    + by apply Hstable, Haf.
  - intros x Hx Hs.
    destruct (pending_or_settled (result (cells s P_trustThen))) as [E|Hs0];
      cycle 1.
    + assert (result (cells s P_trustAll) = Some (Fulfilled x)) as Hx0.
      { specialize (Haf Hs0).
        destruct (result (cells s P_trustAll)) eqn:E'; [| done].
        rewrite (microstep_results _ _ _ _ E') in Hx. congruence. }
      specialize (Hd x Hx0 Hs0).
      destruct (same_locals_after_trust s Hwf Hu Hs0) as (Hl & _ & _).
      rewrite Hl. destruct (decision env x); [done | | done].
      destruct Hd as [Hp Hrp]. split; [by apply Hstable | done].
    + destruct (trustThen_step s Hwf E Hs) as (o & rest & Eq & Ho).
      rewrite (microstep_results _ _ _ _ Ho) in Hx.
      injection Hx as ->. destruct (Hb E) as [Hrp Hp].
      rewrite (microstep_cons _ _ _ _ Eq), eff_trust.
      destruct (decision env x).
      * done.
      * rewrite replaceUrlPromise_settle, replaceUrlPromise_settle.
        split; [| done]. rewrite cells_settle_ne by done.
        apply result_settle_same.
      * by rewrite replaceUrlPromise_settle, replaceUrlPromise_start_steps.
Qed.

Lemma alls_deliver e s : alls (deliver e s) = alls s.
Proof.
  destruct e; unfold deliver, answer; repeat case_match;
    by rewrite ?alls_settle.
Qed.

Lemma element_done_deliver a i o e s :
  element_done a i o s -> element_done a i o (deliver e s).
Proof.
  destruct o as [v|x]; cbn [element_done]; [by rewrite alls_deliver |].
  intros H. destruct (result (cells s a)) eqn:E; [| done].
  by rewrite (ext_result _ _ (deliver_extends e s) _ _ E).
Qed.

Lemma TrustInv_deliver e s :
  WF env s -> TrustInv env s -> TrustInv env (deliver e s).
Proof.
  intros Hwf [Hu Hpre Ha H0 H1 Ht Hr Hb Haf Hd].
  pose proof (deliver_extends e s) as Hx.
  assert (forall q, result (cells s q) <> None ->
                    result (cells (deliver e s) q) <> None) as Hstable.
  { intros q H. destruct (result (cells s q)) eqn:E; [| done].
    by rewrite (ext_result _ _ Hx _ _ E). }
  assert (forall q, q ∈ [P_trustAll; P_trustThen; P_promise] ->
            result (cells (deliver e s) q) = result (cells s q)) as Hf.
  { intros q Hq. apply deliver_result_frame.
    repeat (apply elem_of_cons in Hq as [->|Hq]; [by destruct e |]).
    by apply elem_of_nil in Hq. }
  split.
  - by apply TrustOnce_deliver.
  - by apply Pre_deliver.
  - revert Ha. apply AllInv_frame.
    + by rewrite alls_deliver.
    + apply Hf. set_solver.
    + apply (ext_result _ _ Hx).
  - revert H0. apply progress_extends; [done |].
    intros o. apply element_done_deliver.
  - revert H1. apply progress_extends; [done |].
    intros o. apply element_done_deliver.
  - revert Ht. apply progress_extends; [done |]. intros o. apply Hstable.
  - revert Hr. apply progress_extends; [done |]. intros o. apply Hstable.
  - rewrite !Hf by set_solver. by rewrite replaceUrlPromise_deliver.
  - rewrite !Hf by set_solver. done.
  - rewrite !Hf by set_solver. by rewrite replaceUrlPromise_deliver.
Qed.

End Trust.
(** ** The join of the two steps *)

Lemma progress_subscribe p r (Done : Settled -> State -> Prop) s :
  progress p r Done (subscribe p r s).
Proof.
  unfold progress. rewrite result_subscribe.
  destruct (result (cells s p)) as [o|] eqn:E.
  - left. rewrite queue_subscribe, E. apply elem_of_app. right. by left.
  - rewrite cells_subscribe_eq, E. cbn. apply elem_of_app. right. by left.
Qed.

Lemma element_done_extends a i o s s' :
  alls s' a = alls s a -> extends s s' ->
  element_done a i o s -> element_done a i o s'.
Proof.
  intros Ea Hx. destruct o as [v|e]; cbn [element_done]; [by rewrite Ea |].
  intros H. destruct (result (cells s a)) eqn:E; [| done].
  by rewrite (ext_result _ _ Hx _ _ E).
Qed.

Lemma join_done_extends o s s' : extends s s' -> join_done o s -> join_done o s'.
Proof.
  intros Hx.
  assert (forall q, result (cells s q) <> None -> result (cells s' q) <> None)
    as Hs.
  { intros q H. destruct (result (cells s q)) eqn:E; [| done].
    by rewrite (ext_result _ _ Hx _ _ E). }
  unfold join_done. intros [H1 H2]. split; [by apply Hs |].
  destruct o; [by apply Hs | done].
Qed.

Lemma settle_fresh p o s x :
  result (cells s p) = None -> result (cells (settle p o s) p) = Some x ->
  x = o.
Proof. intros Hn. rewrite cells_settle_eq, Hn. cbn. congruence. Qed.

Section Join.

Context (env : Env).

Lemma joinAll_not_replace : P_joinAll <> replace_promise env.
Proof. destruct (replace_promise_cases env) as [E|[E|E]]; by rewrite E. Qed.

Lemma joinAll_not_click : P_joinAll <> click_promise env.
Proof. destruct (click_promise_cases env) as [E|[E|E]]; by rewrite E. Qed.

Lemma result_replace_step s q :
  q <> P_replaceNoParam -> q <> P_replaceLegacy ->
  result (cells (replace_step env s) q) = result (cells s q).
Proof.
  intros H1 H2. unfold replace_step.
  destruct (replace_promise env);
    rewrite ?result_subscribe, ?cells_settle_ne by done; done.
Qed.

Lemma result_click_step s q :
  q <> P_clickNoParam -> q <> P_clickInvalid ->
  result (cells (click_step env s) q) = result (cells s q).
Proof.
  intros H1 H2. unfold click_step.
  destruct (click_promise env);
    rewrite ?result_subscribe, ?cells_settle_ne by done; cbn [log cells with_trace];
    rewrite ?cells_clear_hash; done.
Qed.

Lemma start_steps_eq s :
  start_steps env s
  = subscribe P_joinAll r_join
      (subscribe (click_promise env) (r_element P_joinAll 1)
         (subscribe (replace_promise env) (r_element P_joinAll 0)
            (with_alls
               (upd (alls (with_clickUrlPromise (Some (click_promise env))
                             (click_step env
                                (with_replaceUrlPromise
                                   (Some (replace_promise env))
                                   (replace_step env s)))))
                    P_joinAll
                    (mkAll [JUndefined; JUndefined] [false; false] 2))
               (with_clickUrlPromise (Some (click_promise env))
                  (click_step env
                     (with_replaceUrlPromise (Some (replace_promise env))
                        (replace_step env s))))))).
Proof. unfold start_steps. by rewrite promise_all2. Qed.

Lemma clickUrlPromise_start_steps s :
  clickUrlPromise (start_steps env s) = Some (click_promise env).
Proof. rewrite start_steps_eq. by simp_state idtac. Qed.

Lemma alls_start_steps s :
  alls (start_steps env s) P_joinAll
  = mkAll [JUndefined; JUndefined] [false; false] 2.
Proof.
  rewrite start_steps_eq, !alls_subscribe. cbn [with_alls alls].
  by rewrite upd_eq.
Qed.

Lemma result_start_steps s q :
  q <> P_replaceNoParam -> q <> P_replaceLegacy ->
  q <> P_clickNoParam -> q <> P_clickInvalid ->
  result (cells (start_steps env s) q) = result (cells s q).
Proof.
  intros H1 H2 H3 H4. rewrite start_steps_eq, !result_subscribe.
  cbn [with_alls with_clickUrlPromise cells].
  rewrite result_click_step by done. cbn [with_replaceUrlPromise cells].
  by rewrite result_replace_step.
Qed.

(** Lines 81-86 establish [Steps]. *)
Lemma Steps_start x s :
  NoSteps env s ->
  Steps env (settle P_trustThen x (start_steps env s)).
Proof.
  intros Hn.
  assert (forall i o s1 s2, alls s2 P_joinAll = alls s1 P_joinAll ->
            extends s1 s2 ->
            element_done P_joinAll i o s1 -> element_done P_joinAll i o s2)
    as Hd by (intros; by eapply element_done_extends).
  split.
  - by rewrite replaceUrlPromise_settle, replaceUrlPromise_start_steps.
  - by rewrite clickUrlPromise_settle, clickUrlPromise_start_steps.
  - exists false, false, JUndefined, JUndefined.
    rewrite alls_settle, alls_start_steps.
    rewrite (cells_settle_ne _ _ _ P_joinAll) by done.
    rewrite (result_start_steps _ P_joinAll) by done.
    rewrite (ns_cells _ _ Hn P_joinAll) by (unfold step_cells; set_solver).
    cbn. split_and!; done.
  - rewrite start_steps_eq.
    eapply progress_extends; [apply extends_settle | |].
    { intros o. apply Hd; [by rewrite alls_settle | apply extends_settle]. }
    eapply progress_extends; [apply extends_subscribe | |].
    { intros o. apply Hd; [by rewrite alls_subscribe | apply extends_subscribe]. }
    eapply progress_extends; [apply extends_subscribe | |].
    { intros o. apply Hd; [by rewrite alls_subscribe | apply extends_subscribe]. }
    apply progress_subscribe.
  - rewrite start_steps_eq.
    eapply progress_extends; [apply extends_settle | |].
    { intros o. apply Hd; [by rewrite alls_settle | apply extends_settle]. }
    eapply progress_extends; [apply extends_subscribe | |].
    { intros o. apply Hd; [by rewrite alls_subscribe | apply extends_subscribe]. }
    apply progress_subscribe.
  - rewrite start_steps_eq.
    eapply progress_extends; [apply extends_settle | |].
    { intros o. apply join_done_extends, extends_settle. }
    apply progress_subscribe.
Qed.

(** After the trust callback, the job at the head of the queue is the job of
    an element of the join, or leaves its record alone. *)
Lemma head_cases_join s j rest :
  WF env s -> TrustOnce s -> result (cells s P_trustThen) <> None ->
  queue s = j :: rest ->
  (exists o, j = JobReaction (r_element P_joinAll 0) o
             /\ result (cells s (replace_promise env)) = Some o)
  \/ (exists o, j = JobReaction (r_element P_joinAll 1) o
                /\ result (cells s (click_promise env)) = Some o)
  \/ ((forall s0, alls (run_job env j s0) P_joinAll = alls s0 P_joinAll)
      /\ P_joinAll ∉ job_settles j).
Proof.
  intros Hwf Hu Hs Eq. head_job Hwf Eq;
    try (left; by eexists);
    try (right; left; by eexists);
    try (by destruct Hs; apply (no_trust_job _ _ _ Hu Eq));
    right; right;
    (split; [intros s0; first [ apply run_job_same_alls; destruct o; solve_notin
                              | by rewrite eff_thenable, alls_subscribe ]
            | try destruct o; solve_notin ]).
Qed.

Lemma AllInv_join_microstep s :
  WF env s -> TrustOnce s -> result (cells s P_trustThen) <> None ->
  AllInv P_joinAll (replace_promise env) (click_promise env) s ->
  AllInv P_joinAll (replace_promise env) (click_promise env) (microstep env s).
Proof.
  intros Hwf Hu Hs Ha.
  pose proof joinAll_not_replace as Hn0. pose proof joinAll_not_click as Hn1.
  destruct (queue s) as [|j rest] eqn:Eq; [by rewrite microstep_idle |].
  rewrite (microstep_cons _ _ _ _ Eq).
  assert (AllInv P_joinAll (replace_promise env) (click_promise env)
                 (with_queue rest s)) as Ha0 by exact Ha.
  destruct (head_cases_join _ _ _ Hwf Hu Hs Eq)
    as [[o [-> Ho]]|[[o [-> Ho]]|[Hal Hres]]].
  - rewrite eff_element. destruct o.
    + apply AllInv_fulfilled; [done | done | by left | done].
    + apply AllInv_rejected; [done | done | by left | done].
  - rewrite eff_element. destruct o.
    + apply AllInv_fulfilled; [done | done | by right | done].
    + apply AllInv_rejected; [done | done | by right | done].
  - revert Ha0. apply AllInv_frame.
    + apply Hal.
    + by apply run_job_result_frame.
    + intros q x. apply (ext_result _ _ (run_job_extends env _ _)).
Qed.

Lemma called_join_microstep s :
  WF env s -> TrustOnce s -> result (cells s P_trustThen) <> None ->
  called_mono P_joinAll s (microstep env s).
Proof.
  intros Hwf Hu Hs.
  destruct (queue s) as [|j rest] eqn:Eq;
    [rewrite microstep_idle by done; apply called_mono_refl |].
  rewrite (microstep_cons _ _ _ _ Eq).
  destruct (head_cases_join _ _ _ Hwf Hu Hs Eq)
    as [[o [-> Ho]]|[[o [-> Ho]]|[Hal Hres]]].
  - rewrite eff_element. destruct o.
    + apply (called_mono_resolveElement _ _ _ _ (with_queue rest s)).
    + apply called_mono_same. by rewrite alls_settle.
  - rewrite eff_element. destruct o.
    + apply (called_mono_resolveElement _ _ _ _ (with_queue rest s)).
    + apply called_mono_same. by rewrite alls_settle.
  - apply called_mono_same. by rewrite Hal.
Qed.

Lemma element_done_join_stable i o s :
  WF env s -> TrustOnce s -> result (cells s P_trustThen) <> None ->
  element_done P_joinAll i o s ->
  element_done P_joinAll i o (microstep env s).
Proof.
  intros Hwf Hu Hs. destruct o as [v|e]; cbn [element_done].
  - by apply called_join_microstep.
  - intros H. destruct (result (cells s P_joinAll)) eqn:E; [| done].
    by rewrite (microstep_results _ _ _ _ E).
Qed.

Lemma element_done_join_run i o rest s :
  i < 2 ->
  AllInv P_joinAll (replace_promise env) (click_promise env) s ->
  queue s = JobReaction (r_element P_joinAll i) o :: rest ->
  element_done P_joinAll i o (microstep env s).
Proof.
  intros Hi Ha Eq. rewrite (microstep_cons _ _ _ _ Eq), eff_element.
  destruct o as [v|e]; cbn [element_done].
  - by apply (element_done_fulfilled _ (replace_promise env)
                (click_promise env)).
  - apply result_settle_same.
Qed.

Lemma join_job_done o rest s :
  queue s = JobReaction r_join o :: rest -> join_done o (microstep env s).
Proof.
  intros Eq. rewrite (microstep_cons _ _ _ _ Eq), eff_join.
  destruct o; (split; [apply result_settle_same |]); [| done].
  rewrite cells_settle_ne by done. apply result_settle_same.
Qed.

Lemma join_done_stable o s : join_done o s -> join_done o (microstep env s).
Proof.
  assert (forall q, result (cells s q) <> None ->
                    result (cells (microstep env s) q) <> None) as Hstable.
  { intros q H. destruct (result (cells s q)) eqn:E; [| done].
    by rewrite (microstep_results _ _ _ _ E). }
  unfold join_done. intros [H1 H2]. split; [by apply Hstable |].
  destruct o; [by apply Hstable | done].
Qed.

Lemma Steps_microstep s :
  WF env s -> TrustOnce s -> result (cells s P_trustThen) <> None ->
  Steps env s -> Steps env (microstep env s).
Proof.
  intros Hwf Hu Hs [Hrp Hcp Ha H0 H1 Hj].
  destruct (same_locals_after_trust env s Hwf Hu Hs) as (Hl1 & Hl2 & _).
  split.
  - by rewrite Hl1.
  - by rewrite Hl2.
  - by apply AllInv_join_microstep.
  - apply progress_microstep; [| intros o; by apply element_done_join_stable
                               | done].
    intros o rest Eq _. apply (element_done_join_run 0 o rest); [lia | done..].
  - apply progress_microstep; [| intros o; by apply element_done_join_stable
                               | done].
    intros o rest Eq _. apply (element_done_join_run 1 o rest); [lia | done..].
  - apply progress_microstep; [| intros o; apply join_done_stable | done].
    intros o rest Eq _. by apply (join_job_done o rest).
Qed.

Lemma Steps_deliver e s : Steps env s -> Steps env (deliver e s).
Proof.
  intros [Hrp Hcp Ha H0 H1 Hj].
  pose proof (deliver_extends e s) as Hx.
  split.
  - by rewrite replaceUrlPromise_deliver.
  - destruct e; unfold deliver, answer; repeat case_match;
      by rewrite ?clickUrlPromise_settle.
  - revert Ha. apply AllInv_frame.
    + by rewrite alls_deliver.
    + apply deliver_result_frame. by destruct e.
    + apply (ext_result _ _ Hx).
  - revert H0. apply progress_extends; [done |].
    intros o. apply element_done_deliver.
  - revert H1. apply progress_extends; [done |].
    intros o. apply element_done_deliver.
  - revert Hj. apply progress_extends; [done |].
    intros o. by apply join_done_extends.
Qed.

(** Which job settles which promise. *)
Lemma settled_by q s :
  WF env s -> result (cells s q) = None ->
  result (cells (microstep env s) q) <> None ->
  exists j rest, queue s = j :: rest /\ q ∈ job_settles j.
Proof.
  intros Hwf Hn Hs.
  destruct (queue s) as [|j rest] eqn:Eq;
    [by rewrite microstep_idle in Hs |].
  exists j, rest. split; [done |].
  destruct (decide (q ∈ job_settles j)) as [Hin|Hout]; [done |].
  by rewrite (microstep_result_frame _ _ _ _ _ Eq Hout) in Hs.
Qed.

Lemma promise_settled_by s j rest :
  WF env s -> queue s = j :: rest -> P_promise ∈ job_settles j ->
  (exists o, j = JobReaction r_trust o)
  \/ (exists v, j = JobReaction r_join (Fulfilled v)
                /\ result (cells s P_joinAll) = Some (Fulfilled v)).
Proof.
  intros Hwf Eq Hin. head_job Hwf Eq;
    try (left; by eexists);
    try (destruct o as [v|e]; [right; by exists v |]);
    exfalso; try destruct o; cbn in Hin;
    repeat (apply elem_of_cons in Hin as [Hin|Hin]; [discriminate |]);
    by apply elem_of_nil in Hin.
Qed.

Lemma joinThen_settled_by s j rest :
  WF env s -> queue s = j :: rest -> P_joinThen ∈ job_settles j ->
  exists o, j = JobReaction r_join o.
Proof.
  intros Hwf Eq Hin. head_job Hwf Eq;
    try (by eexists);
    exfalso; try destruct o; cbn in Hin;
    repeat (apply elem_of_cons in Hin as [Hin|Hin]; [discriminate |]);
    by apply elem_of_nil in Hin.
Qed.

Lemma session_settled_by s j rest :
  WF env s -> queue s = j :: rest -> P_session ∈ job_settles j ->
  exists o, j = JobReaction r_catch o /\ result (cells s P_timeout) = Some o.
Proof.
  intros Hwf Eq Hin. head_job Hwf Eq;
    try (by eexists);
    exfalso; try destruct o; cbn in Hin;
    repeat (apply elem_of_cons in Hin as [Hin|Hin]; [discriminate |]);
    by apply elem_of_nil in Hin.
Qed.

Lemma timeout_settled_by s j rest :
  WF env s -> queue s = j :: rest -> P_timeout ∈ job_settles j ->
  exists o, j = JobReaction r_race o /\ result (cells s P_promise) = Some o.
Proof.
  intros Hwf Eq Hin. head_job Hwf Eq;
    try (by eexists);
    exfalso; try destruct o; cbn in Hin;
    repeat (apply elem_of_cons in Hin as [Hin|Hin]; [discriminate |]);
    by apply elem_of_nil in Hin.
Qed.

Lemma started_joinThen : cells (started env) P_joinThen = empty_cell.
Proof.
  unfold started. unfold_module. rewrite promise_all2. by simp_state idtac.
Qed.

Lemma JoinInv_started : JoinInv env (started env).
Proof.
  split.
  - by rewrite started_replaceUrlPromise.
  - by rewrite started_promise.
  - by rewrite started_joinThen.
  - by rewrite started_session.
  - by rewrite started_timeout.
Qed.

Lemma before_trust s :
  TrustInv env s -> replaceUrlPromise s <> None ->
  result (cells s P_trustThen) <> None.
Proof. intros Ht Hr Hn. by destruct (ti_before _ _ Ht Hn). Qed.

Lemma JoinInv_microstep s :
  WF env s -> TrustInv env s -> JoinInv env s -> JoinInv env (microstep env s).
Proof.
  intros Hwf Ht [Hst Hp Hjt Hse Hto].
  pose proof (ti_once _ _ Ht) as Hu.
  assert (forall q, result (cells s q) <> None ->
                    result (cells (microstep env s) q) <> None) as Hstable.
  { intros q H. destruct (result (cells s q)) eqn:E; [| done].
    by rewrite (microstep_results _ _ _ _ E). }
  split.
  - intros Hr.
    destruct (pending_or_settled (replaceUrlPromise s)) as [En|Hr0].
    + pose proof (ti_pre _ _ Ht En) as Hn.
      destruct (queue s) as [|j rest] eqn:Eq;
        [rewrite microstep_idle in Hr by done; done |].
      destruct (ns_queue _ _ Hn j) as [r [o [-> Hpr]]];
        [rewrite Eq; by left |].
      assert (r = r_trust) as ->.
      { pose proof Hpr as Hpr'.
        destruct Hpr' as [-> | [-> | [-> | [-> | ->]]]]; [| | | | done];
          (destruct (pre_trust_frames env s _ o rest Eq Hpr) as [E _];
           [done | congruence]). }
      rewrite (microstep_cons _ _ _ _ Eq), eff_trust in *.
      pose proof (NoSteps_dequeue _ _ _ _ Eq Hn) as Hn0.
      destruct o as [x|e]; [destruct (decision env x) |];
        rewrite ?replaceUrlPromise_settle in Hr; try done.
      by apply Steps_start.
    + apply Steps_microstep; auto. by apply before_trust.
  - intros Hpm.
    destruct (pending_or_settled (result (cells s P_promise))) as [En|Hp0].
    + destruct (settled_by _ _ Hwf En Hpm) as (j & rest & Eq & Hin).
      destruct (promise_settled_by _ _ _ Hwf Eq Hin)
        as [[o ->]|[v [-> Hv]]].
      * pose proof (no_trust_job _ _ _ Hu Eq) as Hth.
        destruct (ti_before _ _ Ht Hth) as [Hrp _].
        rewrite (microstep_cons _ _ _ _ Eq), eff_trust in *.
        destruct o as [x|e]; [destruct (decision env x) |].
        -- by rewrite cells_settle_ne in Hpm.
        -- left. by rewrite !replaceUrlPromise_settle.
        -- rewrite cells_settle_ne, result_start_steps in Hpm; done.
        -- by rewrite cells_settle_ne in Hpm.
      * right. exists v. by apply microstep_results.
    + destruct (Hp Hp0) as [Hrp|[v Hv]].
      * left. assert (result (cells s P_trustThen) <> None) as Hth.
        { intros Hn. by destruct (ti_before _ _ Ht Hn). }
        destruct (same_locals_after_trust env s Hwf Hu Hth) as (-> & _).
        done.
      * right. exists v. by apply microstep_results.
  - intros o Ho.
    destruct (pending_or_settled (result (cells s P_joinThen))) as [En|Hs0].
    + assert (result (cells (microstep env s) P_joinThen) <> None) as Hs
          by (by rewrite Ho).
      destruct (settled_by _ _ Hwf En Hs) as (j & rest & Eq & Hin).
      destruct (joinThen_settled_by _ _ _ Hwf Eq Hin) as [o' ->].
      rewrite (microstep_cons _ _ _ _ Eq), eff_join in Ho.
      destruct o'; apply settle_fresh in Ho; try done.
      by rewrite cells_settle_ne.
    + destruct (result (cells s P_joinThen)) as [o'|] eqn:E; [| done].
      rewrite (microstep_results _ _ _ _ E) in Ho. injection Ho as <-.
      by apply Hjt.
  - intros Hs.
    destruct (pending_or_settled (result (cells s P_session))) as [En|Hs0].
    + destruct (settled_by _ _ Hwf En Hs) as (j & rest & Eq & Hin).
      destruct (session_settled_by _ _ _ Hwf Eq Hin) as (o & -> & Ho).
      by rewrite (microstep_results _ _ _ _ Ho).
    + by apply Hstable, Hse.
  - intros Hs. rewrite microstep_timer.
    destruct (pending_or_settled (result (cells s P_timeout))) as [En|Hs0].
    + destruct (settled_by _ _ Hwf En Hs) as (j & rest & Eq & Hin).
      destruct (timeout_settled_by _ _ _ Hwf Eq Hin) as (o & -> & Ho).
      left. by rewrite (microstep_results _ _ _ _ Ho).
    + destruct (Hto Hs0) as [H|H]; [left; by apply Hstable | by right].
Qed.

Lemma timer_deliver e s : e <> TimerFires -> timer (deliver e s) = timer s.
Proof.
  intros He. destruct e; try done; unfold deliver, answer; repeat case_match;
    by rewrite ?timer_settle.
Qed.

Lemma timer_deliver_none e s : timer s = None -> timer (deliver e s) = None.
Proof.
  intros Hn. destruct e; unfold deliver, answer; repeat case_match;
    rewrite ?timer_settle; done.
Qed.

Lemma JoinInv_deliver e s :
  TrustInv env s -> JoinInv env s -> JoinInv env (deliver e s).
Proof.
  intros Ht [Hst Hp Hjt Hse Hto].
  pose proof (deliver_extends e s) as Hx.
  assert (forall q, result (cells s q) <> None ->
                    result (cells (deliver e s) q) <> None) as Hstable.
  { intros q H. destruct (result (cells s q)) eqn:E; [| done].
    by rewrite (ext_result _ _ Hx _ _ E). }
  assert (forall q, q ∈ [P_promise; P_joinAll; P_joinThen; P_session] ->
            result (cells (deliver e s) q) = result (cells s q)) as Hf.
  { intros q Hq. apply deliver_result_frame.
    repeat (apply elem_of_cons in Hq as [->|Hq]; [by destruct e |]).
    by apply elem_of_nil in Hq. }
  split.
  - rewrite replaceUrlPromise_deliver. intros Hr. by apply Steps_deliver, Hst.
  - rewrite replaceUrlPromise_deliver, !Hf by set_solver. done.
  - rewrite Hf by set_solver. done.
  - rewrite Hf by set_solver. intros Hs. by apply Hstable, Hse.
  - intros Hs.
    assert (e = TimerFires \/ e <> TimerFires) as [-> | He]
        by (destruct e; auto).
    + destruct (pending_or_settled (timer s)) as [E|E];
        [right; by apply timer_deliver_none |].
      right. unfold deliver. destruct (timer s) as [[d m]|]; [| done].
      by rewrite timer_settle.
    + rewrite deliver_result_frame in Hs by (by destruct e).
      rewrite Hf by set_solver. rewrite timer_deliver by done. by apply Hto.
Qed.

(** *** Reachable states *)

Lemma Reachable_started : Reachable env (started env).
Proof.
  split; [apply SessionInv_started | apply TrustInv_started
         | apply JoinInv_started].
Qed.

Lemma Reachable_microstep s : Reachable env s -> Reachable env (microstep env s).
Proof.
  intros [Hs Ht Hj]. pose proof (si_wf _ _ Hs) as Hwf. split.
  - by apply SessionInv_microstep.
  - by apply TrustInv_microstep.
  - by apply JoinInv_microstep.
Qed.

Lemma Reachable_deliver e s : Reachable env s -> Reachable env (deliver e s).
Proof.
  intros [Hs Ht Hj]. pose proof (si_wf _ _ Hs) as Hwf. split.
  - by apply SessionInv_deliver.
  - by apply TrustInv_deliver.
  - by apply JoinInv_deliver.
Qed.

Lemma run_Reachable schedule : Reachable env (run env schedule).
Proof.
  refine (proj1 (run_invariant env (Reachable env) _ _ _ schedule)).
  - exact Reachable_started.
  - exact Reachable_microstep.
  - intros e s H _. by apply Reachable_deliver.
Qed.

(** While the timer has not fired it stays armed. *)
Lemma run_timer schedule :
  Forall not_timer schedule -> timer (run env schedule) <> None.
Proof.
  induction schedule as [|e schedule IH] using rev_ind; intros Hok.
  - unfold run, boot. cbn [foldl]. unfold run_microtasks.
    apply (drain_invariant env (fun s => timer s <> None)).
    + intros s. by rewrite microstep_timer.
    + apply started_timer.
  - apply Forall_app in Hok as [Hok He]. apply Forall_inv in He.
    rewrite run_snoc. unfold step, run_microtasks.
    apply (drain_invariant env (fun s => timer s <> None)).
    + intros s. by rewrite microstep_timer.
    + rewrite timer_deliver by done. by apply IH.
Qed.

End Join.
(** ** The order of the click-tracking step *)

Lemma clicked_app env l added : clicked env l -> clicked env (l ++ added).
Proof.
  intros (k1 & k2 & -> & H). exists k1, (k2 ++ added). split; [| done].
  by rewrite <- app_assoc.
Qed.

Lemma visible_after_click_app env l added :
  visible_after_click env l -> visible_after_click env (l ++ added).
Proof.
  intros [H1 H2]. split; [apply elem_of_app; by left | by apply clicked_app].
Qed.

Lemma fetch_ordered_app env l added :
  fetch_ordered env l ->
  forallb (fun e => negb (is_fetch e)) added = true
  \/ visible_after_click env l ->
  fetch_ordered env (l ++ added).
Proof.
  intros IH Hadd l1 f l2 E Hf.
  assert (f ∈ added -> visible_after_click env l) as Hin.
  { intros Hfa. destruct Hadd as [Hno|Hv]; [| done].
    rewrite forallb_forall in Hno.
    apply list_elem_of_In, Hno in Hfa. by rewrite Hf in Hfa. }
  apply app_eq_app in E as [l' [[E1 E2]|[E1 E2]]].
  - destruct l' as [|f' l'']; cbn in E2.
    + rewrite app_nil_r in E1. subst l1. apply Hin. rewrite <- E2. by left.
    + injection E2 as <- E2. by apply (IH l1 f l'').
  - subst l1. apply visible_after_click_app, Hin. rewrite E2.
    apply elem_of_app. right. by left.
Qed.

Section Order.

Context (env : Env).

Lemma run_job_no_fetch r o s :
  (forall c, selected r o <> H_visibleInvoke c) ->
  trace_adds (fun e => negb (is_fetch e)) s (run_job env (JobReaction r o) s).
Proof.
  intros Hh.
  apply (run_job_rel env (trace_adds (fun e => negb (is_fetch e)))
           (trace_adds_refl _) (trace_adds_trans _)
           (fun h => forall c, h <> H_visibleInvoke c)).
  - intros h v H. by apply call_no_fetch.
  - intros p x s0. apply trace_adds_same, trace_settle.
  - intros p q s0. by apply trace_adds_same.
  - destruct (selected r o); auto.
Qed.

(** The job at the head of the queue is the job of the visibility wait, or
    issues no fetch. *)
Lemma head_cases_fetch s j rest :
  WF env s -> queue s = j :: rest ->
  (exists o, j = JobReaction (r_visible (getParam env "click")) o
             /\ result (cells s P_firstVisible) = Some o
             /\ click_promise env = P_clickUrl)
  \/ (forall s0, trace_adds (fun e => negb (is_fetch e)) s0 (run_job env j s0)).
Proof.
  intros Hwf Eq. head_job Hwf Eq;
    try (left; by eexists);
    right; intros s0;
    first [ apply run_job_no_fetch; intros c; by destruct o
          | rewrite eff_thenable; apply trace_adds_same, trace_subscribe ].
Qed.

Lemma firstVisible_not_settled s :
  WF env s -> result (cells (microstep env s) P_firstVisible) <> None ->
  result (cells s P_firstVisible) <> None.
Proof.
  intros Hwf Hs Hn.
  destruct (settled_by env _ _ Hwf Hn Hs) as (j & rest & Eq & Hin).
  head_job Hwf Eq; try destruct o; cbn in Hin;
    repeat (apply elem_of_cons in Hin as [Hin|Hin]; [discriminate |]);
    by apply elem_of_nil in Hin.
Qed.

(** The microtask that starts the steps. *)
Lemma steps_begin s :
  WF env s -> TrustInv env s -> replaceUrlPromise s = None ->
  replaceUrlPromise (microstep env s) <> None ->
  exists x rest,
    queue s = JobReaction r_trust (Fulfilled x) :: rest
    /\ decision env x = Starts
    /\ NoSteps env (with_queue rest s)
    /\ microstep env s
       = settle P_trustThen (Fulfilled JUndefined)
                (start_steps env (with_queue rest s)).
Proof.
  intros Hwf Ht En Hr.
  pose proof (ti_pre _ _ Ht En) as Hn.
  destruct (queue s) as [|j rest] eqn:Eq;
    [rewrite microstep_idle in Hr by done; done |].
  destruct (ns_queue _ _ Hn j) as [r [o [-> Hpr]]]; [rewrite Eq; by left |].
  assert (r = r_trust) as ->.
  { pose proof Hpr as Hpr'.
    destruct Hpr' as [-> | [-> | [-> | [-> | ->]]]]; [| | | | done];
      (destruct (pre_trust_frames env s _ o rest Eq Hpr) as [E _];
       [done | congruence]). }
  rewrite (microstep_cons _ _ _ _ Eq), eff_trust in *.
  pose proof (NoSteps_dequeue _ _ _ _ Eq Hn) as Hn0.
  destruct o as [x|e]; [destruct (decision env x) eqn:Ed |];
    rewrite ?replaceUrlPromise_settle in Hr; try done.
  exists x, rest. by rewrite Ed.
Qed.

Lemma trace_replace_step s :
  exists added, trace (replace_step env s) = trace s ++ added.
Proof.
  unfold replace_step.
  destruct (replace_promise env);
    rewrite ?trace_subscribe, ?trace_settle; cbn [log with_trace with_outstanding trace];
    eauto; exists []; by rewrite app_nil_r.
Qed.

Lemma location_hash_replace_step s :
  location_hash (replace_step env s) = location_hash s.
Proof.
  unfold replace_step.
  destruct (replace_promise env);
    by rewrite ?location_hash_subscribe, ?location_hash_settle.
Qed.

Lemma clicked_start_steps s :
  click_promise env = P_clickUrl -> location_hash s = initial_hash env ->
  clicked env (trace (start_steps env s)).
Proof.
  intros Hc Hh. rewrite start_steps_eq, !trace_subscribe.
  cbn [with_alls with_clickUrlPromise trace].
  unfold click_step. rewrite Hc, !trace_subscribe.
  cbn [log with_trace trace]. rewrite trace_clear_hash.
  cbn [with_replaceUrlPromise trace location_hash].
  rewrite location_hash_replace_step, Hh.
  eexists _, []. split; [reflexivity |].
  intros Hne. apply elem_of_app. right. cbn [truthy].
  destruct (String.eqb_spec (initial_hash env) ""); [done |].
  cbn. by left.
Qed.

Lemma TraceInv_started : TraceInv env (started env).
Proof.
  split.
  - assert (cells (started env) P_firstVisible = empty_cell) as ->; [| done].
    unfold started. unfold_module. rewrite promise_all2. by simp_state idtac.
  - by rewrite started_replaceUrlPromise.
  - assert (trace (started env) = []) as ->.
    { unfold started. unfold_module. rewrite promise_all2.
      by simp_state idtac. }
    intros l1 f l2 E. by destruct l1.
Qed.

Lemma TraceInv_microstep s :
  WF env s -> TrustInv env s -> TraceInv env s -> TraceInv env (microstep env s).
Proof.
  intros Hwf Ht [Hv Hc Ho].
  destruct (microstep_trace env s) as [added Ea].
  split.
  - intros Hs. rewrite Ea. apply elem_of_app. left.
    by apply Hv, firstVisible_not_settled.
  - intros Hr Hcp.
    destruct (pending_or_settled (replaceUrlPromise s)) as [En|Hr0].
    + destruct (steps_begin s Hwf Ht En Hr) as (x & rest & Eq & Ed & Hn & ->).
      rewrite trace_settle. apply clicked_start_steps; [done |].
      apply (ns_hash _ _ Hn).
    + rewrite Ea. by apply clicked_app, Hc.
  - destruct (queue s) as [|j rest] eqn:Eq; [by rewrite microstep_idle |].
    rewrite (microstep_cons _ _ _ _ Eq) in *.
    destruct (head_cases_fetch _ _ _ Hwf Eq) as [(o & -> & Hfv & Hcp)|Hno].
    + rewrite Ea. apply fetch_ordered_app; [done |]. right.
      assert (replaceUrlPromise s <> None) as Hr.
      { intros En. pose proof (ti_pre _ _ Ht En) as Hn.
        destruct (ns_queue _ _ Hn (JobReaction (r_visible (getParam env "click")) o))
          as (r & o' & E & Hpr); [rewrite Eq; by left |].
        injection E as <- <-.
        by destruct Hpr as [? | [? | [? | [? | ?]]]]. }
      split; [apply Hv; by rewrite Hfv | by apply Hc].
    + destruct (Hno (with_queue rest s)) as (added' & E' & Hf').
      rewrite E'. cbn [with_queue trace]. apply fetch_ordered_app; auto.
Qed.

Lemma TraceInv_deliver e s : TraceInv env s -> TraceInv env (deliver e s).
Proof.
  intros [Hv Hc Ho].
  destruct (ext_trace _ _ (deliver_extends e s)) as [added Ea].
  assert (trace_adds (fun e => negb (is_fetch e)) s (deliver e s))
    as (added' & E' & Hf').
  { destruct e; unfold deliver, answer; repeat case_match;
      try apply trace_adds_refl;
      (eexists [_]; by rewrite trace_settle). }
  split.
  - intros Hs.
    assert (e = FirstVisible \/ e <> FirstVisible) as [-> | He]
        by (destruct e; auto).
    + unfold deliver in *. unfold is_pending in *.
      destruct (result (cells s P_firstVisible)) eqn:E.
      * by apply Hv.
      * rewrite trace_settle. cbn [log with_trace trace].
        apply elem_of_app. right. by left.
    + rewrite deliver_result_frame in Hs by (by destruct e).
      rewrite Ea. apply elem_of_app. left. by apply Hv.
  - rewrite replaceUrlPromise_deliver. intros Hr Hcp.
    rewrite Ea. by apply clicked_app, Hc.
  - rewrite E'. apply fetch_ordered_app; auto.
Qed.

Lemma run_TraceInv schedule : TraceInv env (run env schedule).
Proof.
  refine (proj2 (proj1 (run_invariant env
            (fun s => Reachable env s /\ TraceInv env s) _ _ _ schedule))).
  - split; [apply Reachable_started | apply TraceInv_started].
  - intros s [Hr Ht]. split; [by apply Reachable_microstep |].
    apply TraceInv_microstep; [apply Hr | apply Hr | done].
  - intros e s [Hr Ht] _. split; [by apply Reachable_deliver |].
    by apply TraceInv_deliver.
Qed.

End Order.
(** ** What an idle state has reached *)

Section Idle.

Context (env : Env).

Lemma progress_idle p r (Done : Settled -> State -> Prop) s o :
  queue s = [] -> progress p r Done s -> result (cells s p) = Some o ->
  Done o s.
Proof.
  unfold progress. intros Eq H E. rewrite E, Eq in H.
  destruct H as [H|H]; [by apply elem_of_nil in H | done].
Qed.

(** With the race promise settled, the session is fulfilled. *)
Lemma promise_settled_session s :
  Reachable env s -> queue s = [] ->
  result (cells s P_promise) <> None ->
  is_fulfilled (result (cells s P_session)).
Proof.
  intros [Hs Ht Hj] Eq Hp.
  destruct (result (cells s P_promise)) as [o|] eqn:E; [| done].
  pose proof (progress_idle _ _ _ _ _ Eq (ti_race _ _ Ht) E) as Hto.
  unfold timeout_settled in Hto.
  destruct (result (cells s P_timeout)) as [o'|] eqn:E'; [| done].
  pose proof (progress_idle _ _ _ _ _ Eq (si_catch _ _ Hs) E') as Hse.
  unfold session_settled in Hse.
  destruct (result (cells s P_session)) as [x|] eqn:E''; [| done].
  destruct (si_fulfilled _ _ Hs x E'') as [v ->]. by exists v.
Qed.

(** A [Promise.all] of two fulfilled promises is fulfilled once their jobs
    have run. *)
Lemma all_fulfilled a e0 e1 s v0 v1 :
  AllInv a e0 e1 s ->
  element_done a 0 (Fulfilled v0) s -> element_done a 1 (Fulfilled v1) s ->
  result (cells s e0) = Some (Fulfilled v0) ->
  result (cells s e1) = Some (Fulfilled v1) ->
  result (cells s a) = Some (Fulfilled (JArr [v0; v1])).
Proof.
  intros (c0 & c1 & w0 & w1 & H1 & H2 & H3 & H4 & H5 & H6) Hd0 Hd1 E0 E1.
  cbn [element_done] in *. rewrite H1 in Hd0, Hd1. cbn in Hd0, Hd1. subst.
  specialize (H2 eq_refl). specialize (H3 eq_refl).
  specialize (H5 eq_refl eq_refl).
  destruct (result (cells s a)) as [[x|e]|] eqn:E; [| | done].
  - destruct (H4 x eq_refl) as (-> & _). congruence.
  - destruct (H6 e eq_refl); congruence.
Qed.

(** A [Promise.all] with a rejected element is rejected once the job of that
    element has run. *)
Lemma all_rejected a e0 e1 s e :
  AllInv a e0 e1 s ->
  (result (cells s e0) = Some (Rejected e)
   /\ element_done a 0 (Rejected e) s)
  \/ (result (cells s e1) = Some (Rejected e)
      /\ element_done a 1 (Rejected e) s) ->
  is_rejected (result (cells s a)).
Proof.
  intros (c0 & c1 & w0 & w1 & H1 & H2 & H3 & H4 & H5 & H6) Hd.
  cbn [element_done] in Hd.
  destruct (result (cells s a)) as [[x|e']|] eqn:E.
  - destruct (H4 x eq_refl) as (_ & -> & ->).
    specialize (H2 eq_refl). specialize (H3 eq_refl).
    destruct Hd as [[? _]|[? _]]; congruence.
  - by exists e'.
  - by destruct Hd as [[_ ?]|[_ ?]].
Qed.

(** Both trust signals false and the experiment off: the callback of line
    71 has taken lines 77-78. *)
Lemma untrusted_skips s :
  Reachable env s -> queue s = [] ->
  isExperimentOn env "alp" = false ->
  result (cells s P_isTrustedViewer) = Some (Fulfilled (JBool false)) ->
  result (cells s P_isTrustedReferrer) = Some (Fulfilled (JBool false)) ->
  result (cells s P_promise) <> None /\ replaceUrlPromise s = None.
Proof.
  intros [Hs Ht Hj] Eq Halp E0 E1.
  pose proof (progress_idle _ _ _ _ _ Eq (ti_elem0 _ _ Ht) E0) as Hd0.
  pose proof (progress_idle _ _ _ _ _ Eq (ti_elem1 _ _ Ht) E1) as Hd1.
  pose proof (all_fulfilled _ _ _ _ _ _ (ti_all _ _ Ht) Hd0 Hd1 E0 E1) as Ea.
  pose proof (progress_idle _ _ _ _ _ Eq (ti_trust _ _ Ht) Ea) as Hth.
  pose proof (ti_decided _ _ Ht _ Ea Hth) as Hd.
  unfold decision in Hd. cbn in Hd. by rewrite Halp in Hd.
Qed.

(** Both steps fulfilled: the join has resolved the session. *)
Lemma steps_fulfilled s v0 v1 :
  Reachable env s -> queue s = [] -> Steps env s ->
  result (cells s (replace_promise env)) = Some (Fulfilled v0) ->
  result (cells s (click_promise env)) = Some (Fulfilled v1) ->
  is_fulfilled (result (cells s P_joinAll))
  /\ is_fulfilled (result (cells s P_session)).
Proof.
  intros Hr Eq Hst E0 E1.
  pose proof (progress_idle _ _ _ _ _ Eq (st_elem0 _ _ Hst) E0) as Hd0.
  pose proof (progress_idle _ _ _ _ _ Eq (st_elem1 _ _ Hst) E1) as Hd1.
  pose proof (all_fulfilled _ _ _ _ _ _ (st_all _ _ Hst) Hd0 Hd1 E0 E1) as Ea.
  destruct (progress_idle _ _ _ _ _ Eq (st_join _ _ Hst) Ea) as [_ Hp].
  split; [by eexists | by apply promise_settled_session].
Qed.

(** A step rejected: the join has swallowed the rejection and the session
    is left to the timer. *)
Lemma steps_rejected s :
  Reachable env s -> queue s = [] -> Steps env s -> timer s <> None ->
  is_rejected (result (cells s (replace_promise env)))
  \/ is_rejected (result (cells s (click_promise env))) ->
  is_rejected (result (cells s P_joinAll))
  /\ result (cells s P_joinThen) = Some (Fulfilled JUndefined)
  /\ result (cells s P_session) = None.
Proof.
  intros Hr Eq Hst Htm Hrej.
  assert (is_rejected (result (cells s P_joinAll))) as [e Ea].
  { destruct Hrej as [[e E]|[e E]];
      apply (all_rejected _ _ _ _ e (st_all _ _ Hst)); [left | right];
      (split; [done |]).
    - apply (progress_idle _ _ _ _ _ Eq (st_elem0 _ _ Hst) E).
    - apply (progress_idle _ _ _ _ _ Eq (st_elem1 _ _ Hst) E). }
  destruct (progress_idle _ _ _ _ _ Eq (st_join _ _ Hst) Ea) as [Hjt _].
  split; [by exists e |]. split.
  - destruct (result (cells s P_joinThen)) as [o|] eqn:E; [| done].
    by rewrite (ji_joinThen _ _ (re_join _ _ Hr) o E).
  - destruct (pending_or_settled (result (cells s P_session))) as [E|E];
      [done | exfalso].
    apply (ji_session _ _ (re_join _ _ Hr)) in E.
    apply (ji_timeout _ _ (re_join _ _ Hr)) in E as [E|E]; [| done].
    apply (ji_promise _ _ (re_join _ _ Hr)) in E as [E|[v E]].
    + by rewrite (st_replace _ _ Hst) in E.
    + congruence.
Qed.

Lemma click_promise_valid c :
  viewer_params env !! "click" = Some c -> begins_with "https://" c ->
  click_promise env = P_clickUrl.
Proof.
  intros Hp Hb. unfold click_promise, click_index, getParam. rewrite Hp.
  assert (truthy (JStr c) = true) as ->.
  { destruct Hb as [rest ->]. reflexivity. }
  apply indexOf_zero in Hb as ->. reflexivity.
Qed.

End Idle.
(** ** The values promises are settled with *)

Lemma settle_value p o s x :
  result (cells (settle p o s) p) = Some x ->
  result (cells s p) = Some x \/ (result (cells s p) = None /\ x = o).
Proof.
  rewrite cells_settle_eq. destruct (result (cells s p)) eqn:E.
  - rewrite E. by left.
  - cbn. intros [= <-]. by right.
Qed.

Section Values.

Context (env : Env).

Lemma settle_value_any p o s q x :
  result (cells (settle p o s) q) = Some x ->
  result (cells s q) = Some x \/ x = o.
Proof.
  rewrite result_settle. destruct (decide (q = p)) as [->|Hne]; [| by left].
  destruct (result (cells s p)); [by left | intros [= <-]; by right].
Qed.

Lemma replace_step_value s q o :
  result (cells (replace_step env s) q) = Some o ->
  result (cells s q) = Some o \/ o = Fulfilled JUndefined.
Proof.
  unfold replace_step.
  destruct (replace_promise env); rewrite ?result_subscribe;
    try (by left); intros [H|H]%settle_value_any; auto.
Qed.

Lemma click_step_value s q o :
  result (cells (click_step env s) q) = Some o ->
  result (cells s q) = Some o \/ o = Fulfilled JUndefined.
Proof.
  unfold click_step.
  destruct (click_promise env); rewrite ?result_subscribe;
    cbn [log with_trace cells]; rewrite ?cells_clear_hash;
    try (by left); intros [H|H]%settle_value_any; auto.
Qed.

(** Lines 81-86 settle only promises of the steps, with [undefined]. *)
Lemma start_steps_fulfils s q o :
  result (cells s q) = None ->
  result (cells (start_steps env s) q) = Some o ->
  o = Fulfilled JUndefined.
Proof.
  intros Hn. rewrite start_steps_eq, !result_subscribe.
  cbn [with_alls with_clickUrlPromise cells].
  intros [H|H]%click_step_value; [| done].
  cbn [with_replaceUrlPromise cells] in H.
  apply replace_step_value in H as [H|H]; [congruence | done].
Qed.

Lemma steps_settled_by s j rest q :
  WF env s -> queue s = j :: rest -> q ∈ resolved_steps ->
  q ∈ job_settles j ->
  (exists x, j = JobReaction r_trust (Fulfilled x))
  \/ (exists o, j = JobReaction r_replace o /\ q = P_replaceAsync).
Proof.
  intros Hwf Eq Hq Hin.
  assert (forall p, p ∈ resolved_steps ->
            p <> P_timeout /\ p <> P_session /\ p <> P_trustAll
            /\ p <> P_trustThen /\ p <> P_joinAll /\ p <> P_joinThen
            /\ p <> P_invoked /\ p <> P_clickUrl /\ p <> P_invoke
            /\ p <> P_promise) as Hne.
  { intros p Hp. unfold resolved_steps in Hp.
    repeat (apply elem_of_cons in Hp as [->|Hp]; [by split_and! |]).
    by apply elem_of_nil in Hp. }
  destruct (Hne q Hq) as (? & ? & ? & ? & ? & ? & ? & ? & ? & ?).
  head_job Hwf Eq; try destruct o; cbn in Hin;
    try (left; by eexists);
    repeat (apply elem_of_cons in Hin as [->|Hin];
            [first [done | right; by eexists] |]);
    by apply elem_of_nil in Hin.
Qed.

Lemma started_timer_eq :
  timer (started env) = Some (TIMEOUT_VALUE, TIMEOUT_MESSAGE).
Proof.
  unfold started. unfold_module. rewrite promise_all2. by simp_state idtac.
Qed.

Lemma ValuesInv_started : ValuesInv (started env).
Proof.
  split.
  - intros q o Hq.
    rewrite (ns_cells _ _ (Pre_started env (started_replaceUrlPromise env)) q);
      [done |].
    unfold resolved_steps, step_cells in *. set_solver.
  - by rewrite started_promise.
  - by rewrite started_timeout.
  - by rewrite started_session.
  - rewrite started_timer_eq. by intros d m [= <- <-].
Qed.

Lemma ValuesInv_microstep s :
  WF env s -> ValuesInv s -> ValuesInv (microstep env s).
Proof.
  intros Hwf [Hst Hp Hto Hse Htm].
  assert (forall q o, result (cells (microstep env s) q) = Some o ->
            result (cells s q) = Some o
            \/ (result (cells s q) = None
                /\ exists j rest, queue s = j :: rest /\ q ∈ job_settles j))
    as Hnew.
  { intros q o Ho.
    destruct (result (cells s q)) as [o'|] eqn:E.
    - left. rewrite (microstep_results _ _ _ _ E) in Ho. congruence.
    - right. split; [done |]. apply (settled_by env); [done | done |].
      by rewrite Ho. }
  split.
  - intros q o Hq Ho. destruct (Hnew q o Ho) as [E|[E (j & rest & Eq & Hin)]];
      [by eapply Hst |].
    rewrite (microstep_cons _ _ _ _ Eq) in Ho.
    assert (q <> P_trustThen /\ q <> P_promise) as [Hn1 Hn2].
    { unfold resolved_steps in Hq.
      repeat (apply elem_of_cons in Hq as [->|Hq]; [done |]).
      by apply elem_of_nil in Hq. }
    destruct (steps_settled_by _ _ _ _ Hwf Eq Hq Hin)
      as [[x ->]|[o' [-> ->]]].
    + rewrite eff_trust in Ho. destruct (decision env x);
        rewrite ?cells_settle_ne in Ho by done;
        try (cbn [with_queue cells] in Ho; congruence).
      by apply (start_steps_fulfils (with_queue rest s) q).
    + rewrite eff_replace in Ho.
      apply settle_value in Ho as [Ho|[_ ->]]; [| done].
      cbn [log with_trace with_queue cells] in Ho. congruence.
  - intros o Ho. destruct (Hnew _ o Ho) as [E|[E (j & rest & Eq & Hin)]];
      [by apply Hp |].
    rewrite (microstep_cons _ _ _ _ Eq) in Ho.
    destruct (promise_settled_by env _ _ _ Hwf Eq Hin) as [[x ->]|[v [-> Hv]]].
    + rewrite eff_trust in Ho. destruct x as [x|e];
        [destruct (decision env x) |];
        rewrite ?cells_settle_ne in Ho by done;
        try (cbn [with_queue cells] in Ho; congruence).
      * apply settle_value in Ho as [Ho|[_ ->]]; [| done].
        cbn [with_queue cells] in Ho. congruence.
      * rewrite result_start_steps in Ho by done.
        cbn [with_queue cells] in Ho. congruence.
    + rewrite eff_join, cells_settle_ne in Ho by done.
      apply settle_value in Ho as [Ho|[_ ->]]; [| done].
      cbn [with_queue cells] in Ho. congruence.
  - intros o Ho. destruct (Hnew _ o Ho) as [E|[E (j & rest & Eq & Hin)]];
      [by apply Hto |].
    rewrite (microstep_cons _ _ _ _ Eq) in Ho.
    destruct (timeout_settled_by env _ _ _ Hwf Eq Hin) as (o' & -> & Ho').
    rewrite eff_race in Ho.
    apply settle_value in Ho as [Ho|[_ ->]];
      [cbn [with_queue cells] in Ho; congruence |].
    left. by apply Hp.
  - intros o Ho. destruct (Hnew _ o Ho) as [E|[E (j & rest & Eq & Hin)]];
      [by apply Hse |].
    rewrite (microstep_cons _ _ _ _ Eq) in Ho.
    destruct (session_settled_by env _ _ _ Hwf Eq Hin) as (o' & -> & Ho').
    rewrite eff_catch in Ho. destruct (Hto _ Ho') as [-> | ->];
      apply settle_value in Ho as [Ho|[_ ->]]; try done;
      cbn [log with_trace with_queue cells] in Ho; congruence.
  - intros d m. rewrite microstep_timer. apply Htm.
Qed.

Lemma ValuesInv_deliver e s : ValuesInv s -> ValuesInv (deliver e s).
Proof.
  intros [Hst Hp Hto Hse Htm]. split.
  - intros q o Hq. rewrite deliver_result_frame; [by apply Hst |].
    unfold resolved_steps in Hq.
    repeat (apply elem_of_cons in Hq as [->|Hq]; [by destruct e |]).
    by apply elem_of_nil in Hq.
  - intros o. rewrite deliver_result_frame by (by destruct e). apply Hp.
  - intros o.
    assert (e = TimerFires \/ e <> TimerFires) as [-> | He]
        by (destruct e; auto).
    + unfold deliver. destruct (timer s) as [[d m]|] eqn:E; [| apply Hto].
      destruct (Htm d m eq_refl) as [_ ->].
      intros Ho. apply settle_value in Ho as [Ho|[_ ->]]; [| by right].
      apply Hto. by cbn [log with_trace with_timer cells] in Ho.
    + rewrite deliver_result_frame by (by destruct e). apply Hto.
  - intros o. rewrite deliver_result_frame by (by destruct e). apply Hse.
  - intros d m.
    assert (e = TimerFires \/ e <> TimerFires) as [-> | He]
        by (destruct e; auto).
    + unfold deliver. destruct (timer s) as [[d' m']|] eqn:E; [| by rewrite E].
      by rewrite timer_settle.
    + rewrite timer_deliver by done. apply Htm.
Qed.

Lemma run_ValuesInv schedule : ValuesInv (run env schedule).
Proof.
  refine (proj2 (proj1 (run_invariant env
            (fun s => WF env s /\ ValuesInv s) _ _ _ schedule))).
  - split; [apply WF_start | apply ValuesInv_started].
  - intros s [Hwf Hv]. split; [by apply WF_microstep |].
    by apply ValuesInv_microstep.
  - intros e s [Hwf Hv] _. split; [by apply WF_deliver |].
    by apply ValuesInv_deliver.
Qed.

End Values.
(** ** A rejected trust question, and the fragment *)

Section TrustRejected.

Context (env : Env).

(** A job of lines 56-71 other than the trust job leaves the variables of
    the callback and the location alone. *)
Lemma pre_trust_locals s r o rest :
  queue s = JobReaction r o :: rest -> pre_trust_reaction r -> r <> r_trust ->
  same_locals s (microstep env s).
Proof.
  intros Eq Hr Hne. rewrite (microstep_cons _ _ _ _ Eq).
  destruct Hr as [-> | [-> | [-> | [-> | ->]]]]; [| | | | done];
    apply (run_job_same_locals env _ _ (with_queue rest s)); by destruct o.
Qed.

Lemma pre_trust_cases r : pre_trust_reaction r -> r = r_trust \/ r <> r_trust.
Proof.
  intros [-> | [-> | [-> | [-> | ->]]]]; [right | right | right | right | left];
    done.
Qed.

Lemma TrustRejected_started : TrustRejected (started env).
Proof. intros [e He]. by rewrite started_trustAll in He. Qed.

Lemma TrustRejected_microstep s :
  WF env s -> TrustInv env s -> TrustRejected s ->
  TrustRejected (microstep env s).
Proof.
  intros Hwf Ht Hr [e He].
  assert (replaceUrlPromise s = None /\ result (cells s P_promise) = None
          /\ forall o, result (cells s P_trustAll) = Some o -> o = Rejected e)
    as (En & Hp & Hrej).
  { destruct (result (cells s P_trustAll)) as [o|] eqn:E.
    - rewrite (microstep_results _ _ _ _ E) in He. injection He as ->.
      destruct Hr as [H1 H2]; [by exists e |]. split_and!; congruence.
    - destruct (ti_before _ _ Ht) as [H1 H2]; [| done].
      destruct (pending_or_settled (result (cells s P_trustThen)))
        as [H|H]; [done |].
      apply (ti_after _ _ Ht) in H. congruence. }
  destruct (queue s) as [|j rest] eqn:Eq; [by rewrite microstep_idle |].
  destruct (ns_queue _ _ (ti_pre _ _ Ht En) j) as (r & o & -> & Hpr);
    [rewrite Eq; by left |].
  destruct (pre_trust_cases r Hpr) as [-> | Hne].
  - pose proof (wf_head _ _ _ _ Hwf Eq) as (p & Hedge & Hsrc).
    inversion Hedge; subst. pose proof (Hrej _ Hsrc) as ->.
    rewrite (microstep_cons _ _ _ _ Eq), eff_trust.
    by rewrite replaceUrlPromise_settle, cells_settle_ne.
  - destruct (pre_trust_frames env s r o rest Eq Hpr Hne) as [-> ->]. done.
Qed.

Lemma TrustRejected_deliver e s : TrustRejected s -> TrustRejected (deliver e s).
Proof.
  unfold TrustRejected.
  rewrite replaceUrlPromise_deliver, !deliver_result_frame by (by destruct e).
  done.
Qed.

Lemma run_TrustRejected schedule : TrustRejected (run env schedule).
Proof.
  refine (proj2 (proj1 (run_invariant env
            (fun s => Reachable env s /\ TrustRejected s) _ _ _ schedule))).
  - split; [apply Reachable_started | apply TrustRejected_started].
  - intros s [Hr Ht]. split; [by apply Reachable_microstep |].
    apply TrustRejected_microstep; [apply Hr | apply Hr | done].
  - intros e s [Hr Ht] _. split; [by apply Reachable_deliver |].
    by apply TrustRejected_deliver.
Qed.

(** *** The fragment *)

Lemma location_hash_start_steps s :
  location_hash (start_steps env s)
  = match click_promise env with
    | P_clickUrl => ""
    | _ => location_hash s
    end.
Proof.
  rewrite start_steps_eq, !location_hash_subscribe.
  cbn [with_alls with_clickUrlPromise location_hash].
  unfold click_step.
  destruct (click_promise_cases env) as [E|[E|E]]; rewrite E;
    rewrite ?location_hash_subscribe, ?location_hash_settle;
    cbn [log with_trace with_replaceUrlPromise location_hash];
    rewrite ?location_hash_clear_hash, ?location_hash_replace_step; done.
Qed.

Lemma location_hash_deliver e s : location_hash (deliver e s) = location_hash s.
Proof.
  destruct e; unfold deliver, answer; repeat case_match;
    by rewrite ?location_hash_settle.
Qed.

Lemma HashInv_started : HashInv env (started env).
Proof.
  unfold HashInv. rewrite started_replaceUrlPromise.
  apply (ns_hash _ _ (Pre_started env (started_replaceUrlPromise env))).
Qed.

Lemma HashInv_microstep s :
  WF env s -> TrustInv env s -> HashInv env s -> HashInv env (microstep env s).
Proof.
  intros Hwf Ht Hh. unfold HashInv in *.
  destruct (pending_or_settled (replaceUrlPromise s)) as [En|Hr0].
  - rewrite En in Hh.
    destruct (pending_or_settled (replaceUrlPromise (microstep env s)))
      as [En'|Hr'].
    + rewrite En'.
      destruct (queue s) as [|j rest] eqn:Eq; [by rewrite microstep_idle |].
      destruct (ns_queue _ _ (ti_pre _ _ Ht En) j) as (r & o & -> & Hpr);
        [rewrite Eq; by left |].
      destruct (pre_trust_cases r Hpr) as [-> | Hne].
      * rewrite (microstep_cons _ _ _ _ Eq), eff_trust in *.
        destruct o as [x|e]; [destruct (decision env x) |];
          rewrite ?location_hash_settle; try done.
        by rewrite replaceUrlPromise_settle, replaceUrlPromise_start_steps
          in En'.
      * destruct (pre_trust_locals s r o rest Eq Hpr Hne) as (_ & _ & ->).
        done.
    + destruct (steps_begin env s Hwf Ht En Hr')
        as (x & rest & Eq & Ed & Hn & ->).
      rewrite replaceUrlPromise_settle, replaceUrlPromise_start_steps.
      rewrite location_hash_settle, location_hash_start_steps.
      unfold hash_after. rewrite (ns_hash _ _ Hn). done.
  - destruct (same_locals_after_trust env s Hwf (ti_once _ _ Ht)
                (before_trust env s Ht Hr0)) as (-> & _ & ->).
    done.
Qed.

Lemma HashInv_deliver e s : HashInv env s -> HashInv env (deliver e s).
Proof.
  unfold HashInv. by rewrite replaceUrlPromise_deliver, location_hash_deliver.
Qed.

Lemma run_HashInv schedule : HashInv env (run env schedule).
Proof.
  refine (proj2 (proj1 (run_invariant env
            (fun s => Reachable env s /\ HashInv env s) _ _ _ schedule))).
  - split; [apply Reachable_started | apply HashInv_started].
  - intros s [Hr Ht]. split; [by apply Reachable_microstep |].
    apply HashInv_microstep; [apply Hr | apply Hr | done].
  - intros e s [Hr Ht] _. split; [by apply Reachable_deliver |].
    by apply HashInv_deliver.
Qed.

(** The [click] parameter behind [click_promise]. *)
Lemma click_promise_inv :
  click_promise env = P_clickUrl ->
  exists c, viewer_params env !! "click" = Some c /\ begins_with "https://" c.
Proof.
  unfold click_promise, click_index, getParam.
  destruct (viewer_params env !! "click") as [c|]; [| done].
  destruct (truthy (JStr c)); cbn [negb]; [| done].
  destruct (Z.eqb_spec (indexOf c "https://") 0) as [E|E]; [| done].
  intros _. exists c. split; [done |]. by apply indexOf_zero.
Qed.

End TrustRejected.
(** ** At most one fetch, and only the expected one *)

Lemma count_fetch_app l1 l2 :
  count_fetch (l1 ++ l2) = count_fetch l1 + count_fetch l2.
Proof. apply sum_weights_app. Qed.

Lemma count_fetch_none l :
  forallb (fun e => negb (is_fetch e)) l = true -> count_fetch l = 0.
Proof.
  induction l as [|e l IH]; [done |]. cbn [forallb].
  intros [He Hl]%andb_true_iff. unfold count_fetch, sum_weights in *.
  cbn [foldr]. rewrite IH by done. by destruct (is_fetch e).
Qed.

Lemma count_fetch_adds s s' :
  trace_adds (fun e => negb (is_fetch e)) s s' ->
  count_fetch (trace s') = count_fetch (trace s).
Proof.
  intros (added & -> & H). rewrite count_fetch_app, (count_fetch_none _ H).
  lia.
Qed.

Section Fetch.

Context (env : Env).

(** The job of the visibility wait (lines 169-170 and 182-191). *)
Lemma eff_visible c o s :
  run_job env (JobReaction (r_visible (JStr c)) o) s
  = match o with
    | Fulfilled _ =>
        enqueue [JobResolveThenable P_invoked P_invoke]
          (subscribe P_fetchJson r_resJson
             (with_outstanding
                (P_fetchJson
                 :: outstanding
                      (log (EvFetchJson (fetch_url env c) "include" false) s))
                (log (EvFetchJson (fetch_url env c) "include" false) s)))
    | Rejected e => settle P_invoked (Rejected e) s
    end.
Proof. by destruct o. Qed.

Lemma trace_visible c o s :
  trace (run_job env (JobReaction (r_visible (JStr c)) o) s)
  = trace s ++ match o with
               | Fulfilled _ =>
                   [EvFetchJson (fetch_url env c) "include" false]
               | Rejected _ => []
               end.
Proof.
  rewrite eff_visible. destruct o.
  - cbn [enqueue with_queue trace]. by rewrite trace_subscribe.
  - by rewrite trace_settle, app_nil_r.
Qed.

Lemma census_clear_hash w t s : census w t (clear_hash s) = census w t s.
Proof. unfold clear_hash. by case_match. Qed.

Lemma census_start_steps s :
  census w_fetch 0 (start_steps env s) <= census w_fetch 0 s + 1.
Proof.
  rewrite start_steps_eq. rewrite !census_subscribe, census_with_alls,
    census_with_clickUrlPromise.
  assert (census w_fetch 0 (replace_step env s) = census w_fetch 0 s) as Hr.
  { unfold replace_step.
    destruct (replace_promise env);
      rewrite ?census_subscribe, ?census_settle, ?census_with_outstanding,
        ?census_log;
      unfold w_fetch, r_replace; cbn [onFulfilled]; lia. }
  unfold click_step.
  destruct (click_promise env);
    rewrite ?census_subscribe, ?census_settle, ?census_log,
      ?census_clear_hash, ?census_with_replaceUrlPromise, Hr;
    unfold w_fetch, r_join, r_element, r_apply, r_visible;
    cbn [onFulfilled]; lia.
Qed.

(** Running a job does not raise the number of fetches issued or still to
    be issued. *)
Lemma fetch_potential_job s j rest :
  WF env s -> queue s = j :: rest ->
  count_fetch (trace (microstep env s)) + census w_fetch 0 (microstep env s)
  <= count_fetch (trace s) + census w_fetch 0 s.
Proof.
  intros Hwf Eq. rewrite (microstep_cons _ _ _ _ Eq).
  pose proof (census_dequeue w_fetch 0 j rest s Eq) as Hd.
  assert (forall r o,
            j = JobReaction r o -> selected r o <> H_trustResults ->
            (forall c, selected r o <> H_visibleInvoke c) ->
            count_fetch (trace (run_job env j (with_queue rest s)))
            + census w_fetch 0 (run_job env j (with_queue rest s))
            <= count_fetch (trace s) + census w_fetch 0 s) as Hquiet.
  { intros r o -> Hnt Hnv.
    rewrite (count_fetch_adds _ _
               (run_job_no_fetch env r o (with_queue rest s) Hnv)).
    pose proof (run_job_census_le env w_fetch r o (with_queue rest s)) as Hc.
    cbn [with_queue trace]. cbn [job_census] in Hd.
    assert (census w_fetch 0 (run_job env (JobReaction r o) (with_queue rest s))
            <= census w_fetch 0 (with_queue rest s)); [| lia].
    apply Hc. intros x Hx.
    destruct (selected r o); cbn [spawns] in Hx; try done;
      repeat (apply elem_of_cons in Hx as [->|Hx]; [reflexivity |]);
      by apply elem_of_nil in Hx. }
  head_job Hwf Eq;
    try (eapply Hquiet; [reflexivity | by destruct o | by destruct o]).
  - (* the trust job *)
    rewrite (count_fetch_adds _ _
               (run_job_no_fetch env r_trust o (with_queue rest s)
                  ltac:(by destruct o))).
    cbn [with_queue trace]. cbn [job_census] in Hd.
    unfold w_fetch at 2 in Hd. cbn [r_trust onFulfilled] in Hd.
    rewrite eff_trust.
    destruct o as [x|e]; [destruct (decision env x) |];
      rewrite ?census_settle; try lia.
    pose proof (census_start_steps (with_queue rest s)). lia.
  - (* the job of the visibility wait *)
    match goal with
    | H : click_promise env = P_clickUrl |- _ =>
        destruct (click_promise_inv env H) as (c & Hc & _)
    end.
    unfold getParam in *. rewrite Hc in *.
    rewrite trace_visible, count_fetch_app. cbn [with_queue trace].
    pose proof (run_job_census_le env w_fetch (r_visible (JStr c)) o
                  (with_queue rest s)) as Hle.
    cbn [job_census] in Hd.
    unfold w_fetch at 2 in Hd. cbn [r_visible onFulfilled] in Hd.
    assert (census w_fetch 0
              (run_job env (JobReaction (r_visible (JStr c)) o)
                 (with_queue rest s))
            <= census w_fetch 0 (with_queue rest s)) as Hle'.
    { apply Hle. intros x Hx. destruct o; cbn in Hx;
        repeat (apply elem_of_cons in Hx as [->|Hx]; [reflexivity |]);
        by apply elem_of_nil in Hx. }
    destruct o; unfold count_fetch at 2, sum_weights;
      cbn [foldr is_fetch]; lia.
  - rewrite eff_thenable, census_subscribe, trace_subscribe.
    cbn [with_queue trace job_census] in *.
    unfold w_fetch at 2, r_adopt. cbn [onFulfilled]. lia.
  - rewrite eff_thenable, census_subscribe, trace_subscribe.
    cbn [with_queue trace job_census] in *.
    unfold w_fetch at 2, r_adopt. cbn [onFulfilled]. lia.
Qed.

Lemma FetchInv_started : FetchInv env (started env).
Proof.
  assert (trace (started env) = []) as Et.
  { unfold started. unfold_module. rewrite promise_all2. by simp_state idtac. }
  split.
  - rewrite Et. unfold started. unfold_module. rewrite promise_all2.
    autorewrite with census. unfold census, cells_census.
    cbn. lia.
  - rewrite Et. by intros e He%elem_of_nil.
Qed.

Lemma FetchInv_microstep s :
  WF env s -> FetchInv env s -> FetchInv env (microstep env s).
Proof.
  intros Hwf [Ho He].
  destruct (queue s) as [|j rest] eqn:Eq; [by rewrite microstep_idle |].
  split.
  - pose proof (fetch_potential_job s j rest Hwf Eq). lia.
  - rewrite (microstep_cons _ _ _ _ Eq).
    destruct (head_cases_fetch env _ _ _ Hwf Eq)
      as [(o & -> & Hfv & Hcp)|Hno].
    + destruct (click_promise_inv env Hcp) as (c & Hc & Hb).
      unfold getParam. rewrite Hc, trace_visible. cbn [with_queue trace].
      intros e [Hin|Hin]%elem_of_app Hf; [by apply He |].
      destruct o; [| by apply elem_of_nil in Hin].
      apply list_elem_of_singleton in Hin as ->. by exists c.
    + destruct (Hno (with_queue rest s)) as (added & -> & Hadd).
      cbn [with_queue trace].
      intros e [Hin|Hin]%elem_of_app Hf; [by apply He |].
      rewrite forallb_forall in Hadd.
      apply list_elem_of_In, Hadd in Hin. by rewrite Hf in Hin.
Qed.

Lemma deliver_no_fetch e s :
  trace_adds (fun e => negb (is_fetch e)) s (deliver e s).
Proof.
  destruct e; unfold deliver, answer; repeat case_match;
    try apply trace_adds_refl; (eexists [_]; by rewrite trace_settle).
Qed.

Lemma census_deliver w t e s : census w t (deliver e s) = census w t s.
Proof.
  destruct e; unfold deliver, answer; repeat case_match;
    by rewrite ?census_settle.
Qed.

Lemma FetchInv_deliver e s : FetchInv env s -> FetchInv env (deliver e s).
Proof.
  intros [Ho He]. split.
  - by rewrite (count_fetch_adds _ _ (deliver_no_fetch e s)), census_deliver.
  - destruct (deliver_no_fetch e s) as (added & -> & Hadd).
    intros x [Hin|Hin]%elem_of_app Hf; [by apply He |].
    rewrite forallb_forall in Hadd.
    apply list_elem_of_In, Hadd in Hin. by rewrite Hf in Hin.
Qed.

Lemma run_FetchInv schedule : FetchInv env (run env schedule).
Proof.
  refine (proj2 (proj1 (run_invariant env
            (fun s => WF env s /\ FetchInv env s) _ _ _ schedule))).
  - split; [apply WF_start | apply FetchInv_started].
  - intros s [Hwf Hv]. split; [by apply WF_microstep |].
    by apply FetchInv_microstep.
  - intros e s [Hwf Hv] _. split; [by apply WF_deliver |].
    by apply FetchInv_deliver.
Qed.

End Fetch.
(** ** What never happens without the parameters *)

Ltac trace_prim :=
  first [ (apply trace_adds_log; reflexivity)
        | (apply trace_adds_log_with; reflexivity)
        | (apply trace_adds_same;
           first [ apply trace_settle | apply trace_subscribe
                 | apply trace_resolveElement | reflexivity ]) ].

Section Quiet.

Context (env : Env).

Lemma call_no_click_event h v :
  click_handler h = false ->
  mrel (trace_adds (fun e => negb (is_click_event e))) (call env h v).
Proof.
  intros Hh. destruct h; try done; unfold_code;
    mrel_steps (trace_adds_refl (fun e => negb (is_click_event e)))
               (trace_adds_trans (fun e => negb (is_click_event e)))
               trace_prim.
Qed.

Lemma call_no_replace_event h v :
  replace_handler h = false ->
  mrel (trace_adds (fun e => negb (is_replace_event e))) (call env h v).
Proof.
  intros Hh. destruct h; try done; unfold_code;
    mrel_steps (trace_adds_refl (fun e => negb (is_replace_event e)))
               (trace_adds_trans (fun e => negb (is_replace_event e)))
               trace_prim.
Qed.

Lemma run_job_no_click_event r o s :
  click_handler (selected r o) = false ->
  trace_adds (fun e => negb (is_click_event e)) s
             (run_job env (JobReaction r o) s).
Proof.
  intros Hh.
  apply (run_job_rel env (trace_adds (fun e => negb (is_click_event e)))
           (trace_adds_refl _) (trace_adds_trans _)
           (fun h => click_handler h = false)).
  - intros h v H. by apply call_no_click_event.
  - intros p x s0. apply trace_adds_same, trace_settle.
  - intros p q s0. by apply trace_adds_same.
  - by right.
Qed.

Lemma run_job_no_replace_event r o s :
  replace_handler (selected r o) = false ->
  trace_adds (fun e => negb (is_replace_event e)) s
             (run_job env (JobReaction r o) s).
Proof.
  intros Hh.
  apply (run_job_rel env (trace_adds (fun e => negb (is_replace_event e)))
           (trace_adds_refl _) (trace_adds_trans _)
           (fun h => replace_handler h = false)).
  - intros h v H. by apply call_no_replace_event.
  - intros p x s0. apply trace_adds_same, trace_settle.
  - intros p q s0. by apply trace_adds_same.
  - by right.
Qed.

(** What the two steps log. *)
Lemma trace_adds_replace_step (P : Event -> bool) s :
  (replace_promise env <> P_replaceNoParam ->
   forall e, is_replace_event e = true -> P e = true) ->
  trace_adds P s (replace_step env s).
Proof.
  intros HP. unfold replace_step.
  destruct (replace_promise_cases env) as [E|[E|E]]; rewrite E in *;
    cbv iota.
  - apply trace_adds_same, trace_settle.
  - eexists [_]. rewrite trace_settle. split; [reflexivity |].
    cbn. by rewrite HP.
  - eexists [_]. split; [rewrite trace_subscribe; reflexivity |].
    cbn. by rewrite HP.
Qed.

Lemma trace_adds_click_step (P : Event -> bool) s :
  (forall tag args, P (EvUserWarn tag args) = true) ->
  (click_promise env = P_clickUrl ->
   P (EvSetLocationHash "") = true /\ P EvWhenFirstVisible = true) ->
  trace_adds P s (click_step env s).
Proof.
  intros Hw HP. unfold click_step.
  destruct (click_promise_cases env) as [E|[E|E]]; rewrite E in *;
    cbv iota.
  - apply trace_adds_same, trace_settle.
  - eexists [_]. rewrite trace_settle. split; [reflexivity |].
    cbn. by rewrite Hw.
  - destruct (HP eq_refl) as [H1 H2]. unfold trace_adds.
    rewrite !trace_subscribe. cbn [log with_trace trace].
    rewrite trace_clear_hash, <- app_assoc. eexists. split; [reflexivity |].
    rewrite forallb_app. case_match; cbn; by rewrite ?H1, ?H2.
Qed.

Lemma trace_adds_start_steps (P : Event -> bool) s :
  (replace_promise env <> P_replaceNoParam ->
   forall e, is_replace_event e = true -> P e = true) ->
  (forall tag args, P (EvUserWarn tag args) = true) ->
  (click_promise env = P_clickUrl ->
   P (EvSetLocationHash "") = true /\ P EvWhenFirstVisible = true) ->
  trace_adds P s (start_steps env s).
Proof.
  intros Hr Hw Hc.
  pose proof (trace_adds_replace_step P s Hr) as (a1 & E1 & F1).
  pose proof (trace_adds_click_step P
                (with_replaceUrlPromise (Some (replace_promise env))
                   (replace_step env s)) Hw Hc) as (a2 & E2 & F2).
  exists (a1 ++ a2). rewrite start_steps_eq, !trace_subscribe.
  cbn [with_alls with_clickUrlPromise trace]. rewrite E2.
  cbn [with_replaceUrlPromise trace]. rewrite E1, app_assoc.
  split; [done |]. by rewrite forallb_app, F1, F2.
Qed.

Lemma trace_adds_trust (P : Event -> bool) o s :
  (replace_promise env <> P_replaceNoParam ->
   forall e, is_replace_event e = true -> P e = true) ->
  (forall tag args, P (EvUserWarn tag args) = true) ->
  (click_promise env = P_clickUrl ->
   P (EvSetLocationHash "") = true /\ P EvWhenFirstVisible = true) ->
  trace_adds P s (run_job env (JobReaction r_trust o) s).
Proof.
  intros Hr Hw Hc. rewrite eff_trust.
  destruct o as [x|e]; [destruct (decision env x) |];
    try (apply trace_adds_same; by rewrite ?trace_settle).
  destruct (trace_adds_start_steps P s Hr Hw Hc) as (a & E & F).
  exists a. by rewrite trace_settle.
Qed.

Lemma forallb_adds (P : Event -> bool) s s' :
  trace_adds P s s' -> forallb P (trace s) = true ->
  forallb P (trace s') = true.
Proof. intros (a & -> & F) H. by rewrite forallb_app, H, F. Qed.

Lemma QuietInv_started : QuietInv env (started env).
Proof.
  assert (trace (started env) = []) as Et.
  { unfold started. unfold_module. rewrite promise_all2. by simp_state idtac. }
  split; intros _; by rewrite Et.
Qed.

Lemma QuietInv_microstep s :
  WF env s -> QuietInv env s -> QuietInv env (microstep env s).
Proof.
  intros Hwf [Hc Hr].
  destruct (queue s) as [|j rest] eqn:Eq; [by rewrite microstep_idle |].
  rewrite (microstep_cons _ _ _ _ Eq).
  split.
  - intros Hne. specialize (Hc Hne).
    apply (forallb_adds _ (with_queue rest s)); [| done].
    head_job Hwf Eq; try done;
      try (apply run_job_no_click_event; by destruct o);
      try (rewrite eff_thenable; apply trace_adds_same, trace_subscribe).
    apply trace_adds_trust; [by intros _ [] | done | done].
  - intros He. specialize (Hr He).
    apply (forallb_adds _ (with_queue rest s)); [| done].
    head_job Hwf Eq; try congruence;
      try (apply run_job_no_replace_event; by destruct o);
      try (rewrite eff_thenable; apply trace_adds_same, trace_subscribe).
    apply trace_adds_trust; [done | done | done].
Qed.

Lemma QuietInv_deliver e s : QuietInv env s -> QuietInv env (deliver e s).
Proof.
  intros [Hc Hr].
  assert (forall P : Event -> bool,
            (forall x, P (EvExternal x) = true) ->
            trace_adds P s (deliver e s)) as Hadd.
  { intros P HP. destruct e; unfold deliver, answer; repeat case_match;
      try apply trace_adds_refl;
      (eexists [_]; rewrite trace_settle; split; [reflexivity |];
       cbn; by rewrite HP). }
  split; intros H; (eapply forallb_adds; [by apply Hadd | auto]).
Qed.

Lemma run_QuietInv schedule : QuietInv env (run env schedule).
Proof.
  refine (proj2 (proj1 (run_invariant env
            (fun s => WF env s /\ QuietInv env s) _ _ _ schedule))).
  - split; [apply WF_start | apply QuietInv_started].
  - intros s [Hwf Hv]. split; [by apply WF_microstep |].
    by apply QuietInv_microstep.
  - intros e s [Hwf Hv] _. split; [by apply WF_deliver |].
    by apply QuietInv_deliver.
Qed.

End Quiet.
(** ** More on idle states *)

Section IdleMore.

Context (env : Env).

(** A trust signal or the experiment: the callback of line 71 has started
    the steps. *)
Lemma trusted_starts s v0 v1 :
  Reachable env s -> queue s = [] ->
  result (cells s P_isTrustedViewer) = Some (Fulfilled v0) ->
  result (cells s P_isTrustedReferrer) = Some (Fulfilled v1) ->
  truthy v0 = true \/ truthy v1 = true \/ isExperimentOn env "alp" = true ->
  Steps env s.
Proof.
  intros [Hs Ht Hj] Eq E0 E1 Hor.
  pose proof (progress_idle _ _ _ _ _ Eq (ti_elem0 _ _ Ht) E0) as Hd0.
  pose proof (progress_idle _ _ _ _ _ Eq (ti_elem1 _ _ Ht) E1) as Hd1.
  pose proof (all_fulfilled _ _ _ _ _ _ (ti_all _ _ Ht) Hd0 Hd1 E0 E1) as Ea.
  pose proof (progress_idle _ _ _ _ _ Eq (ti_trust _ _ Ht) Ea) as Hth.
  pose proof (ti_decided _ _ Ht _ Ea Hth) as Hd.
  assert (decision env (JArr [v0; v1]) = Starts) as Ed.
  { unfold decision. cbn [js_index nth].
    destruct Hor as [-> | [-> | ->]]; cbn [negb andb];
      by rewrite ?andb_false_r. }
  rewrite Ed in Hd. apply (ji_steps _ _ Hj). by rewrite Hd.
Qed.

(** A rejected trust question: nothing is started and, until the timer
    fires, the session is left pending. *)
Lemma trust_rejected_idle s :
  Reachable env s -> TrustRejected s -> queue s = [] -> timer s <> None ->
  is_rejected (result (cells s P_isTrustedViewer))
  \/ is_rejected (result (cells s P_isTrustedReferrer)) ->
  NoSteps env s /\ result (cells s P_session) = None.
Proof.
  intros [Hs Ht Hj] Hr Eq Htm Hrej.
  assert (is_rejected (result (cells s P_trustAll))) as Ha.
  { destruct Hrej as [[e E]|[e E]];
      apply (all_rejected _ _ _ _ e (ti_all _ _ Ht)); [left | right];
      (split; [done |]).
    - apply (progress_idle _ _ _ _ _ Eq (ti_elem0 _ _ Ht) E).
    - apply (progress_idle _ _ _ _ _ Eq (ti_elem1 _ _ Ht) E). }
  destruct (Hr Ha) as [En Hp]. split; [by apply (ti_pre _ _ Ht) |].
  destruct (pending_or_settled (result (cells s P_session))) as [E|E];
    [done | exfalso].
  apply (ji_session _ _ Hj) in E.
  apply (ji_timeout _ _ Hj) in E as [E|E]; done.
Qed.

Lemma replace_promise_noparam :
  viewer_params env !! "replaceUrl" = None
  \/ viewer_params env !! "replaceUrl" = Some "" ->
  replace_promise env = P_replaceNoParam.
Proof.
  unfold replace_promise, getParam. by intros [-> | ->].
Qed.

Lemma click_promise_noparam :
  viewer_params env !! "click" = None
  \/ viewer_params env !! "click" = Some "" ->
  click_promise env = P_clickNoParam.
Proof.
  unfold click_promise, getParam. by intros [-> | ->].
Qed.

Lemma click_promise_not_valid :
  (forall c, viewer_params env !! "click" = Some c ->
             ~ begins_with "https://" c) ->
  click_promise env <> P_clickUrl.
Proof.
  intros H E. destruct (click_promise_inv env E) as (c & Hc & Hb).
  by apply (H c).
Qed.

(** Once the steps are started, both variables are set. *)
Lemma steps_of_click s :
  Reachable env s ->
  clickUrlPromise s <> None -> Steps env s.
Proof.
  intros [Hs Ht Hj] Hc. apply (ji_steps _ _ Hj). intros En.
  apply Hc, (ns_click _ _ (ti_pre _ _ Ht En)).
Qed.

End IdleMore.

(** * The claims *)

(** C1. After [maybeTrackImpression], whatever the viewer, the network and
    the timer do and in whatever order: the module variable holds the
    session promise, the session promise is never rejected, and once the
    8000 ms timer has fired it is fulfilled. *)
Theorem C1_session_never_rejects (env : Env) (schedule more : list ExtEvent) :
  fst (getTrackImpressionPromise (run env schedule)) = Ok P_session
  /\ (forall e, state_of (run env schedule) P_session <> Some (Rejected e))
  /\ is_fulfilled
       (state_of (run env (schedule ++ TimerFires :: more)) P_session).
Proof.
  pose proof (run_SessionInv env schedule) as [_ Hh _ Hf _].
  split; [| split].
  - unfold_module. by rewrite Hh.
  - intros e He. by destruct (Hf _ He).
  - change (TimerFires :: more) with ([TimerFires] ++ more).
    rewrite app_assoc, run_app.
    destruct (session_after_timer env schedule) as [v Hv].
    exists v. by apply foldl_step_results.
Qed.

(** C2, as stated, fails when a step rejects.  Both trust signals have
    arrived, the page is visible and the tracking request has failed: the
    click-tracking promise is rejected, the join has swallowed the rejection
    (the promise of line 86 is fulfilled), no microtask is left, and the
    session promise is still pending. *)
Lemma C2_counterexample :
  replaceUrlPromise (run env_click fetch_fails) = Some P_replaceNoParam
  /\ clickUrlPromise (run env_click fetch_fails) = Some P_clickUrl
  /\ state_of (run env_click fetch_fails) P_replaceNoParam
     = Some (Fulfilled JUndefined)
  /\ state_of (run env_click fetch_fails) P_clickUrl
     = Some (Rejected (JError "network"))
  /\ state_of (run env_click fetch_fails) P_joinAll
     = Some (Rejected (JError "network"))
  /\ state_of (run env_click fetch_fails) P_joinThen
     = Some (Fulfilled JUndefined)
  /\ queue (run env_click fetch_fails) = []
  /\ state_of (run env_click fetch_fails) P_session = None.
Proof. vm_compute. repeat split. Qed.

(** C2 (amended). Once the trust callback has started the two steps, in
    every idle state reached before the timer fires: if both step promises
    are fulfilled, their join is fulfilled and has resolved the session; if
    either is rejected, the join is rejected, the rejection is swallowed
    (the promise of line 86 is fulfilled with [undefined]) and the session
    is still pending.  In both cases the session is fulfilled once the timer
    has fired. *)
Theorem C2_join_resolves_when_fulfilled
        (env : Env) (schedule : list ExtEvent) (rp cp : PromiseId) :
  Forall not_timer schedule ->
  replaceUrlPromise (run env schedule) = Some rp ->
  clickUrlPromise (run env schedule) = Some cp ->
  (is_fulfilled (state_of (run env schedule) rp) ->
   is_fulfilled (state_of (run env schedule) cp) ->
   is_fulfilled (state_of (run env schedule) P_joinAll)
   /\ is_fulfilled (state_of (run env schedule) P_session))
  /\ (is_rejected (state_of (run env schedule) rp)
      \/ is_rejected (state_of (run env schedule) cp) ->
      is_rejected (state_of (run env schedule) P_joinAll)
      /\ state_of (run env schedule) P_joinThen = Some (Fulfilled JUndefined)
      /\ state_of (run env schedule) P_session = None)
  /\ is_fulfilled (state_of (run env (schedule ++ [TimerFires])) P_session).
Proof.
  intros Hok Hrp Hcp.
  pose proof (run_Reachable env schedule) as Hr.
  pose proof (run_quiescent env schedule) as Hq.
  pose proof (run_timer env schedule Hok) as Htm.
  assert (Steps env (run env schedule)) as Hst.
  { apply (ji_steps _ _ (re_join _ _ Hr)). by rewrite Hrp. }
  rewrite (st_replace _ _ Hst) in Hrp. injection Hrp as <-.
  rewrite (st_click _ _ Hst) in Hcp. injection Hcp as <-.
  unfold state_of. split; [| split].
  - intros [v0 E0] [v1 E1]. by apply (steps_fulfilled env _ v0 v1).
  - by apply (steps_rejected env).
  - apply session_after_timer.
Qed.

Lemma C2_witness :
  (is_fulfilled (state_of (run env_click fetch_fails) P_replaceNoParam) ->
   is_fulfilled (state_of (run env_click fetch_fails) P_clickUrl) ->
   is_fulfilled (state_of (run env_click fetch_fails) P_joinAll)
   /\ is_fulfilled (state_of (run env_click fetch_fails) P_session))
  /\ (is_rejected (state_of (run env_click fetch_fails) P_replaceNoParam)
      \/ is_rejected (state_of (run env_click fetch_fails) P_clickUrl) ->
      is_rejected (state_of (run env_click fetch_fails) P_joinAll)
      /\ state_of (run env_click fetch_fails) P_joinThen
         = Some (Fulfilled JUndefined)
      /\ state_of (run env_click fetch_fails) P_session = None)
  /\ is_fulfilled
       (state_of (run env_click (fetch_fails ++ [TimerFires])) P_session).
Proof.
  apply (C2_join_resolves_when_fulfilled env_click fetch_fails
           P_replaceNoParam P_clickUrl);
    [repeat constructor; discriminate | reflexivity | reflexivity].
Defined.

(** C3. In every idle state in which both trust signals have resolved
    [false], with the [alp] experiment off, the session promise is
    fulfilled, whether or not the timer has fired, and nothing of the two
    steps has happened: the callback has set neither [replaceUrlPromise] nor
    [clickUrlPromise], the trace holds no call of [viewer.replaceUrl], no
    [getReplaceUrl] message, no fetch and no other event of the steps, and
    the only requests made are the two trust questions. *)
Theorem C3_untrusted_skips_steps (env : Env) (schedule : list ExtEvent) :
  isExperimentOn env "alp" = false ->
  state_of (run env schedule) P_isTrustedViewer
  = Some (Fulfilled (JBool false)) ->
  state_of (run env schedule) P_isTrustedReferrer
  = Some (Fulfilled (JBool false)) ->
  is_fulfilled (state_of (run env schedule) P_session)
  /\ replaceUrlPromise (run env schedule) = None
  /\ clickUrlPromise (run env schedule) = None
  /\ forallb (fun e => negb (is_step_event e)) (trace (run env schedule))
     = true
  /\ (forall q, q ∈ outstanding (run env schedule) ->
                q = P_isTrustedViewer \/ q = P_isTrustedReferrer).
Proof.
  intros Halp E0 E1.
  pose proof (run_Reachable env schedule) as Hr.
  pose proof (run_quiescent env schedule) as Hq.
  destruct (untrusted_skips env _ Hr Hq Halp E0 E1) as [Hp Hrp].
  pose proof (ti_pre _ _ (re_trust _ _ Hr) Hrp) as Hn.
  split; [by apply (promise_settled_session env) |].
  split; [done |]. split; [apply (ns_click _ _ Hn) |].
  split; [apply (ns_trace _ _ Hn) | apply (ns_outstanding _ _ Hn)].
Qed.

Lemma C3_witness :
  is_fulfilled (state_of (run env_click untrusted) P_session)
  /\ replaceUrlPromise (run env_click untrusted) = None
  /\ clickUrlPromise (run env_click untrusted) = None
  /\ forallb (fun e => negb (is_step_event e)) (trace (run env_click untrusted))
     = true
  /\ (forall q, q ∈ outstanding (run env_click untrusted) ->
                q = P_isTrustedViewer \/ q = P_isTrustedReferrer).
Proof.
  apply (C3_untrusted_skips_steps env_click untrusted);
    [reflexivity | reflexivity | reflexivity].
Defined.

(** C4. Legacy replace-URL path: with a non-empty [replaceUrl] init
    parameter and no [replaceUrl] capability, [handleReplaceUrl] calls
    [viewer.replaceUrl] with exactly that value during the call itself, sends
    no message (nothing else is logged and no request is outstanding), and
    returns a promise that is already fulfilled. *)
Theorem C4_legacy_replaceUrl (env : Env) (s : State) (p : string) :
  viewer_params env !! "replaceUrl" = Some p ->
  p <> "" ->
  "replaceUrl" ∉ viewer_capabilities env ->
  state_of s P_replaceLegacy = None ->
  exists s',
    handleReplaceUrl env s = (Ok P_replaceLegacy, s')
    /\ trace s' = trace s ++ [EvViewerReplaceUrl (JStr p)]
    /\ outstanding s' = outstanding s
    /\ state_of s' P_replaceLegacy = Some (Fulfilled JUndefined).
Proof.
  intros Hp Hne Hcap Hfresh. unfold state_of in Hfresh.
  unfold handleReplaceUrl, getParam, hasCapability. rewrite Hp.
  assert (truthy (JStr p) = true) as Ht.
  { cbn [truthy]. destruct (String.eqb_spec p ""); [done | reflexivity]. }
  rewrite (bool_decide_eq_false_2 _ Hcap). unfold js_or. rewrite Ht.
  cbn [negb]. unfold_module. unfold settle, log, with_trace. cbn [cells].
  rewrite Hfresh.
  eexists. split; [reflexivity |].
  unfold state_of. cbn. rewrite upd_eq. done.
Qed.

Lemma C4_witness :
  exists s',
    handleReplaceUrl env_legacy (init env_legacy) = (Ok P_replaceLegacy, s')
    /\ trace s' = trace (init env_legacy) ++ [EvViewerReplaceUrl (JStr "http://x")]
    /\ outstanding s' = outstanding (init env_legacy)
    /\ state_of s' P_replaceLegacy = Some (Fulfilled JUndefined).
Proof.
  apply (C4_legacy_replaceUrl env_legacy (init env_legacy) "http://x");
    [reflexivity | discriminate | apply not_elem_of_empty | reflexivity].
Defined.

(** C5. Capability-supported replace-URL path: [handleReplaceUrl] sends
    [getReplaceUrl]; whatever the answer, the microtask it schedules fulfils
    the step's promise.  A well-formed object answer leads to
    [viewer.replaceUrl] with its [replaceUrl] field or null; any other
    answer, and a transport rejection, lead to a warning and to no
    [viewer.replaceUrl] call. *)
Theorem C5_async_replaceUrl (env : Env) (s : State) (p : string) :
  viewer_params env !! "replaceUrl" = Some p ->
  p <> "" ->
  "replaceUrl" ∈ viewer_capabilities env ->
  queue s = [] ->
  cells s P_getReplaceUrl = empty_cell ->
  state_of s P_replaceAsync = None ->
  exists s1,
    handleReplaceUrl env s = (Ok P_replaceAsync, s1)
    /\ trace s1 = trace s ++ [EvSendMessageAwaitResponse "getReplaceUrl" JUndefined]
    /\ forall o : Settled,
        let s2 := microstep env (deliver (GetReplaceUrlSettles o) s1) in
        trace s2 = trace s1 ++ [EvExternal (GetReplaceUrlSettles o);
                                replace_outcome_event o]
        /\ state_of s2 P_replaceAsync = Some (Fulfilled JUndefined)
        /\ ((forall u, replace_outcome_event o <> EvViewerReplaceUrl u)
            <-> match o with
                | Fulfilled response => well_formed_response response = false
                | Rejected _ => True
                end).
Proof.
  intros Hp Hne Hcap Hq Hcell Hfresh.
  unfold handleReplaceUrl, getParam, hasCapability. rewrite Hp.
  assert (truthy (JStr p) = true) as Ht.
  { cbn [truthy]. destruct (String.eqb_spec p ""); [done | reflexivity]. }
  rewrite (bool_decide_eq_true_2 _ Hcap), Ht. cbn [negb]. unfold_module.
  eexists. split; [reflexivity |].
  match goal with |- trace ?x = _ /\ _ => set (s1 := x) end.
  assert (trace s1 = trace s
                     ++ [EvSendMessageAwaitResponse "getReplaceUrl" JUndefined])
    as Ht1 by (subst s1; simp_state idtac; reflexivity).
  assert (cells s1 P_getReplaceUrl = mkCell None [r_replace]) as Hc1
    by (subst s1; simp_state ltac:(rewrite ?Hcell); reflexivity).
  assert (queue s1 = []) as Hq1
    by (subst s1; simp_state ltac:(rewrite ?Hcell, ?Hq); reflexivity).
  assert (P_getReplaceUrl ∈ outstanding s1) as Ho1
    by (subst s1; simp_state idtac; by left).
  assert (result (cells s1 P_replaceAsync) = None) as Hf1
    by (subst s1; simp_state idtac; done).
  clearbody s1. split; [done |]. intros o.
  unfold deliver, answer, is_pending.
  rewrite Hc1, bool_decide_eq_true_2 by done. cbn [result andb].
  match goal with |- context [microstep env ?x] => set (s2 := x) end.
  assert (trace s2 = trace s1 ++ [EvExternal (GetReplaceUrlSettles o)])
    as Ht2 by (subst s2; simp_state idtac; reflexivity).
  assert (queue s2 = [JobReaction r_replace o]) as Hq2
    by (subst s2; simp_state ltac:(rewrite ?Hc1, ?Hq1); reflexivity).
  assert (result (cells s2 P_replaceAsync) = None) as Hf2
    by (subst s2; simp_state idtac; done).
  clearbody s2. rewrite (microstep_cons _ _ _ _ Hq2).
  assert (forall e, trace s2 ++ [e]
                    = trace s1 ++ [EvExternal (GetReplaceUrlSettles o); e])
    as Happ by (intros e; by rewrite Ht2, <- app_assoc).
  destruct o as [response|err]; cbn [run_job selected r_replace onFulfilled
                                      onRejected settled_value derived];
    unfold_module.
  - unfold replace_outcome_event, well_formed_response, js_field.
    destruct (truthy response) eqn:E1; destruct (typeof_object response) eqn:E2;
      cbn [negb orb andb]; unfold_module;
      try (destruct response; try discriminate; cbn [js_get]);
      simp_state ltac:(rewrite ?Hf2);
      (split; [apply Happ |]); (split; [done |]);
      (split; [try done; intros H; by destruct (H _ eq_refl) | done]).
  - simp_state ltac:(rewrite ?Hf2).
    split; [apply Happ |]. done.
Qed.

Lemma C5_witness :
  exists s1,
    handleReplaceUrl env_async (init env_async) = (Ok P_replaceAsync, s1)
    /\ trace s1 = trace (init env_async)
                  ++ [EvSendMessageAwaitResponse "getReplaceUrl" JUndefined]
    /\ forall o : Settled,
        let s2 := microstep env_async (deliver (GetReplaceUrlSettles o) s1) in
        trace s2 = trace s1 ++ [EvExternal (GetReplaceUrlSettles o);
                                replace_outcome_event o]
        /\ state_of s2 P_replaceAsync = Some (Fulfilled JUndefined)
        /\ ((forall u, replace_outcome_event o <> EvViewerReplaceUrl u)
            <-> match o with
                | Fulfilled response => well_formed_response response = false
                | Rejected _ => True
                end).
Proof.
  apply (C5_async_replaceUrl env_async (init env_async) "http://x");
    [reflexivity | discriminate | apply (bool_decide_unpack _); by vm_compute
    | reflexivity | reflexivity | reflexivity].
Defined.

(** C6, as stated, fails for the empty [click] value: it does not begin
    with [https://], yet no warning is logged. *)
Lemma C6_counterexample :
  viewer_params env_empty_click !! "click" = Some ""
  /\ ~ begins_with "https://" ""
  /\ trace (snd (handleClickUrl env_empty_click (init env_empty_click))) = [].
Proof.
  split; [reflexivity |]. split; [| reflexivity].
  intros [rest H]. discriminate.
Qed.

(** C6 (amended). For every non-empty [click] value that does not begin with
    [https://], [handleClickUrl] logs the warning, issues no request,
    touches neither the location nor any other promise, and returns a
    promise that is already fulfilled. *)
Theorem C6_invalid_click (env : Env) (s : State) (c : string) :
  viewer_params env !! "click" = Some c ->
  c <> "" ->
  ~ begins_with "https://" c ->
  state_of s P_clickInvalid = None ->
  exists s',
    handleClickUrl env s = (Ok P_clickInvalid, s')
    /\ trace s' = trace s ++ [click_warning c]
    /\ outstanding s' = outstanding s
    /\ location_hash s' = location_hash s
    /\ (forall q, q <> P_clickInvalid -> cells s' q = cells s q)
    /\ state_of s' P_clickInvalid = Some (Fulfilled JUndefined).
Proof.
  intros Hp Hne Hpre Hfresh.
  unfold handleClickUrl, getParam. rewrite Hp.
  assert (truthy (JStr c) = true) as Ht.
  { cbn [truthy]. destruct (String.eqb_spec c ""); [done | reflexivity]. }
  rewrite Ht. cbn [negb]. unfold_module.
  destruct (Z.eqb_spec (indexOf c "https://") 0) as [E|E];
    [by apply indexOf_zero in E |].
  cbn [negb]. eexists. split; [reflexivity |].
  split; [by simp_state idtac |]. split; [by simp_state idtac |].
  split; [by simp_state idtac |]. split.
  - intros q Hq. rewrite cells_settle_ne by done. by simp_state idtac.
  - simp_state ltac:(rewrite ?Hfresh). done.
Qed.

Lemma C6_witness :
  exists s',
    handleClickUrl env_ftp_click (init env_ftp_click) = (Ok P_clickInvalid, s')
    /\ trace s' = trace (init env_ftp_click) ++ [click_warning "ftp://evil"]
    /\ outstanding s' = outstanding (init env_ftp_click)
    /\ location_hash s' = location_hash (init env_ftp_click)
    /\ (forall q, q <> P_clickInvalid ->
                  cells s' q = cells (init env_ftp_click) q)
    /\ state_of s' P_clickInvalid = Some (Fulfilled JUndefined).
Proof.
  apply (C6_invalid_click env_ftp_click (init env_ftp_click) "ftp://evil");
    [reflexivity | discriminate | | reflexivity].
  intros [rest H]. discriminate.
Defined.

(** C7. With a [click] parameter that begins with [https://], along every
    run: once [handleClickUrl] has run, the trace holds the call of
    [whenFirstVisible], preceded by the clearing of the fragment if the
    location had one; and every fetch in the trace is preceded by the
    first-visible signal and by that call of [whenFirstVisible], hence by
    the clearing of the fragment. *)
Theorem C7_click_order (env : Env) (schedule : list ExtEvent) (c : string) :
  viewer_params env !! "click" = Some c ->
  begins_with "https://" c ->
  (clickUrlPromise (run env schedule) <> None ->
   exists k1 k2,
     trace (run env schedule) = k1 ++ EvWhenFirstVisible :: k2
     /\ (initial_hash env <> "" -> EvSetLocationHash "" ∈ k1))
  /\ (forall l1 f l2,
        trace (run env schedule) = l1 ++ f :: l2 -> is_fetch f = true ->
        EvExternal FirstVisible ∈ l1
        /\ exists k1 k2,
             l1 = k1 ++ EvWhenFirstVisible :: k2
             /\ (initial_hash env <> "" -> EvSetLocationHash "" ∈ k1)).
Proof.
  intros Hp Hb.
  pose proof (click_promise_valid env c Hp Hb) as Hc.
  pose proof (run_Reachable env schedule) as Hr.
  destruct (run_TraceInv env schedule) as [_ Hk Ho].
  split; [| exact Ho].
  intros Hcp. apply Hk; [| done].
  intros En. apply Hcp, (ns_click _ _ (ti_pre _ _ (re_trust _ _ Hr) En)).
Qed.

Lemma C7_witness :
  trace (run env_click trusted_visible)
  = [EvExternal (IsTrustedViewerSettles (Fulfilled (JBool true)));
     EvExternal (IsTrustedReferrerSettles (Fulfilled (JBool false)));
     EvSetLocationHash ""; EvWhenFirstVisible; EvExternal FirstVisible;
     EvFetchJson "https://ad.example/track" "include" false]
  /\ (clickUrlPromise (run env_click trusted_visible) <> None ->
      exists k1 k2,
        trace (run env_click trusted_visible) = k1 ++ EvWhenFirstVisible :: k2
        /\ (initial_hash env_click <> "" -> EvSetLocationHash "" ∈ k1))
  /\ (forall l1 f l2,
        trace (run env_click trusted_visible) = l1 ++ f :: l2 ->
        is_fetch f = true ->
        EvExternal FirstVisible ∈ l1
        /\ exists k1 k2,
             l1 = k1 ++ EvWhenFirstVisible :: k2
             /\ (initial_hash env_click <> "" -> EvSetLocationHash "" ∈ k1)).
Proof.
  split; [reflexivity |].
  apply (C7_click_order env_click trusted_visible "https://ad.example/track");
    [reflexivity | by exists "ad.example/track"].
Defined.

(** C8. [applyResponse] on a response whose properties can be read:
    the tracked URL is [tracking_url] if truthy, else [location]; one image
    request is made exactly when the tracked URL is truthy and not a proxy
    origin; and when [location] is truthy and [history.replaceState]
    exists, the current history entry is replaced by the current href with
    the query parameters of [location] added, the older entries being left
    as they are. *)
Theorem C8_applyResponse (env : Env) (s : State) (response loc trk : JsVal) :
  js_get response "location" = Ok loc ->
  js_get response "tracking_url" = Ok trk ->
  exists s',
    applyResponse env response s = (Ok tt, s')
    /\ trackUrl_of response = js_or trk loc
    /\ trace s' =
         trace s ++ beacon_events env response
         ++ (if rewrites_history env response
             then [EvHistoryReplaceState JNull "" (newHref_of env s response)]
             else [])
    /\ history_current s' =
         (if rewrites_history env response
          then newHref_of env s response
          else history_current s)
    /\ history_older s' = history_older s
    /\ history_length s' = history_length s.
Proof.
  intros Hloc Htrk.
  unfold applyResponse, beacon_events, rewrites_history, newHref_of,
    trackUrl_of, js_field, history_length.
  rewrite Hloc, Htrk. unfold_module.
  destruct (truthy (js_or trk loc) && negb (isProxyOrigin env (js_or trk loc)));
    destruct (truthy loc); destruct (history_replaceState env);
    cbn [negb andb]; eexists; (split; [reflexivity |]);
    simp_state idtac; rewrite <- ?app_assoc, ?app_nil_r; done.
Qed.

Lemma C8_witness :
  exists s',
    applyResponse env_no_history sample_response (init env_no_history)
    = (Ok tt, s')
    /\ trackUrl_of sample_response
       = js_or (JStr "https://track.example") (JStr "https://x/?a=1")
    /\ trace s' =
         trace (init env_no_history)
         ++ beacon_events env_no_history sample_response
         ++ (if rewrites_history env_no_history sample_response
             then [EvHistoryReplaceState JNull ""
                     (newHref_of env_no_history (init env_no_history)
                                 sample_response)]
             else [])
    /\ history_current s' =
         (if rewrites_history env_no_history sample_response
          then newHref_of env_no_history (init env_no_history) sample_response
          else history_current (init env_no_history))
    /\ history_older s' = history_older (init env_no_history)
    /\ history_length s' = history_length (init env_no_history).
Proof.
  apply (C8_applyResponse env_no_history (init env_no_history) sample_response
           (JStr "https://x/?a=1") (JStr "https://track.example"));
    reflexivity.
Defined.

(** C9. Before any session is started, and after the testing reset,
    [getTrackImpressionPromise] throws the assertion error; whenever it
    returns, it returns the handle that was set. *)
Theorem C9_getTrackImpressionPromise_asserts (env : Env) :
  getTrackImpressionPromise (init env)
  = (Throw (JError "Assertion failed"), init env)
  /\ (forall s,
        fst (getTrackImpressionPromise
               (snd (resetTrackImpressionPromiseForTesting s)))
        = Throw (JError "Assertion failed"))
  /\ (forall s,
        match fst (getTrackImpressionPromise s) with
        | Ok p => trackImpressionPromise s = Some p
        | Throw e =>
            trackImpressionPromise s = None /\ e = JError "Assertion failed"
        end).
Proof.
  split; [reflexivity |]. split; [reflexivity |].
  intros s. unfold_module. by destruct (trackImpressionPromise s).
Qed.

(** C10. In [applyResponse] the image request does not depend on the
    history API: with a truthy, non-proxy tracked URL and no
    [history.replaceState], exactly the image request is made and the
    history is left alone. *)
Theorem C10_beacon_without_history (env : Env) (s : State) (response loc trk : JsVal) :
  js_get response "location" = Ok loc ->
  js_get response "tracking_url" = Ok trk ->
  truthy (js_or trk loc) = true ->
  isProxyOrigin env (js_or trk loc) = false ->
  history_replaceState env = false ->
  exists s',
    applyResponse env response s = (Ok tt, s')
    /\ trace s' = trace s ++ [EvImageSrc (js_or trk loc)]
    /\ history_current s' = history_current s
    /\ history_older s' = history_older s.
Proof.
  intros Hloc Htrk Ht Hp Hh.
  unfold applyResponse. rewrite Hloc, Htrk. unfold_module.
  rewrite Ht, Hp, Hh. cbn [negb andb].
  destruct (truthy loc); eexists; (split; [reflexivity |]); done.
Qed.

Lemma C10_witness :
  exists s',
    applyResponse env_no_history sample_response (init env_no_history)
    = (Ok tt, s')
    /\ trace s' = trace (init env_no_history)
                  ++ [EvImageSrc (js_or (JStr "https://track.example")
                                        (JStr "https://x/?a=1"))]
    /\ history_current s' = history_current (init env_no_history)
    /\ history_older s' = history_older (init env_no_history).
Proof.
  apply (C10_beacon_without_history env_no_history (init env_no_history)
           sample_response (JStr "https://x/?a=1")
           (JStr "https://track.example"));
    reflexivity.
Defined.
(** * Further properties of the module *)

(** X1. [doNotTrackImpression] (lines 93-95) on a state in which its promise
    is fresh: afterwards [getTrackImpressionPromise] returns a promise that
    is already fulfilled with [undefined]; no timer is armed, nothing is
    logged, requested or scheduled. *)
Theorem X1_doNotTrackImpression (s : State) :
  cells s P_doNotTrack = empty_cell ->
  exists s',
    doNotTrackImpression s = (Ok tt, s')
    /\ getTrackImpressionPromise s' = (Ok P_doNotTrack, s')
    /\ state_of s' P_doNotTrack = Some (Fulfilled JUndefined)
    /\ timer s' = timer s
    /\ trace s' = trace s
    /\ outstanding s' = outstanding s
    /\ queue s' = queue s.
Proof.
  intros Hc. eexists. split; [reflexivity |].
  unfold state_of. unfold_module.
  cbn [with_trackImpressionPromise trackImpressionPromise cells timer trace
       outstanding queue].
  rewrite timer_settle, trace_settle, outstanding_settle, queue_settle,
    cells_settle_eq, Hc.
  cbn. by rewrite app_nil_r.
Qed.

Lemma X1_witness :
  exists s',
    doNotTrackImpression (run env_click trusted_visible) = (Ok tt, s')
    /\ getTrackImpressionPromise s' = (Ok P_doNotTrack, s')
    /\ state_of s' P_doNotTrack = Some (Fulfilled JUndefined)
    /\ timer s' = timer (run env_click trusted_visible)
    /\ trace s' = trace (run env_click trusted_visible)
    /\ outstanding s' = outstanding (run env_click trusted_visible)
    /\ queue s' = queue (run env_click trusted_visible).
Proof.
  apply (X1_doNotTrackImpression (run env_click trusted_visible)).
  reflexivity.
Defined.

(** X2. [handleReplaceUrl] (lines 108-116) with the [replaceUrl] parameter
    absent or empty, whatever the capabilities of the viewer: no call of
    [viewer.replaceUrl], no message, no request; no other promise is
    touched and the promise returned is fulfilled with [undefined]. *)
Theorem X2_handleReplaceUrl_no_param (env : Env) (s : State) :
  viewer_params env !! "replaceUrl" = None
  \/ viewer_params env !! "replaceUrl" = Some "" ->
  state_of s P_replaceNoParam = None ->
  exists s',
    handleReplaceUrl env s = (Ok P_replaceNoParam, s')
    /\ trace s' = trace s
    /\ outstanding s' = outstanding s
    /\ (forall q, q <> P_replaceNoParam -> cells s' q = cells s q)
    /\ state_of s' P_replaceNoParam = Some (Fulfilled JUndefined).
Proof.
  intros Hp Hfresh. unfold state_of in *.
  rewrite handleReplaceUrl_eq. unfold replace_step.
  rewrite (replace_promise_noparam env Hp).
  eexists. split; [reflexivity |].
  rewrite trace_settle, outstanding_settle, cells_settle_eq, Hfresh.
  split_and!; try done. intros q Hq. by rewrite cells_settle_ne.
Qed.

Lemma X2_witness :
  exists s',
    handleReplaceUrl env_empty_replace (init env_empty_replace)
    = (Ok P_replaceNoParam, s')
    /\ trace s' = trace (init env_empty_replace)
    /\ outstanding s' = outstanding (init env_empty_replace)
    /\ (forall q, q <> P_replaceNoParam ->
                  cells s' q = cells (init env_empty_replace) q)
    /\ state_of s' P_replaceNoParam = Some (Fulfilled JUndefined).
Proof.
  apply (X2_handleReplaceUrl_no_param env_empty_replace
           (init env_empty_replace));
    [right; reflexivity | reflexivity].
Defined.

(** X3. [handleClickUrl] (lines 145-152) with the [click] parameter absent
    or empty: no warning, the fragment is left alone, no visibility wait and
    no request; the promise returned is fulfilled with [undefined]. *)
Theorem X3_handleClickUrl_no_param (env : Env) (s : State) :
  viewer_params env !! "click" = None
  \/ viewer_params env !! "click" = Some "" ->
  state_of s P_clickNoParam = None ->
  exists s',
    handleClickUrl env s = (Ok P_clickNoParam, s')
    /\ trace s' = trace s
    /\ location_hash s' = location_hash s
    /\ outstanding s' = outstanding s
    /\ (forall q, q <> P_clickNoParam -> cells s' q = cells s q)
    /\ state_of s' P_clickNoParam = Some (Fulfilled JUndefined).
Proof.
  intros Hp Hfresh. unfold state_of in *.
  rewrite handleClickUrl_eq. unfold click_step.
  rewrite (click_promise_noparam env Hp).
  eexists. split; [reflexivity |].
  rewrite trace_settle, location_hash_settle, outstanding_settle,
    cells_settle_eq, Hfresh.
  split_and!; try done. intros q Hq. by rewrite cells_settle_ne.
Qed.

Lemma X3_witness :
  exists s',
    handleClickUrl env_legacy (init env_legacy) = (Ok P_clickNoParam, s')
    /\ trace s' = trace (init env_legacy)
    /\ location_hash s' = location_hash (init env_legacy)
    /\ outstanding s' = outstanding (init env_legacy)
    /\ (forall q, q <> P_clickNoParam ->
                  cells s' q = cells (init env_legacy) q)
    /\ state_of s' P_clickNoParam = Some (Fulfilled JUndefined).
Proof.
  apply (X3_handleClickUrl_no_param env_legacy (init env_legacy));
    [left; reflexivity | reflexivity].
Defined.

(** X4. [handleClickUrl] (lines 154-173) with a [click] parameter that
    begins with [https://]: the fragment is written only if it is not
    empty, and is empty afterwards; [whenFirstVisible] is called; during the
    call no request is made and no promise is settled, so the promise
    returned is as pending as before. *)
Theorem X4_handleClickUrl_valid (env : Env) (s : State) (c : string) :
  viewer_params env !! "click" = Some c ->
  begins_with "https://" c ->
  exists s',
    handleClickUrl env s = (Ok P_clickUrl, s')
    /\ trace s' = trace s
                  ++ (if String.eqb (location_hash s) "" then []
                      else [EvSetLocationHash ""])
                  ++ [EvWhenFirstVisible]
    /\ location_hash s' = ""
    /\ outstanding s' = outstanding s
    /\ (forall q, state_of s' q = state_of s q).
Proof.
  intros Hp Hb. unfold state_of.
  rewrite handleClickUrl_eq. unfold click_step.
  rewrite (click_promise_valid env c Hp Hb).
  eexists. split; [reflexivity |].
  rewrite !trace_subscribe, !location_hash_subscribe, !outstanding_subscribe.
  cbn [log with_trace trace location_hash outstanding].
  rewrite trace_clear_hash, location_hash_clear_hash, outstanding_clear_hash.
  split_and!; try done.
  - rewrite <- app_assoc. cbn [truthy]. by destruct (location_hash s =? "")%string.
  - intros q. rewrite !result_subscribe. cbn [log with_trace cells].
    by rewrite cells_clear_hash.
Qed.

Lemma X4_witness :
  exists s',
    handleClickUrl env_click (init env_click) = (Ok P_clickUrl, s')
    /\ trace s' = trace (init env_click)
                  ++ (if String.eqb (location_hash (init env_click)) ""
                      then [] else [EvSetLocationHash ""])
                  ++ [EvWhenFirstVisible]
    /\ location_hash s' = ""
    /\ outstanding s' = outstanding (init env_click)
    /\ (forall q, state_of s' q = state_of (init env_click) q).
Proof.
  apply (X4_handleClickUrl_valid env_click (init env_click)
           "https://ad.example/track");
    [reflexivity | by exists "ad.example/track"].
Defined.

(** X5. [applyResponse] (lines 199-201) on [null] or [undefined]: reading
    [response['location']] throws before anything is done, and the job of
    line 171 rejects the click-tracking promise with that error. *)
Theorem X5_applyResponse_null (env : Env) (s : State) (response : JsVal) :
  response = JNull \/ response = JUndefined ->
  applyResponse env response s = (Throw (JError "TypeError"), s)
  /\ run_job env (JobReaction r_apply (Fulfilled response)) s
     = settle P_clickUrl (Rejected (JError "TypeError")) s.
Proof. by intros [-> | ->]. Qed.

Lemma X5_witness :
  applyResponse env_click JNull (init env_click)
  = (Throw (JError "TypeError"), init env_click)
  /\ run_job env_click (JobReaction r_apply (Fulfilled JNull)) (init env_click)
     = settle P_clickUrl (Rejected (JError "TypeError")) (init env_click).
Proof.
  apply (X5_applyResponse_null env_click (init env_click) JNull).
  left. reflexivity.
Defined.

(** X6. Along every run, the promise [handleReplaceUrl] has returned (lines
    108-136) is never rejected: whatever the viewer answers, and also when
    its answer is an error, the promise is pending or fulfilled with
    [undefined]. *)
Theorem X6_replace_step_never_rejects
        (env : Env) (schedule : list ExtEvent) (rp : PromiseId) (o : Settled) :
  replaceUrlPromise (run env schedule) = Some rp ->
  state_of (run env schedule) rp = Some o ->
  o = Fulfilled JUndefined.
Proof.
  intros Hrp Ho.
  pose proof (run_Reachable env schedule) as Hr.
  assert (Steps env (run env schedule)) as Hst.
  { apply (ji_steps _ _ (re_join _ _ Hr)). by rewrite Hrp. }
  rewrite (st_replace _ _ Hst) in Hrp. injection Hrp as <-.
  apply (vi_steps _ (run_ValuesInv env schedule) (replace_promise env));
    [| done].
  unfold resolved_steps.
  destruct (replace_promise_cases env) as [-> | [-> | ->]]; set_solver.
Qed.

Lemma X6_witness :
  exists rp o,
    replaceUrlPromise (run env_async replace_fails) = Some rp
    /\ state_of (run env_async replace_fails) rp = Some o
    /\ o = Fulfilled JUndefined.
Proof.
  exists P_replaceAsync, (Fulfilled JUndefined).
  split; [vm_compute; reflexivity |]. split; [vm_compute; reflexivity |].
  apply (X6_replace_step_never_rejects env_async replace_fails
           P_replaceAsync (Fulfilled JUndefined));
    vm_compute; reflexivity.
Defined.

(** X7. Along every run, when the session promise is settled it is
    fulfilled with [undefined] (lines 56-63, 77 and 84-86): no value of the
    viewer or of the ad server reaches it. *)
Theorem X7_session_value
        (env : Env) (schedule : list ExtEvent) (o : Settled) :
  state_of (run env schedule) P_session = Some o ->
  o = Fulfilled JUndefined.
Proof. apply (vi_session _ (run_ValuesInv env schedule)). Qed.

Lemma X7_witness :
  exists o,
    state_of (run env_click (fetch_fails ++ [TimerFires])) P_session = Some o
    /\ o = Fulfilled JUndefined.
Proof.
  exists (Fulfilled JUndefined). split; [vm_compute; reflexivity |].
  apply (X7_session_value env_click (fetch_fails ++ [TimerFires])
           (Fulfilled JUndefined)).
  vm_compute. reflexivity.
Defined.

(** X8. If both trust questions are answered and an answer is truthy, or
    the [alp] experiment is on (lines 73-84), then in the idle state both
    steps have been called: the variables of the callback hold the promises
    that [handleReplaceUrl] and [handleClickUrl] return. *)
Theorem X8_trusted_starts_steps
        (env : Env) (schedule : list ExtEvent) (v0 v1 : JsVal) :
  state_of (run env schedule) P_isTrustedViewer = Some (Fulfilled v0) ->
  state_of (run env schedule) P_isTrustedReferrer = Some (Fulfilled v1) ->
  truthy v0 = true \/ truthy v1 = true \/ isExperimentOn env "alp" = true ->
  exists rp cp,
    replaceUrlPromise (run env schedule) = Some rp
    /\ clickUrlPromise (run env schedule) = Some cp
    /\ (forall s, fst (handleReplaceUrl env s) = Ok rp)
    /\ (forall s, fst (handleClickUrl env s) = Ok cp).
Proof.
  intros E0 E1 Hor.
  pose proof (trusted_starts env _ v0 v1 (run_Reachable env schedule)
                (run_quiescent env schedule) E0 E1 Hor) as Hst.
  exists (replace_promise env), (click_promise env).
  split; [apply (st_replace _ _ Hst) |].
  split; [apply (st_click _ _ Hst) |].
  split; intros s; by rewrite ?handleReplaceUrl_eq, ?handleClickUrl_eq.
Qed.

Lemma X8_witness :
  exists rp cp,
    replaceUrlPromise (run env_alp untrusted) = Some rp
    /\ clickUrlPromise (run env_alp untrusted) = Some cp
    /\ (forall s, fst (handleReplaceUrl env_alp s) = Ok rp)
    /\ (forall s, fst (handleClickUrl env_alp s) = Ok cp).
Proof.
  apply (X8_trusted_starts_steps env_alp untrusted (JBool false)
           (JBool false));
    [vm_compute; reflexivity | vm_compute; reflexivity
    | right; right; vm_compute; reflexivity].
Defined.

(** X9. If a trust question is rejected (lines 68-71 give [then] no
    rejection callback), then in every idle state before the timer fires:
    the callback has not run, nothing of the two steps has happened, and
    the session promise is still pending. *)
Theorem X9_trust_rejected (env : Env) (schedule : list ExtEvent) :
  Forall not_timer schedule ->
  is_rejected (state_of (run env schedule) P_isTrustedViewer)
  \/ is_rejected (state_of (run env schedule) P_isTrustedReferrer) ->
  replaceUrlPromise (run env schedule) = None
  /\ clickUrlPromise (run env schedule) = None
  /\ forallb (fun e => negb (is_step_event e)) (trace (run env schedule))
     = true
  /\ state_of (run env schedule) P_session = None.
Proof.
  intros Hok Hrej.
  destruct (trust_rejected_idle env _ (run_Reachable env schedule)
              (run_TrustRejected env schedule) (run_quiescent env schedule)
              (run_timer env schedule Hok) Hrej) as [Hn Hs].
  pose proof (run_Reachable env schedule) as Hr.
  split_and!; [| apply (ns_click _ _ Hn) | apply (ns_trace _ _ Hn) | done].
  destruct (pending_or_settled (replaceUrlPromise (run env schedule)))
    as [E|E]; [done | exfalso].
  pose proof (st_click _ _ (ji_steps _ _ (re_join _ _ Hr) E)) as Hc.
  by rewrite (ns_click _ _ Hn) in Hc.
Qed.

Lemma X9_witness :
  replaceUrlPromise (run env_click viewer_fails) = None
  /\ clickUrlPromise (run env_click viewer_fails) = None
  /\ forallb (fun e => negb (is_step_event e))
             (trace (run env_click viewer_fails)) = true
  /\ state_of (run env_click viewer_fails) P_session = None.
Proof.
  apply (X9_trust_rejected env_click viewer_fails).
  - repeat constructor; discriminate.
  - left. eexists. vm_compute. reflexivity.
Defined.

(** X10. Along every run at most one fetch is issued (lines 169-170 and
    186): the visibility reaction is registered once and runs once. *)
Theorem X10_at_most_one_fetch (env : Env) (schedule : list ExtEvent) :
  count_fetch (trace (run env schedule)) <= 1.
Proof.
  pose proof (fi_once _ _ (run_FetchInv env schedule)). lia.
Qed.

(** X11. Every fetch of a run is the request of [invoke] (lines 182-190)
    for the [click] parameter, which begins with [https://]: the URL is the
    parameter itself, or the local proxy with the parameter appended in
    local development outside tests; credentials are included and no
    source-origin header is required. *)
Theorem X11_fetch_request
        (env : Env) (schedule : list ExtEvent) (l1 l2 : list Event)
        (e : Event) :
  trace (run env schedule) = l1 ++ e :: l2 ->
  is_fetch e = true ->
  exists c,
    viewer_params env !! "click" = Some c
    /\ begins_with "https://" c
    /\ e = EvFetchJson
             (if mode_localDev env && negb (mode_test env)
              then ("http://localhost:8000/impression-proxy?url=" ++ c)%string
              else c)
             "include" false.
Proof.
  intros Et Hf.
  apply (fi_expected _ _ (run_FetchInv env schedule)); [| done].
  rewrite Et. apply elem_of_app. right. by left.
Qed.

Lemma X11_witness :
  exists c,
    viewer_params env_click_test !! "click" = Some c
    /\ begins_with "https://" c
    /\ EvFetchJson "https://ad.example/track" "include" false
       = EvFetchJson
           (if mode_localDev env_click_test && negb (mode_test env_click_test)
            then ("http://localhost:8000/impression-proxy?url=" ++ c)%string
            else c)
           "include" false.
Proof.
  apply (X11_fetch_request env_click_test trusted_visible
           [EvExternal (IsTrustedViewerSettles (Fulfilled (JBool true)));
            EvExternal (IsTrustedReferrerSettles (Fulfilled (JBool false)));
            EvWhenFirstVisible; EvExternal FirstVisible] []);
    vm_compute; reflexivity.
Defined.

(** X12. The fragment along a run (lines 161-166): it is the initial one
    until [handleClickUrl] has run, and afterwards it is empty if the
    [click] parameter begins with [https://] and the initial one
    otherwise. *)
Theorem X12_fragment (env : Env) (schedule : list ExtEvent) :
  (clickUrlPromise (run env schedule) = None ->
   location_hash (run env schedule) = initial_hash env)
  /\ (clickUrlPromise (run env schedule) <> None ->
      forall c, viewer_params env !! "click" = Some c ->
                begins_with "https://" c ->
                location_hash (run env schedule) = "")
  /\ ((forall c, viewer_params env !! "click" = Some c ->
                 ~ begins_with "https://" c) ->
      location_hash (run env schedule) = initial_hash env).
Proof.
  pose proof (run_Reachable env schedule) as Hr.
  pose proof (run_HashInv env schedule) as Hh. unfold HashInv in Hh.
  split_and!.
  - intros Hc.
    destruct (replaceUrlPromise (run env schedule)) eqn:E; [| done].
    assert (Steps env (run env schedule)) as Hst.
    { apply (ji_steps _ _ (re_join _ _ Hr)). by rewrite E. }
    by rewrite (st_click _ _ Hst) in Hc.
  - intros Hc c Hp Hb.
    pose proof (steps_of_click env _ Hr Hc) as Hst.
    rewrite (st_replace _ _ Hst) in Hh. unfold hash_after in Hh.
    by rewrite (click_promise_valid env c Hp Hb) in Hh.
  - intros Hno. pose proof (click_promise_not_valid env Hno) as Hne.
    unfold hash_after in Hh.
    destruct (replaceUrlPromise (run env schedule)); [| done].
    by destruct (click_promise env).
Qed.

(** X13. Without a [click] parameter that begins with [https://] (lines
    150-159), along every run the module never writes the fragment, never
    waits for visibility, never fetches, never reads a response, never loads
    an image and never rewrites the history. *)
Theorem X13_no_click_no_request (env : Env) (schedule : list ExtEvent) :
  (forall c, viewer_params env !! "click" = Some c ->
             ~ begins_with "https://" c) ->
  forallb (fun e => negb (is_click_event e)) (trace (run env schedule)) = true.
Proof.
  intros Hno.
  apply (qi_click _ _ (run_QuietInv env schedule)).
  by apply click_promise_not_valid.
Qed.

Lemma X13_witness :
  forallb (fun e => negb (is_click_event e))
          (trace (run env_ftp_click trusted_visible)) = true.
Proof.
  apply (X13_no_click_no_request env_ftp_click trusted_visible).
  intros c [= <-] [rest H]. discriminate.
Defined.

(** X14. Without a [replaceUrl] parameter, or with an empty one (lines
    112-116), along every run [viewer.replaceUrl] is never called and no
    [getReplaceUrl] message is sent, whatever the capabilities of the
    viewer. *)
Theorem X14_no_replaceUrl_param (env : Env) (schedule : list ExtEvent) :
  viewer_params env !! "replaceUrl" = None
  \/ viewer_params env !! "replaceUrl" = Some "" ->
  forallb (fun e => negb (is_replace_event e)) (trace (run env schedule))
  = true.
Proof.
  intros Hp.
  apply (qi_replace _ _ (run_QuietInv env schedule)).
  by apply replace_promise_noparam.
Qed.

Lemma X14_witness :
  forallb (fun e => negb (is_replace_event e))
          (trace (run env_empty_replace trusted_visible)) = true.
Proof.
  apply (X14_no_replaceUrl_param env_empty_replace trusted_visible).
  right. reflexivity.
Defined.
